(** * Highlighter extension: text anchoring, restoration and storage

    A shallow embedding of the content script (selection encoding, the
    three restoration strategies, wrapping and unwrapping of highlight
    spans) and of the background script (page records, removal, import,
    URL normalisation), with the properties the specification states
    about them. *)

From Stdlib Require Import Ascii String.

From stdpp Require Import base option list gmap strings.

Local Open Scope nat_scope.

#[local] Set Warnings "-register-all".

(** ** JavaScript strings

    Text is a sequence of code units; keys (ids, tags, URLs) are [string]s. *)

Abbreviation jsstr := (list ascii) (only parsing).

Definition str (s : string) : jsstr := list_ascii_of_string s.

(** [String.prototype.substring(a, b)]: both ends are clamped to the length
    and swapped when [a > b]. *)
Definition substring (t : jsstr) (a b : nat) : jsstr :=
  let a' := a `min` length t in
  let b' := b `min` length t in
  take (a' `max` b' - a' `min` b') (drop (a' `min` b') t).

(** [q] is found at the head of [t]. *)
Definition startsWith (t q : jsstr) : bool := bool_decide (take (length q) t = q).

(** Search of [q] in the remaining text [t], whose first code unit has
    index [k] in the whole string. *)
Fixpoint indexOfFrom (t q : jsstr) (k : nat) : option nat :=
  if startsWith t q then Some k
  else match t with
       | [] => None
       | _ :: t' => indexOfFrom t' q (S k)
       end.

(** [String.prototype.indexOf(q, from)]; [None] stands for [-1]. The start
    position is clamped to the length. *)
Definition indexOf (t q : jsstr) (from : nat) : option nat :=
  indexOfFrom (drop from t) q (from `min` length t).

(** [String.prototype.includes(q)]. *)
Definition includes (t q : jsstr) : bool := bool_decide (is_Some (indexOf t q 0)).

(** [s.slice(-n)] and [s.slice(0, n)]. *)
Definition sliceLast (n : nat) (s : jsstr) : jsstr := drop (length s - n) s.

Definition sliceFirst (n : nat) (s : jsstr) : jsstr := take n s.

(** Truthiness of a string: non-empty. *)
Definition truthy (s : jsstr) : bool := bool_decide (s ≠ []).

(** ** Element names

    An element is an HTML element (in the HTML namespace, without a
    prefix) with its local name, or a foreign element (SVG, MathML or
    another namespace) with its qualified name. *)

Inductive Name := Html (localName : string) | Foreign (qualifiedName : string).

Coercion Html : string >-> Name.

Bind Scope string_scope with Name.

Fixpoint mapString (f : ascii -> ascii) (s : string) : string :=
  match s with
  | EmptyString => EmptyString
  | String c s' => String (f c) (mapString f s')
  end.

Fixpoint allChars (f : ascii -> bool) (s : string) : bool :=
  match s with
  | EmptyString => true
  | String c s' => f c && allChars f s'
  end.

(** ASCII lower and upper case of one code unit. *)
Definition toLower (c : ascii) : ascii :=
  let n := nat_of_ascii c in
  if bool_decide (65 ≤ n ≤ 90) then ascii_of_nat (n + 32) else c.

Definition toUpper (c : ascii) : ascii :=
  let n := nat_of_ascii c in
  if bool_decide (97 ≤ n ≤ 122) then ascii_of_nat (n - 32) else c.

(** [String.prototype.toLowerCase] on one code unit below 256: the ASCII
    capitals and the Latin-1 capitals (192 to 222 without the
    multiplication sign 215) go 32 up. *)
Definition toLowerCaseUnit (c : ascii) : ascii :=
  let n := nat_of_ascii c in
  if bool_decide (65 ≤ n ≤ 90)
     || (bool_decide (192 ≤ n ≤ 222) && negb (bool_decide (n = 215)))
  then ascii_of_nat (n + 32) else c.

Definition toLowerCase (s : string) : string := mapString toLowerCaseUnit s.

(** [Element.tagName] in an HTML document: the qualified name, in ASCII
    upper case for an HTML element. *)
Definition tagName (name : Name) : string :=
  match name with
  | Html localName => mapString toUpper localName
  | Foreign qualifiedName => qualifiedName
  end.

(** ** The document

    The model's root is [document.body]. An element carries its name and
    the value of its [data-hl-id] attribute, if any; the body itself and
    what lies outside it are taken not to carry that attribute. Nodes are
    addressed by the list of child indexes leading to them. *)

Inductive Node :=
| Text (data : jsstr)
| Elem (name : Name) (hlId : option string) (childNodes : list Node).

Abbreviation path := (list nat) (only parsing).

Fixpoint getNode (n : Node) (p : path) : option Node :=
  match p with
  | [] => Some n
  | k :: p' =>
      match n with
      | Elem _ _ cs => match cs !! k with Some c => getNode c p' | None => None end
      | Text _ => None
      end
  end.

(** Document-order traversal of a child list: the results found below the
    child of index [k] get [k] in front of their paths. *)
Fixpoint walkChildren {B} (f : Node -> list (path * B)) (k : nat)
    (cs : list Node) : list (path * B) :=
  match cs with
  | [] => []
  | c :: cs' => (prod_map (cons k) id <$> f c) ++ walkChildren f (S k) cs'
  end.

(** Text nodes below (and including) a node, in document order, each with
    its path relative to that node. *)
Fixpoint textNodes (n : Node) : list (path * jsstr) :=
  match n with
  | Text d => [([], d)]
  | Elem _ _ cs => walkChildren textNodes 0 cs
  end.

(** [document.createTreeWalker(root, SHOW_TEXT)] followed by repeated
    [nextNode()]: the text nodes strictly below [root], in document order,
    with absolute paths when [root] sits at [at_]. *)
Definition treeWalker (doc : Node) (at_ : path) : list (path * jsstr) :=
  match getNode doc at_ with
  | Some (Elem t h cs) => prod_map (app at_) id <$> textNodes (Elem t h cs)
  | _ => []
  end.

(** ** Stored highlights (anchors) *)

(** One step of a stored path: [/tag] or [/tag[i]]. *)
Record Step := { st_tag : string; st_index : option nat }.

(** A stored path in the format of [getTextNodeXPath]:
    [/body/step.../text()[k]]; [xp_text = None] when the path names an
    element. *)
Record XPath := { xp_steps : list Step; xp_text : option nat }.

(** The highlight data object; [hl_xpath = None] for a missing or malformed
    path string. *)
Record Item := {
  hl_id : string;
  hl_quote : jsstr;
  hl_prefix : jsstr;
  hl_suffix : jsstr;
  hl_color : string;
  hl_xpath : option XPath;
  hl_startOffset : nat;
  hl_endOffset : nat;
  hl_note : string;
  hl_tags : list string;
  hl_createdAt : string
}.

Definition CONTEXT_SIZE : nat := 30.

(** ** Path functions *)

(** Indexes of the children that are elements whose name passes [test]. *)
Fixpoint childElems (test : Name -> bool) (k : nat) (cs : list Node) : list nat :=
  match cs with
  | [] => []
  | Elem name _ _ :: cs' =>
      if test name then k :: childElems test (S k) cs'
      else childElems test (S k) cs'
  | Text _ :: cs' => childElems test (S k) cs'
  end.

(** [child.tagName === current.tagName]. *)
Definition sameTagName (current : Name) (child : Name) : bool :=
  bool_decide (tagName child = tagName current).

(** Indexes of the children that are text nodes. *)
Fixpoint childTexts (k : nat) (cs : list Node) : list nat :=
  match cs with
  | [] => []
  | Text _ :: cs' => k :: childTexts (S k) cs'
  | Elem _ _ _ :: cs' => childTexts (S k) cs'
  end.

(** [siblings.indexOf(current)]; the element is always among its siblings. *)
Fixpoint indexIn (k : nat) (l : list nat) : nat :=
  match l with
  | [] => 0
  | j :: l' => if bool_decide (j = k) then 0 else S (indexIn k l')
  end.

(** [getElementXPath]: the steps from [document.body] down to the element
    at [p]; a step is named by the element's [tagName] in lower case and
    gets an index only when the element has siblings of the same
    [tagName]. *)
Fixpoint getElementXPath (n : Node) (p : path) : option (list Step) :=
  match p with
  | [] => Some []
  | k :: p' =>
      match n with
      | Elem _ _ cs =>
          match cs !! k with
          | Some (Elem current h cs') =>
              let siblings := childElems (sameTagName current) 0 cs in
              let idx := if bool_decide (1 < length siblings)
                         then Some (indexIn k siblings + 1) else None in
              match getElementXPath (Elem current h cs') p' with
              | Some steps =>
                  Some ({| st_tag := toLowerCase (tagName current); st_index := idx |}
                          :: steps)
              | None => None
              end
          | _ => None
          end
      | Text _ => None
      end
  end.

(** Path of the parent and index in the parent. *)
Fixpoint splitLast (p : path) : option (path * nat) :=
  match p with
  | [] => None
  | [k] => Some ([], k)
  | j :: p' => match splitLast p' with
               | Some (pp, k) => Some (j :: pp, k)
               | None => None
               end
  end.

Definition parentNode (p : path) : option path := fst <$> splitLast p.

(** [getTextNodeXPath]. *)
Definition getTextNodeXPath (doc : Node) (p : path) : option XPath :=
  match getNode doc p, splitLast p with
  | Some (Text _), Some (pp, k) =>
      match getNode doc pp, getElementXPath doc pp with
      | Some (Elem _ _ cs), Some steps =>
          Some {| xp_steps := steps;
                  xp_text := Some (indexIn k (childTexts 0 cs) + 1) |}
      | _, _ => None
      end
  | _, _ => None
  end.

(** One location step of [document.evaluate] applied to a node set held in
    document order: [tag] selects every child element of that tag, [tag[i]]
    the [i]-th of them (counted from 1) under each context node. *)
Definition pick (i : option nat) (m : list nat) : list nat :=
  match i with
  | None => m
  | Some 0 => []
  | Some (S i') => match m !! i' with Some k => [k] | None => [] end
  end.

Definition evalStep (doc : Node) (sel : list Node -> list nat) (i : option nat)
    (ctx : list path) : list path :=
  ctx ≫= fun p =>
    match getNode doc p with
    | Some (Elem _ _ cs) => (fun k => p ++ [k]) <$> pick i (sel cs)
    | _ => []
    end.

(** A name of the XPath grammar without a prefix (an [NCName]), within one
    byte. *)
Definition isNameStartChar (c : ascii) : bool :=
  let n := nat_of_ascii c in
  bool_decide (65 ≤ n ≤ 90) || bool_decide (n = 95) || bool_decide (97 ≤ n ≤ 122)
  || bool_decide (192 ≤ n ≤ 214) || bool_decide (216 ≤ n ≤ 246)
  || bool_decide (248 ≤ n ≤ 255).

Definition isNameChar (c : ascii) : bool :=
  let n := nat_of_ascii c in
  isNameStartChar c || bool_decide (n = 45) || bool_decide (n = 46)
  || bool_decide (48 ≤ n ≤ 57) || bool_decide (n = 183).

Definition isNCName (s : string) : bool :=
  match s with
  | EmptyString => false
  | String c _ => isNameStartChar c && allChars isNameChar s
  end.

(** The name test of a step without a prefix, in an HTML document: it
    passes the HTML elements whose local name is the step's name, compared
    without regard to ASCII case, and no foreign element. *)
Definition nameTest (stepName : string) (name : Name) : bool :=
  match name with
  | Html localName => bool_decide (mapString toLower localName = mapString toLower stepName)
  | Foreign _ => false
  end.

(** [document.evaluate] on the path; [None] when it raises. A step whose
    name is not an [NCName] does not read as a step of this path: with a
    colon it reads as a name with a prefix, which no resolver is there to
    resolve, and the evaluation raises; names with other signs, which the
    path grammar reads as operators, are taken to raise as well. *)
Definition evalXPath (doc : Node) (x : XPath) : option (list path) :=
  if forallb (fun s => isNCName (st_tag s)) (xp_steps x) then
    let elems :=
      foldl (fun ctx s => evalStep doc (childElems (nameTest (st_tag s)) 0) (st_index s) ctx)
            [[]] (xp_steps x) in
    Some (match xp_text x with
          | None => elems
          | Some k => evalStep doc (childTexts 0) (Some k) elems
          end)
  else None.

(** [getElementByXPath]: first node of the result in document order
    ([FIRST_ORDERED_NODE_TYPE]); [null] for a missing path, a path whose
    evaluation raises, or an empty result. *)
Definition getElementByXPath (doc : Node) (xpath : option XPath) : option path :=
  match xpath with
  | None => None
  | Some x =>
      match evalXPath doc x with
      | Some nodes => head nodes
      | None => None
      end
  end.

Definition getTextNodeByXPath := getElementByXPath.

(** ** Restoration: the three strategies *)

(** A located range [{ node, start, end }]. *)
Record Found := { f_node : path; f_start : nat; f_end : nat }.

(** The loop of [findQuoteInElement] over the walker's text nodes. *)
Fixpoint scanFirst (nodes : list (path * jsstr)) (quote : jsstr) : option Found :=
  match nodes with
  | [] => None
  | (node, text) :: rest =>
      match indexOf text quote 0 with
      | Some index =>
          Some {| f_node := node; f_start := index; f_end := index + length quote |}
      | None => scanFirst rest quote
      end
  end.

(** [findQuoteInElement(element, quote)]. *)
Definition findQuoteInElement (doc : Node) (element : path) (quote : jsstr)
    : option Found :=
  if truthy quote then scanFirst (treeWalker doc element) quote else None.

(** The context score of the occurrence of [quote] at [index] of [text]. *)
Definition prefixScore (prefix text : jsstr) (index : nat) : nat :=
  if truthy prefix && bool_decide (length prefix ≤ index) then
    let actualPrefix := substring text (index - length prefix) index in
    if bool_decide (actualPrefix = prefix) then 2
    else if includes actualPrefix (sliceLast 10 prefix) then 1
    else 0
  else 0.

Definition suffixScore (quote suffix text : jsstr) (index : nat) : nat :=
  if truthy suffix
     && bool_decide (index + length quote + length suffix ≤ length text) then
    let actualSuffix :=
      substring text (index + length quote) (index + length quote + length suffix) in
    if bool_decide (actualSuffix = suffix) then 2
    else if includes actualSuffix (sliceFirst 10 suffix) then 1
    else 0
  else 0.

Definition contextScore (quote prefix suffix text : jsstr) (index : nat) : nat :=
  1 + prefixScore prefix text index + suffixScore quote suffix text index.

(** The state of the scan: [bestMatch] and [bestScore]. *)
Abbreviation Best := (option Found * nat)%type (only parsing).

Definition consider (quote prefix suffix : jsstr) (node : path) (text : jsstr)
    (index : nat) (st : Best) : Best :=
  let score := contextScore quote prefix suffix text index in
  if bool_decide (st.2 < score) then
    (Some {| f_node := node; f_start := index; f_end := index + length quote |}, score)
  else st.

(** The inner [while] loop over the occurrences in one text node; every
    turn moves [searchStart] forward, so [length text + 1] turns suffice. *)
Fixpoint occurrenceLoop (fuel : nat) (quote prefix suffix : jsstr) (node : path)
    (text : jsstr) (searchStart : nat) (st : Best) : Best :=
  match fuel with
  | 0 => st
  | S fuel' =>
      match indexOf text quote searchStart with
      | None => st
      | Some index =>
          occurrenceLoop fuel' quote prefix suffix node text (index + 1)
            (consider quote prefix suffix node text index st)
      end
  end.

(** The outer loop over the walker's text nodes. *)
Fixpoint contextLoop (quote prefix suffix : jsstr) (nodes : list (path * jsstr))
    (st : Best) : Best :=
  match nodes with
  | [] => st
  | (node, text) :: rest =>
      contextLoop quote prefix suffix rest
        (occurrenceLoop (S (length text)) quote prefix suffix node text 0 st)
  end.

(** [findQuoteWithContext(quote, prefix, suffix)] on the given document. *)
Definition findQuoteWithContext (doc : Node) (quote prefix suffix : jsstr)
    : option Found :=
  if truthy quote then
    (contextLoop quote prefix suffix (treeWalker doc []) (None, 0)).1
  else None.

(** ** Wrapping a range of a text node *)

(** [createHighlightSpan(id, color)]; only the marker attribute matters to
    the tree. *)
Definition createHighlightSpan (id : string) (content : list Node) : Node :=
  Elem "span" (Some id) content.

(** [setStart], [setEnd] and [surroundContents] on one text node with data
    [d]. An offset beyond the data raises (result [None]); an end before the
    start collapses the range at the end. The text node is split around the
    span, which receives the extracted text. *)
Definition surroundText (d : jsstr) (s e : nat) (id : string) : option (list Node) :=
  if bool_decide (length d < s) || bool_decide (length d < e) then None
  else if bool_decide (e ≤ s) then
    Some [Text (take e d); createHighlightSpan id []; Text (drop e d)]
  else
    Some [Text (take s d);
          createHighlightSpan id [Text (take (e - s) (drop s d))];
          Text (drop e d)].

(** Change the node at [p] by [f]; [None] when [p] names no node or [f]
    fails. *)
Fixpoint alterAt (f : Node -> option Node) (n : Node) (p : path) : option Node :=
  match p with
  | [] => f n
  | k :: p' =>
      match n with
      | Elem t h cs =>
          match cs !! k with
          | Some c =>
              match alterAt f c p' with
              | Some c' => Some (Elem t h (<[k := c']> cs))
              | None => None
              end
          | None => None
          end
      | Text _ => None
      end
  end.

(** Replace the child of index [k] by the nodes [g] makes of it. *)
Definition spliceChild (g : Node -> option (list Node)) (k : nat) (parent : Node)
    : option Node :=
  match parent with
  | Elem t h cs =>
      match cs !! k with
      | Some c =>
          match g c with
          | Some new => Some (Elem t h (take k cs ++ new ++ drop (S k) cs))
          | None => None
          end
      | None => None
      end
  | Text _ => None
  end.

(** The range is made on a text node. *)
Definition wrapTextNode (s e : nat) (id : string) (c : Node) : option (list Node) :=
  match c with
  | Text d => surroundText d s e id
  | Elem _ _ _ => None
  end.

(** [setStart], [setEnd] and [surroundContents] on one element with the
    children [cs]: the offsets count children. An offset beyond the children
    raises (result [None]); an end before the start collapses the range at
    the end. The children of the range move into the span, which takes
    their place. *)
Definition surroundChildren (cs : list Node) (s e : nat) (id : string)
    : option (list Node) :=
  if bool_decide (length cs < s) || bool_decide (length cs < e) then None
  else if bool_decide (e ≤ s) then
    Some (take e cs ++ [createHighlightSpan id []] ++ drop e cs)
  else
    Some (take s cs ++ [createHighlightSpan id (take (e - s) (drop s cs))] ++ drop e cs).

(** The range is made on an element. *)
Definition wrapChildren (s e : nat) (id : string) (c : Node) : option Node :=
  match c with
  | Elem t h cs => Elem t h <$> surroundChildren cs s e id
  | Text _ => None
  end.

(** The conversion of an offset to the [unsigned long] that [setStart] and
    [setEnd] take: modulo 2^32. *)
Definition toUnsignedLong (n : nat) : nat :=
  N.to_nat (N.of_nat n mod 4294967296)%N.

(** [applyHighlightToTextNode(textNode, startOffset, endOffset, item)]:
    the result flag and the document afterwards (unchanged on failure).
    The function does not test the type of its target: on an element the
    range is made of children. A text node without a parent cannot be
    surrounded. *)
Definition applyHighlightToTextNode (doc : Node) (textNode : path) (s e : nat)
    (item : Item) : bool * Node :=
  let startOffset := toUnsignedLong s in
  let endOffset := toUnsignedLong e in
  let wrapped :=
    match getNode doc textNode with
    | Some (Text _) =>
        match splitLast textNode with
        | Some (pp, k) =>
            alterAt (spliceChild (wrapTextNode startOffset endOffset (hl_id item)) k)
              doc pp
        | None => None
        end
    | Some (Elem _ _ _) =>
        alterAt (wrapChildren startOffset endOffset (hl_id item)) doc textNode
    | None => None
    end in
  match wrapped with
  | Some doc' => (true, doc')
  | None => (false, doc)
  end.

(** ** [tryRestoreHighlight] *)

Inductive Tier := XPathOffset | XPathParent | DocumentContext.

(** Strategy 1: the stored path names a text node whose text at the stored
    offsets is the quote. *)
Definition exactMatch (item : Item) (doc : Node) (textNode : option path)
    : option Found :=
  match textNode with
  | Some p =>
      match getNode doc p with
      | Some (Text text) =>
          let expectedText := substring text (hl_startOffset item) (hl_endOffset item) in
          if bool_decide (expectedText = hl_quote item) then
            Some {| f_node := p; f_start := hl_startOffset item;
                    f_end := hl_endOffset item |}
          else None
      | _ => None
      end
  | None => None
  end.

(** The element searched by strategy 2: the parent of a text node, the node
    itself otherwise. *)
Definition searchRoot (doc : Node) (p : path) : option path :=
  match getNode doc p with
  | Some (Text _) => parentNode p
  | Some (Elem _ _ _) => Some p
  | None => None
  end.

Section Strategies.
(** The two searches are parameters here, so that a result can be seen not
    to depend on them. *)
Variable searchElement : Node -> path -> jsstr -> option Found.
Variable searchDocument : Node -> jsstr -> jsstr -> jsstr -> option Found.

Definition searchParent (item : Item) (doc : Node) (textNode : option path)
    : option Found :=
  match textNode with
  | Some p =>
      match searchRoot doc p with
      | Some parent => searchElement doc parent (hl_quote item)
      | None => None
      end
  | None => None
  end.

Definition resolveWith (item : Item) (doc : Node) : option (Tier * Found) :=
  let textNode := getTextNodeByXPath doc (hl_xpath item) in
  match exactMatch item doc textNode with
  | Some found => Some (XPathOffset, found)
  | None =>
      match searchParent item doc textNode with
      | Some found => Some (XPathParent, found)
      | None =>
          match searchDocument doc (hl_quote item) (hl_prefix item) (hl_suffix item) with
          | Some found => Some (DocumentContext, found)
          | None => None
          end
      end
  end.
End Strategies.

(** The range [tryRestoreHighlight] hands to [applyHighlightToTextNode], and
    the strategy that produced it. *)
Definition resolve : Item -> Node -> option (Tier * Found) :=
  resolveWith findQuoteInElement findQuoteWithContext.

Definition tryRestoreHighlight (item : Item) (doc : Node) : bool * Node :=
  match resolve item doc with
  | Some (_, found) =>
      applyHighlightToTextNode doc (f_node found) (f_start found) (f_end found) item
  | None => (false, doc)
  end.

(** ** Markers in the document *)

Definition ownMarker (n : Node) : list (path * string) :=
  match n with
  | Elem _ (Some h) _ => [([], h)]
  | _ => []
  end.

(** The elements below a node that carry [data-hl-id], in document order,
    with the attribute's value. *)
Fixpoint markers (n : Node) : list (path * string) :=
  match n with
  | Text _ => []
  | Elem _ _ cs => walkChildren (fun c => ownMarker c ++ markers c) 0 cs
  end.

Definition markerIds (n : Node) : list string := snd <$> markers n.

(** The first element, in document order, whose marker is [value]. *)
Fixpoint firstMarker (id : string) (ms : list (path * string)) : option path :=
  match ms with
  | [] => None
  | (p, h) :: ms' => if bool_decide (h = id) then Some p else firstMarker id ms'
  end.

(** ** [document.querySelector] and the marker selector *)

(** What a call of [document.querySelector] gives: an element, [null], or a
    [SyntaxError]. *)
Inductive QueryResult := QElement (element : path) | QNull | QSyntaxError.

Definition doubleQuote : string := String "034"%char EmptyString.

(** The selector the script makes of an id: the id is pasted between the
    double quotes as it is. *)
Definition markerSelector (id : string) : string :=
  ("[data-hl-id=" ++ doubleQuote ++ id ++ doubleQuote ++ "]")%string.

(** What a function returns, or that it raised. *)
Inductive Outcome (A : Type) := Returns (a : A) | Throws.
Arguments Returns {A} a.
Arguments Throws {A}.

(** ** [removeHighlightSpan] and [restoreHighlights] *)

(** [Node.normalize()] on a child list: empty text nodes go, runs of text
    nodes become one. *)
Fixpoint mergeTexts (cs : list Node) : list Node :=
  match cs with
  | [] => []
  | Text d :: rest =>
      match mergeTexts rest with
      | Text d' :: rest' => Text (d ++ d') :: rest'
      | rest' => if bool_decide (d = []) then rest' else Text d :: rest'
      end
  | Elem t h k :: rest => Elem t h k :: mergeTexts rest
  end.

Fixpoint normalize (n : Node) : Node :=
  match n with
  | Text d => Text d
  | Elem t h cs => Elem t h (mergeTexts (normalize <$> cs))
  end.

(** The span's children take the span's place, then the parent is
    normalised. *)
Definition unwrapChild (k : nat) (parent : Node) : option Node :=
  normalize <$>
    spliceChild (fun span => match span with
                             | Elem _ _ kids => Some kids
                             | Text _ => None
                             end) k parent.

(** [highlightCache], a plain object: the entries it holds itself, and its
    prototype, which an assignment to the key [__proto__] replaces instead
    of making an entry; [None] stands for [Object.prototype]. *)
Record Cache := { ownEntries : gmap string Item; prototype : option Item }.

Definition emptyCache : Cache := {| ownEntries := ∅; prototype := None |}.

(** [highlightCache[id] = item]. *)
Definition cacheSet (cache : Cache) (id : string) (item : Item) : Cache :=
  if bool_decide (id = "__proto__") then
    {| ownEntries := ownEntries cache; prototype := Some item |}
  else
    {| ownEntries := <[id := item]> (ownEntries cache); prototype := prototype cache |}.

(** The session state: [highlightCache] and the document. *)
Record Session := { highlightCache : Cache; document : Node }.

Section Page.
(** The platform's [document.querySelector], given the selector and the
    document. *)
Variable querySelector : string -> Node -> QueryResult.

(** One turn of the [forEach] of [restoreHighlights]: the session
    afterwards, and whether the turn ended without raising. An exception
    of [querySelector] is not caught; the cache has the item by then. *)
Definition restoreOne (st : Session) (item : Item) : Session * bool :=
  let cache := cacheSet (highlightCache st) (hl_id item) item in
  match querySelector (markerSelector (hl_id item)) (document st) with
  | QSyntaxError => ({| highlightCache := cache; document := document st |}, false)
  | QElement _ => ({| highlightCache := cache; document := document st |}, true)
  | QNull =>
      ({| highlightCache := cache;
          document := (tryRestoreHighlight item (document st)).2 |}, true)
  end.

(** [items.forEach(...)]: the session afterwards, and whether the loop came
    to its end; an exception leaves the loop at once. *)
Fixpoint forEachItem (items : list Item) (st : Session) : Session * bool :=
  match items with
  | [] => (st, true)
  | item :: rest =>
      let '(st', completed) := restoreOne st item in
      if completed then forEachItem rest st' else (st', false)
  end.

(** [restoreHighlights(items)]: the session it leaves, whether it returns
    or raises. *)
Definition restoreHighlights (items : list Item) (st : Session) : Session :=
  (forEachItem items st).1.

(** [removeHighlightSpan(id)]: the result flag and the document afterwards
    (unchanged when the flag is [false]), or an exception of
    [querySelector]. *)
Definition removeHighlightSpan (id : string) (doc : Node) : Outcome (bool * Node) :=
  match querySelector (markerSelector id) doc with
  | QSyntaxError => Throws
  | QNull => Returns (false, doc)
  | QElement span =>
      match splitLast span with
      | Some (pp, k) =>
          match alterAt (unwrapChild k) doc pp with
          | Some doc' => Returns (true, doc')
          | None => Returns (false, doc)
          end
      | None => Returns (false, doc)
      end
  end.
End Page.

(** *** The CSS reading of the marker selector

    [document.querySelector] is the browser's. The part of CSS modelled
    here is the selector [[data-hl-id="..."]] whose double-quoted string
    is read as CSS Syntax prescribes: a backslash starts an escape (one to
    six hexadecimal digits and one optional white space give the code
    point of that number, a line break gives nothing, any other code unit
    gives itself), an unescaped line break makes the string, and so the
    selector, invalid, and an unescaped double quote ends the string. After
    that quote the closing bracket alone ends the selector; white space, a
    modifier ([i] or [s]), an escape or a comment may lead on to a valid
    selector, which is outside the modelled part; any other code unit
    starts a token that has no place there, and the selector is invalid. A
    string that runs to the end of the selector, and code points the
    model's strings do not have (above 255, or the replacement of a zero)
    are outside the modelled part too. *)

Inductive SelectorMeaning :=
| AttrEquals (value : string)
| InvalidSelector
| OtherSelector.

Inductive CssState :=
| CssText
| CssEscape
| CssHex (digits : nat) (value : N)
| CssAfterCR.

Definition hexValue (c : ascii) : option N :=
  let n := N_of_ascii c in
  if bool_decide (48 ≤ n ≤ 57)%N then Some (n - 48)%N
  else if bool_decide (65 ≤ n ≤ 70)%N then Some (n - 55)%N
  else if bool_decide (97 ≤ n ≤ 102)%N then Some (n - 87)%N
  else None.

Definition prependTo (c : ascii) (m : SelectorMeaning) : SelectorMeaning :=
  match m with
  | AttrEquals v => AttrEquals (String c v)
  | other => other
  end.

(** The code point of a finished hexadecimal escape. *)
Definition escaped (value : N) (m : SelectorMeaning) : SelectorMeaning :=
  if bool_decide (0 < value < 256)%N then prependTo (ascii_of_N value) m
  else OtherSelector.

(** What follows the closing quote of the string. *)
Definition afterString (rest : string) : SelectorMeaning :=
  if bool_decide (rest = "]") then AttrEquals ""
  else match rest with
       | String c _ =>
           if bool_decide (nat_of_ascii c
                           ∈ [9; 10; 12; 13; 32; 47; 73; 83; 92; 93; 105; 115])
           then OtherSelector
           else InvalidSelector
       | EmptyString => OtherSelector
       end.

(** The string from after its opening quote to the end of the selector. *)
Fixpoint cssString (st : CssState) (s : string) : SelectorMeaning :=
  match s with
  | EmptyString => OtherSelector
  | String c rest =>
      let n := nat_of_ascii c in
      let text :=
        if bool_decide (n = 34) then afterString rest
        else if bool_decide (n ∈ [10; 12; 13]) then InvalidSelector
        else if bool_decide (n = 0) then OtherSelector
        else if bool_decide (n = 92) then cssString CssEscape rest
        else prependTo c (cssString CssText rest) in
      match st with
      | CssText => text
      | CssEscape =>
          match hexValue c with
          | Some d => cssString (CssHex 1 d) rest
          | None =>
              if bool_decide (n ∈ [10; 12]) then cssString CssText rest
              else if bool_decide (n = 13) then cssString CssAfterCR rest
              else if bool_decide (n = 0) then OtherSelector
              else prependTo c (cssString CssText rest)
          end
      | CssHex digits value =>
          match hexValue c with
          | Some d =>
              if bool_decide (digits < 6)
              then cssString (CssHex (S digits) (16 * value + d)%N) rest
              else escaped value text
          | None =>
              if bool_decide (n ∈ [9; 10; 12; 32]) then escaped value (cssString CssText rest)
              else if bool_decide (n = 13) then escaped value (cssString CssAfterCR rest)
              else escaped value text
          end
      | CssAfterCR =>
          if bool_decide (n = 10) then cssString CssText rest else text
      end
  end.

Fixpoint stripPrefix (p s : string) : option string :=
  match p with
  | EmptyString => Some s
  | String c p' =>
      match s with
      | String c' s' => if bool_decide (c = c') then stripPrefix p' s' else None
      | EmptyString => None
      end
  end.

Definition selectorMeaning (selector : string) : SelectorMeaning :=
  match stripPrefix ("[data-hl-id=" ++ doubleQuote)%string selector with
  | Some body => cssString CssText body
  | None => OtherSelector
  end.

(** The first element of the document, in document order, whose
    [data-hl-id] is [value]. *)
Definition elementWithId (value : string) (doc : Node) : QueryResult :=
  match firstMarker value (markers doc) with
  | Some element => QElement element
  | None => QNull
  end.

(** A [querySelector] that reads the marker selectors as CSS does. *)
Definition CssSelectors (querySelector : string → Node → QueryResult) : Prop :=
  ∀ selector doc,
    match selectorMeaning selector with
    | AttrEquals value => querySelector selector doc = elementWithId value doc
    | InvalidSelector => querySelector selector doc = QSyntaxError
    | OtherSelector => True
    end.

(** The modelled part as a function, [null] elsewhere. *)
Definition cssQuerySelector (selector : string) (doc : Node) : QueryResult :=
  match selectorMeaning selector with
  | AttrEquals value => elementWithId value doc
  | InvalidSelector => QSyntaxError
  | OtherSelector => QNull
  end.

(** An id that reads as itself between the quotes of the selector: no
    double quote, backslash, line feed, form feed, carriage return or
    zero. *)
Definition plainChar (c : ascii) : bool :=
  negb (bool_decide (nat_of_ascii c ∈ [0; 10; 12; 13; 34; 92])).

Fixpoint plainId (id : string) : bool :=
  match id with
  | EmptyString => true
  | String c rest => plainChar c && plainId rest
  end.

Fixpoint textContent (n : Node) : jsstr :=
  match n with
  | Text d => d
  | Elem _ _ cs => concat (textContent <$> cs)
  end.

(** ** Selection encoding: [getSelectionInfo] and [applyHighlight] *)

Record Range := {
  startContainer : path;
  startOffset : nat;
  endContainer : path;
  endOffset : nat
}.

(** [window.getSelection()]: its first range, if any, and the string
    [toString()] gives for it. *)
Record Selection := { rangeAt0 : option Range; selectionString : jsstr }.

(** White space as [String.prototype.trim] sees it, within one byte. *)
Definition isWhiteSpace (c : ascii) : bool :=
  bool_decide (nat_of_ascii c ∈ [9; 10; 11; 12; 13; 32; 160]).

Fixpoint trimStart (s : jsstr) : jsstr :=
  match s with
  | [] => []
  | c :: s' => if isWhiteSpace c then trimStart s' else c :: s'
  end.

Definition trim (s : jsstr) : jsstr := reverse (trimStart (reverse (trimStart s))).

Inductive SelectionError := MultiNode | NotTextNode | XPathFailed.

Record SelectionInfo := {
  si_text : jsstr;
  si_quote : jsstr;
  si_xpath : XPath;
  si_startOffset : nat;
  si_endOffset : nat;
  si_prefix : jsstr;
  si_suffix : jsstr;
  si_range : Range
}.

Inductive SelectionResult :=
| NoSelection
| Rejected (error : SelectionError) (text : jsstr)
| Selected (info : SelectionInfo).

Definition isTextNode (doc : Node) (p : path) : bool :=
  match getNode doc p with Some (Text _) => true | _ => false end.

Definition nodeText (doc : Node) (p : path) : jsstr :=
  match getNode doc p with Some n => textContent n | None => [] end.

Definition getSelectionInfo (doc : Node) (selection : Selection) : SelectionResult :=
  match rangeAt0 selection with
  | None => NoSelection
  | Some range =>
      let text := trim (selectionString selection) in
      if negb (truthy text) then NoSelection
      else if bool_decide (startContainer range ≠ endContainer range)
              && (negb (isTextNode doc (startContainer range))
                  || negb (isTextNode doc (endContainer range))
                  || bool_decide (parentNode (startContainer range)
                                  ≠ parentNode (endContainer range)))
      then Rejected MultiNode text
      else
        let textNode := startContainer range in
        if negb (isTextNode doc textNode) then Rejected NotTextNode text
        else
          match getTextNodeXPath doc textNode with
          | None => Rejected XPathFailed text
          | Some xpath =>
              let fullText := nodeText doc textNode in
              let startOffset := startOffset range in
              let endOffset := endOffset range in
              Selected {|
                si_text := text;
                si_quote := text;
                si_xpath := xpath;
                si_startOffset := startOffset;
                si_endOffset := endOffset;
                si_prefix := substring fullText (startOffset - CONTEXT_SIZE) startOffset;
                si_suffix := substring fullText endOffset
                               ((endOffset + CONTEXT_SIZE) `min` length fullText);
                si_range := range
              |}
          end
  end.

(** [range.surroundContents(span)] for the ranges that pass
    [getSelectionInfo]: inside one text node, or from one text node to a
    later text node of the same parent (the nodes in between go into the
    span whole). *)
Definition surroundSiblings (s e : nat) (k1 k2 : nat) (id : string) (parent : Node)
    : option Node :=
  match parent with
  | Elem t h cs =>
      match cs !! k1, cs !! k2 with
      | Some (Text d1), Some (Text d2) =>
          if bool_decide (k1 < k2) && bool_decide (s ≤ length d1)
             && bool_decide (e ≤ length d2) then
            Some (Elem t h
              (take k1 cs
               ++ [Text (take s d1);
                   createHighlightSpan id
                     ([Text (drop s d1)] ++ take (k2 - S k1) (drop (S k1) cs)
                      ++ [Text (take e d2)]);
                   Text (drop e d2)]
               ++ drop (S k2) cs))
          else None
      | _, _ => None
      end
  | Text _ => None
  end.

Definition surroundContents (doc : Node) (range : Range) (id : string) : option Node :=
  match splitLast (startContainer range), splitLast (endContainer range) with
  | Some (pp, k1), Some (pp', k2) =>
      if bool_decide (startContainer range = endContainer range) then
        alterAt (spliceChild (wrapTextNode (startOffset range) (endOffset range) id) k1)
          doc pp
      else if bool_decide (pp = pp') then
        alterAt (surroundSiblings (startOffset range) (endOffset range) k1 k2 id) doc pp
      else None
  | _, _ => None
  end.

(** [applyHighlight(selectionInfo, color)]; the fresh id and the creation
    time come from [generateId()] and the clock. *)
Definition applyHighlight (doc : Node) (selectionInfo : SelectionInfo)
    (color id createdAt : string) : option (Item * Node) :=
  match surroundContents doc (si_range selectionInfo) id with
  | None => None
  | Some doc' =>
      Some ({| hl_id := id;
               hl_quote := if truthy (si_quote selectionInfo)
                           then si_quote selectionInfo else si_text selectionInfo;
               hl_prefix := si_prefix selectionInfo;
               hl_suffix := si_suffix selectionInfo;
               hl_color := color;
               hl_xpath := Some (si_xpath selectionInfo);
               hl_startOffset := si_startOffset selectionInfo;
               hl_endOffset := si_endOffset selectionInfo;
               hl_note := "";
               hl_tags := [];
               hl_createdAt := createdAt |}, doc')
  end.

(** The [DO_HIGHLIGHT] message: the anchor sent to storage, if any. *)
Definition doHighlight (doc : Node) (selection : Selection)
    (color id createdAt : string) : option (Item * Node) :=
  match getSelectionInfo doc selection with
  | Selected info => applyHighlight doc info color id createdAt
  | _ => None
  end.

(** ** Background script: page records in storage *)

Record PageData := { title : string; items : list Item }.

(** The result of [new URL(url)], as far as [normalizeUrl] reads it. *)
Record URL := { origin : string; pathname : string }.

Section Background.
(** The platform's URL parser; [None] when the constructor throws. *)
Variable newURL : string -> option URL.

Definition normalizeUrl (url : string) : string :=
  match newURL url with
  | Some urlObj => (origin urlObj ++ pathname urlObj)%string
  | None => url
  end.

(** The [highlights] object of [chrome.storage.local]. *)
Abbreviation Store := (gmap string PageData) (only parsing).

Definition getHighlightsForUrl (highlights : Store) (url : string) : PageData :=
  default {| title := ""; items := [] |} (highlights !! normalizeUrl url).

Definition saveHighlightsForUrl (highlights : Store) (url pageTitle : string)
    (pageItems : list Item) : Store :=
  let normalizedUrl := normalizeUrl url in
  if bool_decide (length pageItems = 0) then delete normalizedUrl highlights
  else <[normalizedUrl := {| title := pageTitle; items := pageItems |}]> highlights.

Definition addHighlight (highlights : Store) (url pageTitle : string)
    (highlightData : Item) : Store :=
  let pageData := getHighlightsForUrl highlights url in
  saveHighlightsForUrl highlights url
    (if bool_decide (pageTitle ≠ "") then pageTitle else title pageData)
    (items pageData ++ [highlightData]).

Definition removeHighlight (highlights : Store) (url highlightId : string) : Store :=
  let pageData := getHighlightsForUrl highlights url in
  saveHighlightsForUrl highlights url (title pageData)
    (filter (fun item => hl_id item ≠ highlightId) (items pageData)).
End Background.

(** The fields the callers of [updateHighlight] send. *)
Record Updates := {
  u_color : option string;
  u_note : option string;
  u_tags : option (list string)
}.

(** [{ ...item, ...updates }]. *)
Definition mergeUpdates (item : Item) (updates : Updates) : Item :=
  {| hl_id := hl_id item;
     hl_quote := hl_quote item;
     hl_prefix := hl_prefix item;
     hl_suffix := hl_suffix item;
     hl_color := default (hl_color item) (u_color updates);
     hl_xpath := hl_xpath item;
     hl_startOffset := hl_startOffset item;
     hl_endOffset := hl_endOffset item;
     hl_note := default (hl_note item) (u_note updates);
     hl_tags := default (hl_tags item) (u_tags updates);
     hl_createdAt := hl_createdAt item |}.

(** [findIndex] then assignment at that index. *)
Fixpoint updateFirst (highlightId : string) (updates : Updates) (l : list Item)
    : option (list Item) :=
  match l with
  | [] => None
  | item :: l' =>
      if bool_decide (hl_id item = highlightId) then Some (mergeUpdates item updates :: l')
      else cons item <$> updateFirst highlightId updates l'
  end.

Definition updateHighlight (newURL : string -> option URL)
    (highlights : gmap string PageData) (url highlightId : string)
    (updates : Updates) : gmap string PageData :=
  let pageData := getHighlightsForUrl newURL highlights url in
  match updateFirst highlightId updates (items pageData) with
  | Some items' => saveHighlightsForUrl newURL highlights url (title pageData) items'
  | None => highlights
  end.

(** The names every plain object inherits from [Object.prototype]: indexing
    a plain object with one of them gives a value (a function, or the
    prototype itself for [__proto__]) also when the object has no entry of
    that name. *)
Definition objectPrototypeNames : list string :=
  ["constructor"; "__defineGetter__"; "__defineSetter__"; "hasOwnProperty";
   "__lookupGetter__"; "__lookupSetter__"; "isPrototypeOf"; "propertyIsEnumerable";
   "toString"; "valueOf"; "__proto__"; "toLocaleString"].

(** One turn of the [IMPORT_HIGHLIGHTS] loop; [None] when it raises. The
    test [!existingHighlights[url]] indexes a plain object: for a key the
    store does not hold but [Object.prototype] has, the value is truthy, the
    merge branch is taken, and [.items.map] raises a [TypeError]. *)
Definition importPage (existingHighlights : gmap string PageData)
    (entry : string * PageData) : option (gmap string PageData) :=
  let '(url, pageData) := entry in
  match existingHighlights !! url with
  | None =>
      if bool_decide (url ∈ objectPrototypeNames) then None
      else Some (<[url := pageData]> existingHighlights)
  | Some existing =>
      let existingIds := hl_id <$> items existing in
      let newItems := filter (fun i => hl_id i ∉ existingIds) (items pageData) in
      Some (<[url := {| title := if bool_decide (title existing = "")
                                    && bool_decide (title pageData ≠ "")
                                 then title pageData else title existing;
                        items := items existing ++ newItems |}]> existingHighlights)
  end.

(** The loop over [Object.entries(importedHighlights)]; [None] when a turn
    raises. *)
Definition importEntries (existingHighlights importedHighlights : gmap string PageData)
    : option (gmap string PageData) :=
  foldl (fun acc entry => acc ≫= fun highlights => importPage highlights entry)
        (Some existingHighlights) (map_to_list importedHighlights).

(** [IMPORT_HIGHLIGHTS]: the stored [highlights] afterwards. Storage is
    written after the loop, so nothing is written when the loop raises. *)
Definition importHighlights (existingHighlights importedHighlights : gmap string PageData)
    : gmap string PageData :=
  default existingHighlights (importEntries existingHighlights importedHighlights).

(** ** The tag field of the note editors

    The note modal of the content script and the note editor of the popup
    parse their tag field with the same expression. *)

(** [s.split(/\s+/)]: the pieces between the maximal runs of white space;
    a run at either end of [s] leaves an empty piece there, and an empty
    [s] gives one empty piece. *)
Fixpoint splitWhiteSpace (s : jsstr) : list jsstr :=
  match s with
  | [] => [[]]
  | c :: rest =>
      if isWhiteSpace c then
        match rest with
        | c' :: _ =>
            if isWhiteSpace c' then splitWhiteSpace rest else [] :: splitWhiteSpace rest
        | [] => [] :: splitWhiteSpace rest
        end
      else
        match splitWhiteSpace rest with
        | piece :: pieces => (c :: piece) :: pieces
        | [] => [[c]]
        end
  end.

(** [t.startsWith('#') ? t : (t ? '#' + t : '')]. *)
Definition addHash (t : jsstr) : jsstr :=
  match t with
  | c :: _ => if bool_decide (c = "#"%char) then t else "#"%char :: t
  | [] => []
  end.

(** [Set.prototype.add], on the set's insertion order. *)
Definition setAdd (set : list jsstr) (t : jsstr) : list jsstr :=
  if bool_decide (t ∈ set) then set else set ++ [t].

(** [[...new Set(value.trim().split(/\s+/).map(...).filter(t => t.length > 1))]]. *)
Definition parseTags (value : jsstr) : list jsstr :=
  let tagsInput := trim value in
  foldl setAdd []
    (filter (fun t => 1 < length t) (addHash <$> splitWhiteSpace tagsInput)).

(** [Array.prototype.join]. *)
Fixpoint join (sep : jsstr) (l : list jsstr) : jsstr :=
  match l with
  | [] => []
  | x :: l' =>
      match l' with
      | [] => x
      | _ :: _ => x ++ sep ++ join sep l'
      end
  end.

(** * Notions used in the statements *)

(** ** Occurrences of a quote in a text *)

(** [q] occurs in [t] at index [i]. *)
Definition occursAt (q t : jsstr) (i : nat) : Prop :=
  i ≤ length t ∧ take (length q) (drop i t) = q.

Global Instance occursAt_dec q t i : Decision (occursAt q t i).
Proof. unfold occursAt. apply _. Defined.

(** All the indexes at which [q] occurs in [t], ascending. *)
Definition occurrencesIn (q t : jsstr) : list nat :=
  filter (occursAt q t) (seq 0 (S (length t))).

(** All the occurrences of [q] in a list of text nodes, in the order of the
    list and ascending inside a node. *)
Definition allOccurrences (q : jsstr) (nodes : list (path * jsstr))
    : list (path * jsstr * nat) :=
  nodes ≫= fun '(p, t) => (fun i => (p, t, i)) <$> occurrencesIn q t.

(** The scan state after looking at one more occurrence. *)
Definition look (quote prefix suffix : jsstr) (st : Best) (o : path * jsstr * nat) : Best :=
  consider quote prefix suffix o.1.1 o.1.2 o.2 st.

(** The context score of an occurrence. *)
Definition scoreOf (quote prefix suffix : jsstr) (o : path * jsstr * nat) : nat :=
  contextScore quote prefix suffix o.1.2 o.2.

(** The range reported for an occurrence. *)
Definition foundAt (quote : jsstr) (o : path * jsstr * nat) : Found :=
  {| f_node := o.1.1; f_start := o.2; f_end := o.2 + length quote |}.

(** ** What the specification asks of the searches *)

(** [tail] occurs somewhere in [window]. *)
Definition contains (window tail : jsstr) : bool :=
  bool_decide (occurrencesIn tail window ≠ []).

(** Points for one side of the context: 2 when the text next to the
    occurrence is the stored context, else 1 when it contains the given end
    of the stored context. *)
Definition contextPoints (window stored tail : jsstr) : nat :=
  if bool_decide (window = stored) then 2
  else if contains window tail then 1
  else 0.

(** The score in the words of the specification: base 1; for the prefix,
    the text immediately before the occurrence (as many code units as the
    prefix has, or all there are) against the prefix and its last 10 code
    units; for the suffix, the text immediately after the occurrence against
    the suffix and its first 10 code units. *)
Definition statedScore (quote prefix suffix : jsstr) (o : path * jsstr * nat) : nat :=
  let text := o.1.2 in
  let index := o.2 in
  1 + contextPoints (drop (index - length prefix) (take index text))
        prefix (drop (length prefix - 10) prefix)
    + contextPoints (take (length suffix) (drop (index + length quote) text))
        suffix (take 10 suffix).

(** The score as amended: a side gives points only when the stored context
    is not empty and the text node has that many code units on that side of
    the occurrence. *)
Definition amendedScore (quote prefix suffix : jsstr) (o : path * jsstr * nat) : nat :=
  let text := o.1.2 in
  let index := o.2 in
  1 + (if bool_decide (prefix ≠ []) && bool_decide (length prefix ≤ index)
       then contextPoints (drop (index - length prefix) (take index text))
              prefix (drop (length prefix - 10) prefix)
       else 0)
    + (if bool_decide (suffix ≠ [])
          && bool_decide (index + length quote + length suffix ≤ length text)
       then contextPoints (take (length suffix) (drop (index + length quote) text))
              suffix (take 10 suffix)
       else 0).

(** What the specification asks of the whole-document search, for a given
    way of scoring: nothing is returned only when the quote occurs nowhere,
    and a returned range is an occurrence of the quote that scores strictly
    more than every earlier occurrence and at least as much as every later
    one (the first of the best). *)
Definition ReturnsBest (score : path * jsstr * nat → nat) (quote : jsstr)
    (occurrences : list (path * jsstr * nat)) (result : option Found) : Prop :=
  match result with
  | None => occurrences = []
  | Some found =>
      ∃ before o after,
        occurrences = before ++ o :: after
        ∧ found = foundAt quote o
        ∧ Forall (fun o' => score o' < score o) before
        ∧ Forall (fun o' => score o' ≤ score o) after
  end.


(** ** Example documents and anchors *)

Definition foxText : jsstr := str "The quick brown fox. The quick brown fox jumps.".

Definition foxDoc : Node := Elem "body" None [Elem "p" None [Text foxText]].

Definition textPath (steps : list Step) (k : nat) : option XPath :=
  Some {| xp_steps := steps; xp_text := Some k |}.

Definition paragraph : Step := {| st_tag := "p"; st_index := None |}.

(** The second "quick brown fox" of [foxDoc]. *)
Definition foxItem : Item :=
  {| hl_id := "hl-1"; hl_quote := str "quick brown fox";
     hl_prefix := str "The "; hl_suffix := str " jumps.";
     hl_color := "#FFEB3B"; hl_xpath := textPath [paragraph] 1;
     hl_startOffset := 25; hl_endOffset := 40;
     hl_note := ""; hl_tags := []; hl_createdAt := "2024-01-01T00:00:00.000Z" |}.

(** The same paragraph after some words were put in front of it. *)
Definition shiftedDoc : Node :=
  Elem "body" None
    [Elem "p" None [Text (str "Well. The quick brown fox. The quick brown fox jumps.")]].

(** An anchor with an empty quote, as an imported file may hold. *)
Definition emptyQuoteItem : Item :=
  {| hl_id := "hl-2"; hl_quote := []; hl_prefix := []; hl_suffix := [];
     hl_color := "#FFEB3B"; hl_xpath := textPath [paragraph] 1;
     hl_startOffset := 1; hl_endOffset := 2;
     hl_note := ""; hl_tags := []; hl_createdAt := "2024-01-01T00:00:00.000Z" |}.

(** The fox paragraph after another paragraph was put before it. *)
Definition staleDoc : Node :=
  Elem "body" None
    [Elem "p" None [Text (str "Inserted paragraph.")]; Elem "p" None [Text foxText]].

Definition shortDoc : Node := Elem "body" None [Elem "p" None [Text (str "ab")]].

(** Two paragraphs in which the quote [Q] occurs once each: after two other
    code units, and after the last ten code units of a stored prefix of
    twenty. *)
Definition windowDoc : Node :=
  Elem "body" None
    [Elem "p" None [Text (str "zzQ")]; Elem "p" None [Text (str "abcdefghijQ")]].

(** ** Selections between text nodes *)

(** What the specification asks of a selection between two distinct text
    nodes: the [multi-node] error and no anchor. *)
Definition MultiNodeSpec (doc : Node) (selection : Selection) : Prop :=
  ∀ range,
    rangeAt0 selection = Some range →
    trim (selectionString selection) ≠ [] →
    startContainer range ≠ endContainer range →
    isTextNode doc (startContainer range) = true →
    isTextNode doc (endContainer range) = true →
    getSelectionInfo doc selection = Rejected MultiNode (trim (selectionString selection))
    ∧ ∀ color id createdAt, doHighlight doc selection color id createdAt = None.

(** A paragraph with inline markup between two of its text nodes. *)
Definition markupDoc : Node :=
  Elem "body" None
    [Elem "p" None [Text (str "ab"); Elem "b" None [Text (str "cd")]; Text (str "ef")]].

(** A paragraph with inline SVG that holds a text node. *)
Definition svgDoc : Node :=
  Elem "body" None
    [Elem "p" None [Elem (Foreign "svg") None [Text (str "label")]]].

(** From inside "ab" to inside "ef". *)
Definition siblingSelection : Selection :=
  {| rangeAt0 := Some {| startContainer := [0; 0]; startOffset := 1;
                         endContainer := [0; 2]; endOffset := 1 |};
     selectionString := str "bcde" |}.

(** From inside "ab" to inside the bold "cd". *)
Definition nestedSelection : Selection :=
  {| rangeAt0 := Some {| startContainer := [0; 0]; startOffset := 1;
                         endContainer := [0; 1; 0]; endOffset := 1 |};
     selectionString := str "bc" |}.

(** The second "foo" selected together with the spaces around it. *)
Definition paddedDoc : Node :=
  Elem "body" None [Elem "p" None [Text (str "foo and foo b")]].

Definition paddedSelection : Selection :=
  {| rangeAt0 := Some {| startContainer := [0; 0]; startOffset := 7;
                         endContainer := [0; 0]; endOffset := 12 |};
     selectionString := str " foo " |}.

Definition otherItem : Item :=
  {| hl_id := "hl-9"; hl_quote := str "jumps"; hl_prefix := []; hl_suffix := [];
     hl_color := "#69F0AE"; hl_xpath := textPath [paragraph] 1;
     hl_startOffset := 41; hl_endOffset := 46;
     hl_note := "old"; hl_tags := ["#later"]; hl_createdAt := "2024-01-02T00:00:00.000Z" |}.

Definition noURL : string → option URL := fun _ => None.

Definition foxStore : gmap string PageData :=
  {[ "https://example.com/fox" := {| title := "Fox"; items := [foxItem; otherItem] |} ]}.

Definition importedOverlap : gmap string PageData :=
  {[ "https://example.com/fox" :=
       {| title := "Imported";
          items := [ {| hl_id := "hl-9"; hl_quote := str "jumps"; hl_prefix := [];
                        hl_suffix := []; hl_color := "#69F0AE";
                        hl_xpath := textPath [paragraph] 1;
                        hl_startOffset := 41; hl_endOffset := 46;
                        hl_note := "important"; hl_tags := [];
                        hl_createdAt := "2024-01-02T00:00:00.000Z" |};
                     emptyQuoteItem ] |} ]}.

(** *** The platform's URL parser, in part

    [new URL(s)] is the browser's, not the extension's. It follows the URL
    Standard, of which two parts are modelled here, both for a string given
    without a base URL.

    The input is first stripped of leading and trailing C0 controls and
    spaces and of every tab and newline. A string that does not then start
    with a scheme and a colon is a failure.

    With one of the schemes [http], [https], [ws], [wss] and [ftp], the
    modelled part is: two slashes, then a host of lower-case letters, digits,
    hyphens and dots whose labels are not empty, of which none starts with
    [xn--] and the last starts with a letter (so no user name, no port, no
    IP address, nothing to map or to decode), then nothing, a query, a
    fragment or a slash and a path of letters, digits and
    [-._~!$&'()*+,;=:@/] (nothing to percent-encode), then possibly a query
    or a fragment. The path state removes the segments [.] and [..], the
    latter with the segment before it; the origin serialises as the scheme,
    [://] and the host, the path name as a slash and a segment, for each
    segment.

    With a scheme that is not special and not [blob], and a remainder that
    does not start with a slash, the path is opaque and runs up to the first
    [?] or [#], and the origin is opaque and serialises as [null]; modelled
    for a path of printable, non-blank ASCII.

    Every other string is outside the modelled part: nothing is said about
    what the parser does with it. *)




























(** ** The locating part of an anchor *)

Definition anchorPart (item : Item) : string * jsstr * option XPath * nat * nat :=
  (hl_id item, hl_quote item, hl_xpath item, hl_startOffset item, hl_endOffset item).

(** ** Counting markers *)

(** The marker ids of a node and of the elements below it. *)
Definition nodeIds (c : Node) : list string := (ownMarker c).*2 ++ markerIds c.

(** Number of elements whose [data-hl-id] is [id]. *)
Definition markerCount (id : string) (doc : Node) : nat :=
  length (filter (fun h => h = id) (markerIds doc)).

(** The fox anchor under an id with a backslash, and the document after
    it was wrapped. *)
Definition escapedItem : Item :=
  {| hl_id := "a\b"; hl_quote := str "quick brown fox";
     hl_prefix := str "The "; hl_suffix := str " jumps.";
     hl_color := "#FFEB3B"; hl_xpath := textPath [paragraph] 1;
     hl_startOffset := 25; hl_endOffset := 40;
     hl_note := ""; hl_tags := []; hl_createdAt := "2024-01-01T00:00:00.000Z" |}.

Definition escapedDoc : Node :=
  Elem "body" None
    [Elem "p" None
       [Text (str "The quick brown fox. The ");
        Elem "span" (Some "a\b") [Text (str "quick brown fox")];
        Text (str " jumps.")]].

(** An anchor under an id with a double quote: the marker selector made of
    it is invalid. *)
Definition quotedItem : Item :=
  {| hl_id := "a" ++ doubleQuote ++ "b"; hl_quote := str "quick brown fox";
     hl_prefix := str "The "; hl_suffix := str " jumps.";
     hl_color := "#FFEB3B"; hl_xpath := textPath [paragraph] 1;
     hl_startOffset := 25; hl_endOffset := 40;
     hl_note := ""; hl_tags := []; hl_createdAt := "2024-01-01T00:00:00.000Z" |}.

(** A session in which the fox anchor has been restored once. *)
Definition restoredSession : Session :=
  restoreHighlights cssQuerySelector [foxItem]
    {| highlightCache := emptyCache; document := foxDoc |}.

(** The second "quick brown fox" of [foxDoc], selected exactly. *)
Definition foxSelection : Selection :=
  {| rangeAt0 := Some {| startContainer := [0; 0]; startOffset := 25;
                         endContainer := [0; 0]; endOffset := 40 |};
     selectionString := str "quick brown fox" |}.

(** ** Import without raising *)

(** What a turn of the import loop stores when it does not raise. *)
Definition mergePage (existingHighlights : gmap string PageData)
    (entry : string * PageData) : gmap string PageData :=
  let '(url, pageData) := entry in
  match existingHighlights !! url with
  | None => <[url := pageData]> existingHighlights
  | Some existing =>
      <[url := {| title := if bool_decide (title existing = "")
                              && bool_decide (title pageData ≠ "")
                           then title pageData else title existing;
                  items := items existing
                           ++ filter (fun i => hl_id i ∉ (hl_id <$> items existing))
                                (items pageData) |}]> existingHighlights
  end.

Definition unionMerge (existingHighlights importedHighlights : gmap string PageData)
    : gmap string PageData :=
  foldl mergePage existingHighlights (map_to_list importedHighlights).

(** The file has a key that names a member of [Object.prototype] and that
    the store does not hold. *)
Definition HitsPrototype (existingHighlights importedHighlights : gmap string PageData)
    : Prop :=
  ∃ url, url ∈ objectPrototypeNames
         ∧ is_Some (importedHighlights !! url) ∧ existingHighlights !! url = None.

(** A file with a page under the key [constructor] and one under a new
    URL. *)
Definition importedConstructor : gmap string PageData :=
  {[ "constructor" := {| title := "C"; items := [emptyQuoteItem] |};
     "https://example.com/new" := {| title := "New"; items := [emptyQuoteItem] |} ]}.

(** ** Documents of plain HTML elements *)

(** A lower-case ASCII letter, a digit or a hyphen. *)
Definition plainNameChar (c : ascii) : bool :=
  let n := nat_of_ascii c in
  bool_decide (97 ≤ n ≤ 122) || bool_decide (48 ≤ n ≤ 57) || bool_decide (n = 45).

(** An HTML element whose local name starts with a lower-case ASCII letter
    and goes on with such letters, digits and hyphens. *)
Definition plainName (name : Name) : bool :=
  match name with
  | Html (String c rest) =>
      bool_decide (97 ≤ nat_of_ascii c ≤ 122) && allChars plainNameChar rest
  | _ => false
  end.

(** All the elements of the document have plain names. *)
Fixpoint plainDocument (n : Node) : bool :=
  match n with
  | Text _ => true
  | Elem name _ cs => plainName name && forallb plainDocument cs
  end.

(** ** What the cache holds *)

(** The cache has [item] for [id]: as its entry of that name, or, for the
    name [__proto__], as its prototype. *)
Definition CacheHolds (cache : Cache) (id : string) (item : Item) : Prop :=
  if bool_decide (id = "__proto__") then prototype cache = Some item
  else ownEntries cache !! id = Some item.


(** ** Tags and stored pages *)

(** A tag as the editors store it: a hash sign, at least one more code
    unit, and no white space. *)
Definition TagOk (t : jsstr) : Prop :=
  (∃ r, t = "#"%char :: r ∧ r ≠ []) ∧ Forall (fun c => isWhiteSpace c = false) t.

(** No page of the store has an empty list of anchors. *)
Definition NoEmptyPage (highlights : gmap string PageData) : Prop :=
  ∀ url page, highlights !! url = Some page → items page ≠ [].

(** The anchors of every page of the store have distinct ids. *)
Definition DistinctIds (highlights : gmap string PageData) : Prop :=
  ∀ url page, highlights !! url = Some page → NoDup (hl_id <$> items page).

(** * Properties *)

(** ** [indexOf] and the occurrences of a quote *)

Lemma occursAt_bound q t i : q ≠ [] → occursAt q t i → i + length q ≤ length t ∧ i < length t.
Proof.
  intros Hq [Hi Ht].
  assert (Hl : length (take (length q) (drop i t)) = length q) by (by rewrite Ht).
  rewrite length_take, length_drop in Hl.
  destruct q as [|c q]; [done|]. cbn [length] in *. lia.
Qed.

Lemma startsWith_spec t q : startsWith t q = true ↔ take (length q) t = q.
Proof. unfold startsWith. by rewrite bool_decide_eq_true. Qed.

Lemma indexOfFrom_Some t q k j :
  indexOfFrom t q k = Some j →
  ∃ i, j = k + i ∧ i ≤ length t ∧ take (length q) (drop i t) = q
       ∧ ∀ i', i' < i → take (length q) (drop i' t) ≠ q.
Proof.
  revert k. induction t as [|c t IH]; intros k; simpl.
  - destruct (startsWith [] q) eqn:E; [|done].
    intros [= <-]. exists 0. apply startsWith_spec in E.
    split_and!; [lia | simpl; lia | done | intros; lia].
  - destruct (startsWith (c :: t) q) eqn:E.
    + intros [= <-]. exists 0. apply startsWith_spec in E.
      split_and!; [lia | simpl; lia | done | intros; lia].
    + intros H. destruct (IH _ H) as (i & -> & Hi & Hocc & Hmin).
      exists (S i). split_and!; [lia | simpl; lia | done |].
      intros [|i'] Hlt; simpl.
      * intros Heq. apply startsWith_spec in Heq. by rewrite E in Heq.
      * apply Hmin. lia.
Qed.

Lemma indexOfFrom_None t q k :
  indexOfFrom t q k = None →
  ∀ i, i ≤ length t → take (length q) (drop i t) ≠ q.
Proof.
  revert k. induction t as [|c t IH]; intros k; simpl.
  - destruct (startsWith [] q) eqn:E; [done|].
    intros _ i Hi Heq. simpl in Hi. assert (i = 0) as -> by lia.
    simpl in Heq. apply startsWith_spec in Heq. by rewrite E in Heq.
  - destruct (startsWith (c :: t) q) eqn:E; [done|].
    intros H [|i] Hi; simpl.
    + intros Heq. apply startsWith_spec in Heq. by rewrite E in Heq.
    + eapply IH; [done | lia].
Qed.

Lemma drop_clamp {A} (t : list A) s : drop s t = drop (s `min` length t) t.
Proof.
  destruct (decide (s ≤ length t)).
  - by rewrite Nat.min_l.
  - rewrite Nat.min_r by lia. rewrite !drop_ge; [done | lia | lia].
Qed.

Lemma indexOf_Some t q s j :
  indexOf t q s = Some j →
  s `min` length t ≤ j ∧ occursAt q t j
  ∧ ∀ i, s `min` length t ≤ i → i < j → ¬ occursAt q t i.
Proof.
  unfold indexOf. rewrite (drop_clamp t s).
  set (s' := s `min` length t). assert (s' ≤ length t) by (subst s'; lia).
  intros H0. apply indexOfFrom_Some in H0 as (i & -> & Hi & Hocc & Hmin).
  rewrite length_drop in Hi. rewrite drop_drop in Hocc.
  split; [lia|]. split; [split; [lia | done]|].
  intros i' Hge Hlt [_ Ho]. apply (Hmin (i' - s')); [lia|].
  rewrite drop_drop. by replace (s' + (i' - s')) with i' by lia.
Qed.

Lemma indexOf_None t q s :
  indexOf t q s = None → ∀ i, s `min` length t ≤ i → ¬ occursAt q t i.
Proof.
  unfold indexOf. rewrite (drop_clamp t s).
  set (s' := s `min` length t). assert (s' ≤ length t) by (subst s'; lia).
  intros H0 i Hge [Hi Ho].
  eapply (indexOfFrom_None _ _ _ H0 (i - s')).
  - rewrite length_drop. lia.
  - rewrite drop_drop. by replace (s' + (i - s')) with i by lia.
Qed.

Lemma filter_seq_none (P : nat → Prop) `{∀ i, Decision (P i)} a n :
  (∀ i, a ≤ i → i < a + n → ¬ P i) → filter P (seq a n) = [].
Proof.
  revert a. induction n as [|n IH]; intros a Hn; [done|].
  simpl. rewrite filter_cons_False by (apply Hn; lia).
  apply IH. intros i ? ?. apply Hn; lia.
Qed.

Lemma filter_seq_first (P : nat → Prop) `{∀ i, Decision (P i)} a n j :
  a ≤ j → j < a + n → P j → (∀ i, a ≤ i → i < j → ¬ P i) →
  filter P (seq a n) = j :: filter P (seq (S j) (a + n - S j)).
Proof.
  intros Haj Hjn Hj Hmin.
  replace n with ((j - a) + S (a + n - S j)) at 1 by lia.
  rewrite seq_app, filter_app.
  rewrite filter_seq_none by (intros; apply Hmin; lia).
  replace (a + (j - a)) with j by lia.
  simpl. by rewrite filter_cons_True.
Qed.

Lemma allOccurrences_cons q p t nodes :
  allOccurrences q ((p, t) :: nodes)
  = ((fun i => (p, t, i)) <$> occurrencesIn q t) ++ allOccurrences q nodes.
Proof. done. Qed.

Lemma elem_of_allOccurrences q nodes p t i :
  (p, t, i) ∈ allOccurrences q nodes ↔ (p, t) ∈ nodes ∧ occursAt q t i.
Proof.
  unfold allOccurrences. rewrite list_elem_of_bind. split.
  - intros ([p' t'] & Hin & Hnode).
    apply list_elem_of_fmap in Hin as (i' & [= -> -> ->] & Hi).
    apply list_elem_of_filter in Hi as [Hocc _]. done.
  - intros [Hnode Hocc]. exists (p, t). split; [|done].
    apply list_elem_of_fmap. exists i. split; [done|].
    apply list_elem_of_filter. split; [done|].
    apply elem_of_seq. destruct Hocc. lia.
Qed.

(** ** The whole-document scan as a fold over the occurrences *)

Section ContextScan.
Variables quote prefix suffix : jsstr.

Lemma occurrenceLoop_fold fuel node text searchStart st :
  quote ≠ [] →
  S (length text) ≤ fuel + searchStart →
  occurrenceLoop fuel quote prefix suffix node text searchStart st
  = foldl (look quote prefix suffix) st
      ((fun i => (node, text, i))
         <$> filter (occursAt quote text)
               (seq searchStart (S (length text) - searchStart))).
Proof.
  intros Hq. revert searchStart st.
  induction fuel as [|fuel IH]; intros s st Hfuel.
  - replace (S (length text) - s) with 0 by lia. done.
  - simpl. destruct (indexOf text quote s) as [j|] eqn:E.
    + apply indexOf_Some in E as (Hsj & Hocc & Hmin).
      destruct (occursAt_bound _ _ _ Hq Hocc) as [_ Hjlen].
      assert (s ≤ length text) by lia.
      rewrite Nat.min_l in Hsj, Hmin by done.
      rewrite (filter_seq_first _ s _ j) by (done || lia).
      rewrite IH by lia. simpl.
      replace (j + 1) with (S j) by lia.
      by replace (S (length text) - S j) with (s + (S (length text) - s) - S j) by lia.
    + rewrite filter_seq_none; [done|].
      intros i Hi _. eapply indexOf_None; [done | lia].
Qed.

Lemma contextLoop_fold nodes st :
  quote ≠ [] →
  contextLoop quote prefix suffix nodes st
  = foldl (look quote prefix suffix) st (allOccurrences quote nodes).
Proof.
  intros Hq. revert st. induction nodes as [|[node text] nodes IH]; intros st; [done|].
  cbn [contextLoop]. rewrite IH, allOccurrences_cons, foldl_app.
  f_equal. rewrite occurrenceLoop_fold by (done || lia).
  by rewrite Nat.sub_0_r.
Qed.

(** What a scan that keeps the first strictly better candidate ends with. *)
Lemma look_fold_best l :
  match foldl (look quote prefix suffix) (None, 0) l with
  | (None, _) => l = []
  | (Some found, score) =>
      ∃ before o after,
        l = before ++ o :: after ∧ found = foundAt quote o ∧ score = scoreOf quote prefix suffix o
        ∧ Forall (fun o' => scoreOf quote prefix suffix o' < scoreOf quote prefix suffix o) before
        ∧ Forall (fun o' => scoreOf quote prefix suffix o' ≤ scoreOf quote prefix suffix o) after
  end.
Proof.
  induction l as [|x l IH] using rev_ind; [done|].
  rewrite foldl_app. simpl.
  destruct (foldl (look quote prefix suffix) (None, 0) l) as [[found|] score] eqn:E.
  - destruct IH as (before & o & after & -> & -> & -> & Hb & Ha).
    unfold look, consider. simpl. fold (scoreOf quote prefix suffix x). case_bool_decide as Hlt.
    + exists (before ++ o :: after), x, []. split_and!; try done.
      apply Forall_app. split.
      * eapply Forall_impl; [exact Hb|]. simpl. intros; lia.
      * constructor; [done|]. eapply Forall_impl; [exact Ha|]. simpl. intros; lia.
    + exists before, o, (after ++ [x]). split_and!; try done.
      * by rewrite <- app_assoc.
      * apply Forall_app. split; [done|]. constructor; [lia | done].
  - subst l. simpl in E. injection E as <-.
    unfold look, consider. simpl. fold (scoreOf quote prefix suffix x).
    exists [], x, []. split_and!; done.
Qed.
End ContextScan.

(** ** Induction on documents *)

Lemma Node_tree_ind (P : Node → Prop) :
  (∀ d, P (Text d)) →
  (∀ t h cs, Forall P cs → P (Elem t h cs)) →
  ∀ n, P n.
Proof.
  intros Htext Helem. fix IH 1. intros [d | t h cs].
  - apply Htext.
  - apply Helem. induction cs as [|c cs IHcs]; constructor; [apply IH | exact IHcs].
Qed.

Lemma elem_of_walkChildren {B} (f : Node → list (path * B)) k cs p b :
  (p, b) ∈ walkChildren f k cs
  ↔ ∃ j c p', p = (k + j) :: p' ∧ cs !! j = Some c ∧ (p', b) ∈ f c.
Proof.
  revert k. induction cs as [|c cs IH]; intros k; simpl.
  - split; [by intros ?%elem_of_nil | by intros (j & ? & ? & _ & ? & _)].
  - rewrite elem_of_app, list_elem_of_fmap, IH. split.
    + intros [([p' b'] & [= -> ->] & Hin) | (j & c' & p' & -> & Hj & Hin)].
      * exists 0, c, p'. by rewrite Nat.add_0_r.
      * exists (S j), c', p'. split_and!; [f_equal; lia | done | done].
    + intros ([|j] & c' & p' & -> & Hj & Hin); simpl in Hj.
      * left. injection Hj as <-. exists (p', b). by rewrite Nat.add_0_r.
      * right. exists j, c', p'. split_and!; [f_equal; lia | done | done].
Qed.

(** The walker's list is exactly the text nodes of the tree. *)
Lemma elem_of_textNodes n p t :
  (p, t) ∈ textNodes n ↔ getNode n p = Some (Text t).
Proof.
  revert p. induction n as [d | tg h cs IH] using Node_tree_ind; intros p.
  - simpl. rewrite list_elem_of_singleton. destruct p; simpl; naive_solver.
  - cbn [textNodes]. rewrite elem_of_walkChildren. split.
    + intros (j & c & p' & -> & Hj & Hin). simpl. rewrite Hj.
      rewrite Forall_forall in IH. apply IH; [|done].
      by eapply list_elem_of_lookup_2.
    + destruct p as [|j p']; simpl; [done|].
      destruct (cs !! j) as [c|] eqn:Hj; [|done].
      intros Hget. exists j, c, p'. split_and!; [done | done |].
      rewrite Forall_forall in IH. apply IH; [|done].
      by eapply list_elem_of_lookup_2.
Qed.

Lemma elem_of_treeWalker_root t h cs p d :
  (p, d) ∈ treeWalker (Elem t h cs) [] ↔ getNode (Elem t h cs) p = Some (Text d).
Proof.
  unfold treeWalker. cbn [getNode].
  rewrite <- elem_of_textNodes, list_elem_of_fmap. split.
  - by intros ([p' d'] & [= -> ->] & Hin).
  - intros Hin. by exists (p, d).
Qed.

(** ** The context score *)

Lemma substring_in_range t a b :
  a ≤ b → b ≤ length t → substring t a b = take (b - a) (drop a t).
Proof.
  intros Hab Hb. unfold substring.
  rewrite !Nat.min_l by lia. by rewrite Nat.max_r by lia.
Qed.

(** Two points for the prefix: the text before the occurrence ends with the
    (non-empty) prefix. *)
Lemma prefixScore_exact prefix text index :
  index ≤ length text →
  prefixScore prefix text index = 2
  ↔ prefix ≠ [] ∧ prefix `suffix_of` take index text.
Proof.
  intros Hidx. unfold prefixScore, truthy.
  destruct (decide (prefix = [])) as [-> | Hne].
  { simpl. split; [done | by intros [? _]]. }
  rewrite (bool_decide_eq_true_2 (prefix ≠ [])) by done. cbn [andb].
  case_bool_decide as Hlen.
  - rewrite substring_in_range by lia.
    replace (index - (index - length prefix)) with (length prefix) by lia.
    case_bool_decide as Heq.
    + split; [|done]. intros _. split; [done|].
      exists (take (index - length prefix) text).
      rewrite <- Heq at 2. rewrite take_take_drop. f_equal. lia.
    + split; [by case_match|]. intros [_ [k Hk]]. exfalso. apply Heq.
      assert (Hlk : length k = index - length prefix).
      { apply (f_equal length) in Hk.
        rewrite length_take, length_app in Hk. lia. }
      rewrite take_drop_commute.
      replace (index - length prefix + length prefix) with index by lia.
      rewrite Hk. by rewrite drop_app_length'.
  - split; [done|]. intros [_ Hsuf]. apply suffix_length in Hsuf.
    rewrite length_take in Hsuf. lia.
Qed.

(** Two points for the suffix: the text after the occurrence starts with
    the (non-empty) suffix. *)
Lemma suffixScore_exact quote suffix text index :
  suffixScore quote suffix text index = 2
  ↔ suffix ≠ [] ∧ index + length quote ≤ length text
    ∧ suffix `prefix_of` drop (index + length quote) text.
Proof.
  unfold suffixScore, truthy.
  destruct (decide (suffix = [])) as [-> | Hne].
  { simpl. split; [done | by intros [? _]]. }
  rewrite (bool_decide_eq_true_2 (suffix ≠ [])) by done. cbn [andb].
  case_bool_decide as Hlen.
  - rewrite substring_in_range by lia.
    replace (index + length quote + length suffix - (index + length quote))
      with (length suffix) by lia.
    case_bool_decide as Heq.
    + split; [|done]. intros _. split_and!; [done | lia |].
      exists (drop (length suffix) (drop (index + length quote) text)).
      rewrite <- Heq at 1. by rewrite take_drop.
    + split; [by case_match|]. intros (_ & _ & [k Hk]). exfalso. apply Heq.
      rewrite Hk. by rewrite take_app_length.
  - split; [done|]. intros (_ & Hle & Hpre). apply prefix_length in Hpre.
    rewrite length_drop in Hpre. lia.
Qed.

(** ** Whole-document search with context scoring *)

Lemma substring_drop_take t a b : a ≤ b → substring t a b = drop a (take b t).
Proof.
  intros Hab. unfold substring.
  destruct (decide (b ≤ length t)) as [Hb | Hb].
  - rewrite !Nat.min_l by lia. rewrite Nat.max_r by lia.
    rewrite take_drop_commute. f_equal. f_equal. lia.
  - rewrite (Nat.min_r b) by lia. rewrite (take_ge t b) by lia.
    destruct (decide (a ≤ length t)) as [Ha | Ha].
    + rewrite Nat.min_l by lia. rewrite Nat.min_l, Nat.max_r by lia.
      apply take_ge. rewrite length_drop. lia.
    + rewrite (Nat.min_r a) by lia. rewrite Nat.min_id, Nat.max_id, Nat.sub_diag.
      by rewrite (drop_ge t a) by lia.
Qed.

Lemma includes_contains window tail : includes window tail = contains window tail.
Proof.
  unfold includes, contains. apply bool_decide_ext.
  destruct (indexOf window tail 0) as [j|] eqn:E.
  - apply indexOf_Some in E as (_ & Hocc & _). split; [intros _ | by eexists].
    intros Hnil. assert (Hin : j ∈ occurrencesIn tail window).
    { apply list_elem_of_filter. split; [done|]. apply elem_of_seq. destruct Hocc. lia. }
    rewrite Hnil in Hin. by apply elem_of_nil in Hin.
  - split; [by intros [? ?]|]. intros Hne. exfalso. apply Hne.
    apply filter_seq_none. intros i _ _. eapply indexOf_None; [done | lia].
Qed.

(** The score the loop computes is the amended score. *)
Lemma scoreOf_amended quote prefix suffix o :
  scoreOf quote prefix suffix o = amendedScore quote prefix suffix o.
Proof.
  unfold scoreOf, amendedScore, contextScore, prefixScore, suffixScore, truthy,
    contextPoints, sliceLast, sliceFirst.
  f_equal; [f_equal|].
  - destruct (bool_decide (prefix ≠ []) && bool_decide (length prefix ≤ o.2)) eqn:E; [|done].
    apply andb_true_iff in E as [_ Hlen%bool_decide_eq_true].
    rewrite substring_drop_take by lia. by rewrite includes_contains.
  - destruct (bool_decide (suffix ≠ []) && _) eqn:E; [|done].
    apply andb_true_iff in E as [_ Hlen%bool_decide_eq_true].
    rewrite substring_in_range by lia.
    replace (o.2 + length quote + length suffix - (o.2 + length quote))
      with (length suffix) by lia.
    by rewrite includes_contains.
Qed.

(** C1 (as amended). For a non-empty quote, [findQuoteWithContext] returns
    [null] exactly when the quote occurs in no text node of the document;
    otherwise it returns the first of the occurrences with the greatest
    score, where an occurrence scores 1, plus, when the stored prefix is
    not empty and at least as many code units precede the occurrence in its
    text node, 2 if those code units are the prefix and else 1 if they
    contain its last 10 code units; and likewise for the suffix and the
    code units that follow the occurrence. *)
Theorem findQuoteWithContext_best doc quote prefix suffix :
  quote ≠ [] →
  ReturnsBest (amendedScore quote prefix suffix) quote
    (allOccurrences quote (treeWalker doc []))
    (findQuoteWithContext doc quote prefix suffix).
Proof.
  intros Hq. unfold ReturnsBest, findQuoteWithContext, truthy.
  rewrite bool_decide_eq_true_2 by done.
  rewrite contextLoop_fold by done.
  pose proof (look_fold_best quote prefix suffix
                (allOccurrences quote (treeWalker doc []))) as H.
  destruct (foldl _ _ _) as [[found|] score]; simpl; [|done].
  destruct H as (before & o & after & ? & ? & _ & Hb & Ha).
  exists before, o, after. split_and!; [done | done | |].
  - eapply Forall_impl; [exact Hb|]. intros o'. by rewrite !scoreOf_amended.
  - eapply Forall_impl; [exact Ha|]. intros o'. by rewrite !scoreOf_amended.
Qed.

Lemma findQuoteWithContext_best_witness :
  ReturnsBest (amendedScore (str "quick brown fox") (str "The ") (str " jumps."))
    (str "quick brown fox")
    (allOccurrences (str "quick brown fox") (treeWalker foxDoc []))
    (findQuoteWithContext foxDoc (str "quick brown fox") (str "The ") (str " jumps.")).
Proof. apply findQuoteWithContext_best. done. Defined.

(** C1 as stated fails: with the scoring rule of the specification, the
    second [Q] of [windowDoc] scores 2 (the ten code units before it hold
    the last ten of the prefix) and the first scores 1, yet the search
    returns the first: fewer code units than the prefix has precede the
    second, so the code gives it no point for the prefix. *)
Lemma findQuoteWithContext_partial_window :
  ¬ ReturnsBest (statedScore (str "Q") (str "0123456789abcdefghij") [])
      (str "Q")
      (allOccurrences (str "Q") (treeWalker windowDoc []))
      (findQuoteWithContext windowDoc (str "Q") (str "0123456789abcdefghij") []).
Proof.
  assert (Hfound : findQuoteWithContext windowDoc (str "Q") (str "0123456789abcdefghij") []
                   = Some {| f_node := [0; 0]; f_start := 2; f_end := 3 |})
    by reflexivity.
  assert (Hocc : allOccurrences (str "Q") (treeWalker windowDoc [])
                 = [([0; 0], str "zzQ", 2); ([1; 0], str "abcdefghijQ", 10)])
    by reflexivity.
  rewrite Hfound, Hocc. intros (before & o & after & Hsplit & Ho & _ & Hafter).
  destruct before as [|b before]; simpl in Hsplit.
  - injection Hsplit as Ho' Hafter'. subst o after.
    apply Forall_cons in Hafter as [Hle _]. vm_compute in Hle. lia.
  - injection Hsplit as Hb Hsplit. destruct before as [|b' before]; simpl in Hsplit.
    + injection Hsplit as Ho' Hafter'. subst o. discriminate Ho.
    + injection Hsplit as _ Hsplit. by destruct before.
Qed.

(** The scenario of the specification: with the path stale, the second
    "quick brown fox" is returned, the only one followed by " jumps.". *)
Example stale_path_second_occurrence :
  resolve foxItem staleDoc
  = Some (DocumentContext, {| f_node := [1; 0]; f_start := 25; f_end := 40 |})
  ∧ contextScore (hl_quote foxItem) (hl_prefix foxItem) (hl_suffix foxItem) foxText 4 = 3
  ∧ contextScore (hl_quote foxItem) (hl_prefix foxItem) (hl_suffix foxItem) foxText 25 = 5.
Proof. split_and!; reflexivity. Qed.

(** No points for the prefix when fewer code units than the prefix has come
    before the occurrence, even if they hold its last ten. *)
Example prefix_needs_full_window :
  prefixScore (str "0123456789abcdefghij") (str "abcdefghijQ") 10 = 0
  ∧ includes (str "abcdefghij") (sliceLast 10 (str "0123456789abcdefghij")) = true.
Proof. split; reflexivity. Qed.

(** ** Exact match by path and offsets *)

(** C4. When the stored path decodes to a text node whose text between the
    stored offsets is the quote, the range handed on is that node with those
    offsets, whatever the two searches would return, and
    [tryRestoreHighlight] wraps exactly it; when the text there differs from
    the quote, no result comes from the first strategy. *)
Theorem exact_match_first item doc p text :
  getTextNodeByXPath doc (hl_xpath item) = Some p →
  getNode doc p = Some (Text text) →
  (substring text (hl_startOffset item) (hl_endOffset item) = hl_quote item →
     (∀ searchElement searchDocument,
        resolveWith searchElement searchDocument item doc
        = Some (XPathOffset, {| f_node := p; f_start := hl_startOffset item;
                                f_end := hl_endOffset item |}))
     ∧ tryRestoreHighlight item doc
       = applyHighlightToTextNode doc p (hl_startOffset item) (hl_endOffset item) item)
  ∧ (substring text (hl_startOffset item) (hl_endOffset item) ≠ hl_quote item →
       ∀ searchElement searchDocument found,
         resolveWith searchElement searchDocument item doc ≠ Some (XPathOffset, found)).
Proof.
  intros Hp Hnode. split; intros Hq.
  - assert (Hres : ∀ se sd, resolveWith se sd item doc
        = Some (XPathOffset, {| f_node := p; f_start := hl_startOffset item;
                                f_end := hl_endOffset item |})).
    { intros se sd. unfold resolveWith, exactMatch. rewrite Hp, Hnode.
      by rewrite bool_decide_eq_true_2. }
    split; [done|]. unfold tryRestoreHighlight, resolve. by rewrite Hres.
  - intros se sd found. unfold resolveWith, exactMatch. rewrite Hp, Hnode.
    rewrite bool_decide_eq_false_2 by done.
    destruct (searchParent _ _ _ _); [done|]. by destruct (sd _ _ _ _).
Qed.

(** ** Search below the parent named by the path *)

Lemma scanFirst_head nodes quote :
  scanFirst nodes quote = foundAt quote <$> head (allOccurrences quote nodes).
Proof.
  induction nodes as [|[p t] nodes IH]; [done|].
  rewrite allOccurrences_cons. cbn [scanFirst]. unfold occurrencesIn.
  destruct (indexOf t quote 0) as [j|] eqn:E.
  - apply indexOf_Some in E as (_ & Hocc & Hmin).
    rewrite (filter_seq_first _ 0 _ j); [done | lia | destruct Hocc; lia | done |].
    intros i ? ?. apply Hmin; lia.
  - rewrite filter_seq_none; [done|].
    intros i ? ?. eapply indexOf_None; [done | lia].
Qed.


(** When the quote does not occur below the search root, the whole-document
    search decides. *)
Lemma subtree_search_falls_through item doc p parent :
  getTextNodeByXPath doc (hl_xpath item) = Some p →
  exactMatch item doc (Some p) = None →
  searchRoot doc p = Some parent →
  allOccurrences (hl_quote item) (treeWalker doc parent) = [] →
  resolve item doc
  = pair DocumentContext
      <$> findQuoteWithContext doc (hl_quote item) (hl_prefix item) (hl_suffix item).
Proof.
  intros Hp Hexact Hroot Hocc.
  unfold resolve, resolveWith, searchParent. rewrite Hp, Hexact, Hroot.
  unfold findQuoteInElement. rewrite scanFirst_head, Hocc. simpl.
  destruct (truthy _); by destruct (findQuoteWithContext _ _ _ _).
Qed.

Lemma exact_match_first_witness :
  tryRestoreHighlight foxItem foxDoc
  = applyHighlightToTextNode foxDoc [0; 0] 25 40 foxItem.
Proof.
  refine (proj2 (proj1 (exact_match_first foxItem foxDoc [0; 0] foxText _ _) _));
    reflexivity.
Defined.


(** ** Selection encoding *)

(** C3 (as the code has it). A selection with non-empty trimmed text whose
    two ends are distinct nodes is rejected with the [multi-node] error, and
    yields no anchor, unless both ends are text nodes of the same parent. *)
Theorem multi_node_rejected doc selection range :
  rangeAt0 selection = Some range →
  trim (selectionString selection) ≠ [] →
  startContainer range ≠ endContainer range →
  isTextNode doc (startContainer range) = false
  ∨ isTextNode doc (endContainer range) = false
  ∨ parentNode (startContainer range) ≠ parentNode (endContainer range) →
  getSelectionInfo doc selection = Rejected MultiNode (trim (selectionString selection))
  ∧ ∀ color id createdAt, doHighlight doc selection color id createdAt = None.
Proof.
  intros Hr Htext Hne Hcase.
  assert (Hinfo : getSelectionInfo doc selection
                  = Rejected MultiNode (trim (selectionString selection))).
  { unfold getSelectionInfo, truthy. rewrite Hr.
    rewrite (bool_decide_eq_true_2 (trim _ ≠ [])) by done. cbn [negb].
    rewrite (bool_decide_eq_true_2 (startContainer range ≠ _)) by done.
    destruct Hcase as [-> | [-> | Hpar]]; cbn [negb orb andb]; try done.
    - by rewrite orb_true_r.
    - rewrite (bool_decide_eq_true_2 (parentNode _ ≠ _)) by done.
      by rewrite !orb_true_r. }
  split; [done|]. intros color id createdAt. unfold doHighlight. by rewrite Hinfo.
Qed.

Lemma multi_node_rejected_witness :
  getSelectionInfo markupDoc nestedSelection = Rejected MultiNode (str "bc")
  ∧ ∀ color id createdAt, doHighlight markupDoc nestedSelection color id createdAt = None.
Proof.
  refine (multi_node_rejected markupDoc nestedSelection
            {| startContainer := [0; 0]; startOffset := 1;
               endContainer := [0; 1; 0]; endOffset := 1 |} _ _ _ _).
  - reflexivity.
  - discriminate.
  - discriminate.
  - right. right. discriminate.
Defined.

(** C3 as stated fails for two text nodes of one parent: the selection from
    "ab" to "ef" across the bold element is encoded. *)
Lemma sibling_text_nodes_accepted : ¬ MultiNodeSpec markupDoc siblingSelection.
Proof.
  intros H.
  destruct (H _ eq_refl) as [Hinfo _]; [discriminate | discriminate | done | done |].
  vm_compute in Hinfo. discriminate.
Qed.

(** The anchor made of that selection, and the document afterwards. *)
Example sibling_selection_anchor :
  doHighlight markupDoc siblingSelection "#FFEB3B" "hl-3" "t"
  = Some ({| hl_id := "hl-3"; hl_quote := str "bcde"; hl_prefix := str "a";
             hl_suffix := str "b"; hl_color := "#FFEB3B";
             hl_xpath := textPath [paragraph] 1;
             hl_startOffset := 1; hl_endOffset := 1;
             hl_note := ""; hl_tags := []; hl_createdAt := "t" |},
          Elem "body" None
            [Elem "p" None
               [Text (str "a");
                Elem "span" (Some "hl-3")
                  [Text (str "b"); Elem "b" None [Text (str "cd")]; Text (str "e")];
                Text (str "f")]]).
Proof. reflexivity. Qed.

(** C2 at a selection with surrounding white space: the anchor keeps the
    trimmed text as its quote and the untrimmed offsets, so the text between
    the offsets is not the quote; the first restoration strategy cannot
    succeed on the very document the anchor was made in, and the second one
    lands on the first "foo" of the paragraph, not on the selected one. *)
Lemma padded_selection_anchor :
  ∃ item doc',
    doHighlight paddedDoc paddedSelection "#FFEB3B" "hl-4" "t" = Some (item, doc')
    ∧ hl_quote item = str "foo"
    ∧ hl_startOffset item = 7 ∧ hl_endOffset item = 12
    ∧ substring (nodeText paddedDoc [0; 0]) (hl_startOffset item) (hl_endOffset item)
      = str " foo "
    ∧ substring (nodeText paddedDoc [0; 0]) (hl_startOffset item) (hl_endOffset item)
      ≠ hl_quote item
    ∧ resolve item paddedDoc
      = Some (XPathParent, {| f_node := [0; 0]; f_start := 0; f_end := 3 |}).
Proof. eexists _, _. split; [reflexivity|]. split_and!; done. Qed.

(** The invariant holds when the selection lies in one text node and its
    string is the text between the offsets with no white space to trim. *)
Lemma unpadded_selection_quote doc selection range info :
  rangeAt0 selection = Some range →
  startContainer range = endContainer range →
  selectionString selection
  = substring (nodeText doc (startContainer range)) (startOffset range) (endOffset range) →
  trim (selectionString selection) = selectionString selection →
  getSelectionInfo doc selection = Selected info →
  si_quote info
  = substring (nodeText doc (startContainer range)) (si_startOffset info) (si_endOffset info).
Proof.
  intros Hr Hsame Hstr Htrim. unfold getSelectionInfo. rewrite Hr, Htrim.
  repeat case_match; try done. intros [= <-]. done.
Qed.

(** [updateHighlight] leaves the id, the quote, the path and the offsets of
    every anchor alone. *)
Lemma mergeUpdates_anchor item updates :
  anchorPart (mergeUpdates item updates) = anchorPart item.
Proof. done. Qed.

Lemma updateFirst_anchor highlightId updates l l' :
  updateFirst highlightId updates l = Some l' → anchorPart <$> l' = anchorPart <$> l.
Proof.
  revert l'. induction l as [|item l IH]; intros l'; [done|]. simpl.
  case_bool_decide.
  - by intros [= <-].
  - destruct (updateFirst highlightId updates l) as [l0|]; [|done].
    intros [= <-]. rewrite !fmap_cons. f_equal. by apply IH.
Qed.

(** ** Removal from storage *)

Lemma filter_all {A} (P : A → Prop) `{∀ x, Decision (P x)} (l : list A) :
  Forall P l → filter P l = l.
Proof.
  induction 1 as [|x l Hx _ IH]; [done|].
  rewrite filter_cons_True by done. by rewrite IH.
Qed.

(** C7. Removing an anchor from a stored page: when it is the page's only
    anchor, the page's entry is deleted from storage; otherwise the entry
    keeps its title and the other anchors, unchanged and in their order. *)
Theorem removeHighlight_spec newURL (highlights : gmap string PageData)
    url highlightId pageTitle before anchor after :
  highlights !! normalizeUrl newURL url
  = Some {| title := pageTitle; items := before ++ anchor :: after |} →
  hl_id anchor = highlightId →
  Forall (fun other => hl_id other ≠ highlightId) (before ++ after) →
  (before ++ after = [] →
     removeHighlight newURL highlights url highlightId
     = delete (normalizeUrl newURL url) highlights)
  ∧ (before ++ after ≠ [] →
       removeHighlight newURL highlights url highlightId
       = <[normalizeUrl newURL url :=
             {| title := pageTitle; items := before ++ after |}]> highlights).
Proof.
  intros Hpage Hid Hothers.
  apply Forall_app in Hothers as [Hb Ha].
  assert (Hfilter : filter (fun item => hl_id item ≠ highlightId)
                      (before ++ anchor :: after) = before ++ after).
  { rewrite filter_app, filter_cons_False by (intros Hne; by apply Hne).
    by rewrite !filter_all. }
  unfold removeHighlight, getHighlightsForUrl, saveHighlightsForUrl.
  rewrite Hpage. cbn [default title items id]. rewrite Hfilter.
  split; intros Hrest.
  - rewrite Hrest. by rewrite bool_decide_eq_true_2.
  - rewrite bool_decide_eq_false_2; [done|].
    intros Hlen. by apply nil_length_inv in Hlen.
Qed.

Lemma removeHighlight_spec_witness :
  removeHighlight noURL foxStore "https://example.com/fox" "hl-1"
  = <["https://example.com/fox" := {| title := "Fox"; items := [otherItem] |}]> foxStore.
Proof.
  refine (proj2 (removeHighlight_spec noURL foxStore "https://example.com/fox" "hl-1"
                   "Fox" [] foxItem [otherItem] _ _ _) _).
  - reflexivity.
  - reflexivity.
  - repeat constructor. discriminate.
  - discriminate.
Defined.

(** A page that is not the one named is left as it was. *)
Lemma removeHighlight_other_page newURL (highlights : gmap string PageData)
    url highlightId key :
  key ≠ normalizeUrl newURL url →
  removeHighlight newURL highlights url highlightId !! key = highlights !! key.
Proof.
  intros Hne. unfold removeHighlight, saveHighlightsForUrl.
  case_bool_decide; [by rewrite lookup_delete_ne | by rewrite lookup_insert_ne].
Qed.

(** ** Import *)

Lemma mergePage_lookup_ne (m : gmap string PageData) u pd url :
  u ≠ url → mergePage m (u, pd) !! url = m !! url.
Proof.
  intros Hne. unfold mergePage. destruct (m !! u); by rewrite lookup_insert_ne.
Qed.

Lemma mergePage_lookup_eq (m : gmap string PageData) url pd :
  mergePage m (url, pd) !! url
  = match m !! url with
    | None => Some pd
    | Some existing =>
        Some {| title := if bool_decide (title existing = "")
                            && bool_decide (title pd ≠ "")
                         then title pd else title existing;
                items := items existing
                         ++ filter (fun i => hl_id i ∉ (hl_id <$> items existing)) (items pd) |}
    end.
Proof. unfold mergePage. destruct (m !! url); by rewrite lookup_insert_eq. Qed.

Lemma foldl_mergePage_absent entries (m : gmap string PageData) url :
  url ∉ entries.*1 → foldl mergePage m entries !! url = m !! url.
Proof.
  revert m. induction entries as [|[u pd] entries IH]; intros m Hnot; [done|].
  cbn [foldl]. rewrite fmap_cons, not_elem_of_cons in Hnot. destruct Hnot as [Hne Hnot].
  rewrite IH by done. apply mergePage_lookup_ne. by intros ->.
Qed.

Lemma foldl_mergePage_present entries (m : gmap string PageData) url pd :
  NoDup (entries.*1) → (url, pd) ∈ entries →
  foldl mergePage m entries !! url = mergePage m (url, pd) !! url.
Proof.
  revert m. induction entries as [|[u pd'] entries IH]; intros m Hnd Hin.
  - by apply elem_of_nil in Hin.
  - rewrite fmap_cons in Hnd. apply NoDup_cons in Hnd as [Hu Hnd].
    cbn [foldl]. apply elem_of_cons in Hin as [[= <- <-] | Hin].
    + by apply foldl_mergePage_absent.
    + assert (u ≠ url).
      { intros ->. apply Hu. by apply (list_elem_of_fmap_2 fst) in Hin. }
      rewrite IH by done. rewrite !mergePage_lookup_eq.
      by rewrite mergePage_lookup_ne.
Qed.

(** The page stored under each URL by a merge that does not raise. *)
Lemma unionMerge_lookup (existingHighlights importedHighlights : gmap string PageData) url :
  unionMerge existingHighlights importedHighlights !! url
  = match importedHighlights !! url with
    | None => existingHighlights !! url
    | Some pd => mergePage existingHighlights (url, pd) !! url
    end.
Proof.
  unfold unionMerge. destruct (importedHighlights !! url) as [pd|] eqn:E.
  - apply foldl_mergePage_present.
    + apply NoDup_fst_map_to_list.
    + by apply elem_of_map_to_list.
  - apply foldl_mergePage_absent. intros Hin.
    apply list_elem_of_fmap in Hin as ([u pd] & -> & Hin).
    apply elem_of_map_to_list in Hin. simpl in E. congruence.
Qed.

Lemma importPage_cases (m : gmap string PageData) url pd :
  (m !! url = None ∧ url ∈ objectPrototypeNames ∧ importPage m (url, pd) = None)
  ∨ (¬ (m !! url = None ∧ url ∈ objectPrototypeNames)
     ∧ importPage m (url, pd) = Some (mergePage m (url, pd))).
Proof.
  unfold importPage, mergePage. destruct (m !! url) as [existing|].
  - right. split; [by intros [? _] | done].
  - case_bool_decide as Hin; [by left|]. right. split; [by intros [_ ?] | done].
Qed.

Lemma foldl_importPage_None entries :
  foldl (fun acc entry => acc ≫= fun highlights => importPage highlights entry)
        None entries = None.
Proof. by induction entries. Qed.

Lemma foldl_importPage_raises entries (m : gmap string PageData) url pd :
  NoDup (entries.*1) → (url, pd) ∈ entries →
  url ∈ objectPrototypeNames → m !! url = None →
  foldl (fun acc entry => acc ≫= fun highlights => importPage highlights entry)
        (Some m) entries = None.
Proof.
  revert m. induction entries as [|[u pd'] entries IH]; intros m Hnd Hin Hproto Hm.
  - by apply elem_of_nil in Hin.
  - rewrite fmap_cons in Hnd. apply NoDup_cons in Hnd as [Hu Hnd]. cbn [foldl mbind option_bind].
    destruct (importPage_cases m u pd') as [(_ & _ & ->) | [Hok ->]];
      [apply foldl_importPage_None|].
    apply elem_of_cons in Hin as [[= <- <-] | Hin]; [by destruct Hok|].
    apply IH; [done..|]. rewrite mergePage_lookup_ne; [done|].
    intros ->. apply Hu. by apply (list_elem_of_fmap_2 fst) in Hin.
Qed.

Lemma foldl_importPage_merges entries (m : gmap string PageData) :
  NoDup (entries.*1) →
  (∀ url pd, (url, pd) ∈ entries → url ∈ objectPrototypeNames → is_Some (m !! url)) →
  foldl (fun acc entry => acc ≫= fun highlights => importPage highlights entry)
        (Some m) entries = Some (foldl mergePage m entries).
Proof.
  revert m. induction entries as [|[u pd] entries IH]; intros m Hnd Hok; [done|].
  rewrite fmap_cons in Hnd. apply NoDup_cons in Hnd as [Hu Hnd]. cbn [foldl mbind option_bind].
  destruct (importPage_cases m u pd) as [(Hm & Hproto & _) | [_ ->]].
  - destruct (Hok u pd (list_elem_of_here _ _) Hproto) as [x Hx]. congruence.
  - apply IH; [done|]. intros url pd' Hin Hproto.
    rewrite mergePage_lookup_ne.
    + eapply Hok; [by apply list_elem_of_further | done].
    + intros ->. apply Hu. by apply (list_elem_of_fmap_2 fst) in Hin.
Qed.

(** The import raises, and writes nothing, exactly when the file has a key
    that names a member of [Object.prototype] and that the store lacks;
    otherwise it stores the union merge. *)
Lemma importEntries_raises (existingHighlights importedHighlights : gmap string PageData) :
  HitsPrototype existingHighlights importedHighlights →
  importEntries existingHighlights importedHighlights = None.
Proof.
  intros (url & Hproto & [pd Hpd] & Hm). unfold importEntries.
  eapply foldl_importPage_raises; [apply NoDup_fst_map_to_list | | done | done].
  by apply elem_of_map_to_list.
Qed.

Lemma importEntries_merges (existingHighlights importedHighlights : gmap string PageData) :
  ¬ HitsPrototype existingHighlights importedHighlights →
  importEntries existingHighlights importedHighlights
  = Some (unionMerge existingHighlights importedHighlights).
Proof.
  intros Hno. unfold importEntries, unionMerge.
  apply foldl_importPage_merges; [apply NoDup_fst_map_to_list|].
  intros url pd Hin%elem_of_map_to_list Hproto.
  destruct (existingHighlights !! url) as [x|] eqn:E; [by eexists|].
  destruct Hno. by exists url.
Qed.

Lemma HitsPrototype_dec (existingHighlights importedHighlights : gmap string PageData) :
  HitsPrototype existingHighlights importedHighlights
  ∨ ¬ HitsPrototype existingHighlights importedHighlights.
Proof.
  unfold HitsPrototype.
  destruct (decide (Exists (fun url => is_Some (importedHighlights !! url)
                                       ∧ existingHighlights !! url = None)
                      objectPrototypeNames)) as [Hex | Hno].
  - left. apply Exists_exists in Hex as (url & ? & ? & ?). by exists url.
  - right. intros (url & ? & ? & ?). apply Hno, Exists_exists. by exists url.
Qed.

Lemma importHighlights_cases (existingHighlights importedHighlights : gmap string PageData) :
  (HitsPrototype existingHighlights importedHighlights
   ∧ importHighlights existingHighlights importedHighlights = existingHighlights)
  ∨ (¬ HitsPrototype existingHighlights importedHighlights
     ∧ importHighlights existingHighlights importedHighlights
       = unionMerge existingHighlights importedHighlights).
Proof.
  unfold importHighlights.
  destruct (HitsPrototype_dec existingHighlights importedHighlights) as [Hhit | Hno].
  - left. by rewrite importEntries_raises.
  - right. by rewrite importEntries_merges.
Qed.

(** C8 fails on the code for a file with a key such as [constructor]: the
    handler raises and [highlights] stays as it was, so the anchors of the
    file, none of whose ids the store has, are not added, also not those
    under the ordinary key. *)
Theorem import_prototype_key_raises :
  importEntries foxStore importedConstructor = None
  ∧ importHighlights foxStore importedConstructor = foxStore
  ∧ importHighlights foxStore importedConstructor !! "https://example.com/new" = None.
Proof.
  assert (Hraise : importEntries foxStore importedConstructor = None).
  { apply importEntries_raises. exists "constructor". split_and!.
    - apply elem_of_cons. by left.
    - by eexists.
    - done. }
  unfold importHighlights. rewrite Hraise. by split_and!.
Qed.

(** X23. Import as a union merge by anchor id within each page, when the
    file has no key that names a member of [Object.prototype] and that the store
    lacks: the anchors a stored page had stay where they were, unchanged, at
    the front of the page's list; an imported anchor whose id no stored
    anchor has is in the page it was imported for; and only imported
    anchors whose id the stored page lacked are added to it. *)
Theorem import_union_merge (existingHighlights importedHighlights : gmap string PageData) :
  ¬ HitsPrototype existingHighlights importedHighlights →
  (∀ url page,
     existingHighlights !! url = Some page →
     ∃ added,
       items <$> (importHighlights existingHighlights importedHighlights !! url)
       = Some (items page ++ added)
       ∧ Forall (fun a => (hl_id a ∉ (hl_id <$> items page))
                          ∧ ∃ imported, importedHighlights !! url = Some imported
                                        ∧ a ∈ items imported) added)
  ∧ (∀ url imported a,
       importedHighlights !! url = Some imported →
       a ∈ items imported →
       (∀ u page b, existingHighlights !! u = Some page → b ∈ items page →
                    hl_id b ≠ hl_id a) →
       ∃ page', importHighlights existingHighlights importedHighlights !! url = Some page'
                ∧ a ∈ items page').
Proof.
  intros Hno.
  destruct (importHighlights_cases existingHighlights importedHighlights)
    as [[Hhit _] | [_ ->]]; [done|].
  split.
  - intros url page Hpage. rewrite unionMerge_lookup.
    destruct (importedHighlights !! url) as [pd|] eqn:E.
    + rewrite mergePage_lookup_eq, Hpage. eexists. split; [done|].
      apply Forall_forall. intros a [Hfresh Hin]%list_elem_of_filter.
      split; [done|]. by exists pd.
    + rewrite Hpage. exists []. by rewrite app_nil_r.
  - intros url imported a Himp Hin Hfresh. rewrite unionMerge_lookup, Himp.
    rewrite mergePage_lookup_eq.
    destruct (existingHighlights !! url) as [page|] eqn:E.
    + eexists. split; [done|]. cbn [items]. apply elem_of_app. right.
      apply list_elem_of_filter. split; [|done].
      intros (b & Hid & Hb)%list_elem_of_fmap. by eapply Hfresh.
    + by exists imported.
Qed.

Lemma no_prototype_key_overlap : ¬ HitsPrototype foxStore importedOverlap.
Proof.
  intros (url & _ & [pd Hpd] & Hnone). unfold importedOverlap in Hpd.
  apply lookup_singleton_Some in Hpd as [<- _]. done.
Qed.

(** The stored note "old" of [hl-9] survives an import that carries the note
    "important" for the same id; the anchor the page lacked is appended. *)
Example import_existing_wins :
  importHighlights foxStore importedOverlap !! "https://example.com/fox"
  = Some {| title := "Fox"; items := [foxItem; otherItem; emptyQuoteItem] |}.
Proof. vm_compute. reflexivity. Qed.

Lemma import_union_merge_witness :
  ∃ page', importHighlights foxStore importedOverlap !! "https://example.com/fox"
           = Some page'
           ∧ emptyQuoteItem ∈ items page'.
Proof.
  refine (proj2 (import_union_merge foxStore importedOverlap no_prototype_key_overlap)
            "https://example.com/fox" _ emptyQuoteItem _ _ _).
  - vm_compute. reflexivity.
  - cbn [items]. apply elem_of_cons. right. apply list_elem_of_here.
  - intros u page b Hpage Hb.
    destruct (decide (u = "https://example.com/fox")) as [->|Hne].
    + vm_compute in Hpage. injection Hpage as <-. cbn [items] in Hb.
      apply elem_of_cons in Hb as [-> | Hb]; [discriminate|].
      apply elem_of_cons in Hb as [-> | Hb]; [discriminate|].
      by apply elem_of_nil in Hb.
    + unfold foxStore in Hpage. by rewrite lookup_singleton_ne in Hpage.
Defined.

(** ** URL normalisation *)





























(** ** Changing the document at a path *)

Lemma alterAt_alterAt f g n p n' :
  alterAt f n p = Some n' →
  alterAt g n' p
  = alterAt (fun m => match f m with Some m' => g m' | None => None end) n p.
Proof.
  revert n n'. induction p as [|k p IH]; intros n n'; simpl.
  - by intros ->.
  - destruct n as [d | t h cs]; [done|].
    destruct (cs !! k) as [c|] eqn:Hk; [|done].
    destruct (alterAt f c p) as [c'|] eqn:Hc; [|done].
    intros [= <-]. simpl.
    rewrite list_lookup_insert_eq by (by eapply lookup_lt_Some).
    rewrite (IH _ _ Hc).
    case_match; [|done]. by rewrite list_insert_insert_eq.
Qed.

Lemma alterAt_ext f g n p :
  (∀ m, getNode n p = Some m → f m = g m) → alterAt f n p = alterAt g n p.
Proof.
  revert n. induction p as [|k p IH]; intros n Hfg; simpl.
  - by apply Hfg.
  - destruct n as [d | t h cs]; [done|].
    destruct (cs !! k) as [c|] eqn:Hk; [|done].
    rewrite (IH c); [done|]. intros m Hm. apply Hfg. simpl. by rewrite Hk.
Qed.

Lemma getNode_alterAt f n p n' :
  alterAt f n p = Some n' →
  ∃ m m', getNode n p = Some m ∧ f m = Some m' ∧ getNode n' p = Some m'.
Proof.
  revert n n'. induction p as [|k p IH]; intros n n'; simpl.
  - intros H. by exists n, n'.
  - destruct n as [d | t h cs]; [done|].
    destruct (cs !! k) as [c|] eqn:Hk; [|done].
    destruct (alterAt f c p) as [c'|] eqn:Hc; [|done].
    intros [= <-]. destruct (IH _ _ Hc) as (m & m' & ? & ? & ?).
    exists m, m'. split_and!; [done | done |]. simpl.
    by rewrite list_lookup_insert_eq by (by eapply lookup_lt_Some).
Qed.

Lemma splitLast_snoc p k : splitLast (p ++ [k]) = Some (p, k).
Proof.
  induction p as [|j p IH]; [done|].
  simpl. rewrite IH. by destruct p.
Qed.

(** ** Text content and normalisation *)

Lemma mergeTexts_app_congr A X Y :
  mergeTexts X = mergeTexts Y → mergeTexts (A ++ X) = mergeTexts (A ++ Y).
Proof.
  intros H. induction A as [|[d | t h k] A IH]; simpl; [done | by rewrite IH ..].
Qed.

Lemma mergeTexts_text2 a b B :
  mergeTexts (Text a :: Text b :: B) = mergeTexts (Text (a ++ b) :: B).
Proof.
  simpl. destruct (mergeTexts B) as [|[d' | t h k] r].
  - destruct b as [|c b]; simpl.
    + by rewrite app_nil_r.
    + destruct a; done.
  - by rewrite app_assoc.
  - destruct b as [|c b]; simpl.
    + by rewrite app_nil_r.
    + destruct a; done.
Qed.

Lemma textContent_mergeTexts l :
  concat (textContent <$> mergeTexts l) = concat (textContent <$> l).
Proof.
  induction l as [|[d | t h k] l IH]; [done | |].
  - rewrite fmap_cons. cbn [mergeTexts concat]. rewrite <- IH.
    destruct (mergeTexts l) as [|[d' | t' h' k'] r].
    + case_bool_decide; subst; done.
    + rewrite !fmap_cons. cbn [concat textContent]. by rewrite app_assoc.
    + case_bool_decide; subst; done.
  - cbn [mergeTexts]. rewrite !fmap_cons. cbn [concat]. by rewrite IH.
Qed.

Lemma textContent_normalize n : textContent (normalize n) = textContent n.
Proof.
  induction n as [d | t h cs IH] using Node_tree_ind; [done|].
  simpl. rewrite textContent_mergeTexts. f_equal.
  rewrite <- list_fmap_compose. apply Forall_fmap_ext_1.
  eapply Forall_impl; [exact IH|]. done.
Qed.

(** What [surroundText] makes of a text node. *)
Lemma surroundText_Some d s e id new :
  surroundText d s e id = Some new →
  ∃ a kids b,
    new = [Text a; createHighlightSpan id (Text <$> kids); Text b]
    ∧ a ++ concat kids ++ b = d.
Proof.
  unfold surroundText.
  destruct (bool_decide (length d < s) || bool_decide (length d < e)); [done|].
  destruct (bool_decide (e ≤ s)) eqn:Hes.
  - intros [= <-]. exists (take e d), [], (drop e d). split; [done|].
    simpl. apply take_drop.
  - apply bool_decide_eq_false in Hes. intros [= <-]. exists (take s d), [take (e - s) (drop s d)], (drop e d).
    split; [done|]. simpl. rewrite app_nil_r.
    rewrite <- (take_drop s d) at 4. f_equal.
    rewrite <- (take_drop (e - s) (drop s d)) at 2. f_equal.
    rewrite drop_drop. f_equal. lia.
Qed.

(** ** Wrapping and unwrapping *)

Lemma spliceChild_wrap s e id k m m1 :
  spliceChild (wrapTextNode s e id) k m = Some m1 →
  ∃ t h cs d a kids b,
    m = Elem t h cs ∧ cs !! k = Some (Text d) ∧ a ++ concat kids ++ b = d
    ∧ m1 = Elem t h (take k cs
                      ++ [Text a; createHighlightSpan id (Text <$> kids); Text b]
                      ++ drop (S k) cs).
Proof.
  destruct m as [d0 | t h cs]; [done|]. simpl.
  destruct (cs !! k) as [[d | t' h' cs']|] eqn:Hk; [|done..]. simpl.
  destruct (surroundText d s e id) as [new|] eqn:Hs; [|done].
  intros [= <-]. apply surroundText_Some in Hs as (a & kids & b & -> & Hd).
  by exists t, h, cs, d, a, kids, b.
Qed.

Lemma mergeTexts_run a kids b B :
  mergeTexts (Text a :: (Text <$> kids) ++ Text b :: B)
  = mergeTexts (Text (a ++ concat kids ++ b) :: B).
Proof.
  revert a. induction kids as [|x kids IH]; intros a.
  - apply mergeTexts_text2.
  - rewrite fmap_cons. cbn [app concat]. rewrite mergeTexts_text2, IH.
    by rewrite <- !app_assoc.
Qed.

Lemma normalize_text_run (kids : list jsstr) : normalize <$> (Text <$> kids) = Text <$> kids.
Proof. rewrite <- list_fmap_compose. by apply list_fmap_ext. Qed.

(** Unwrapping the span just put around part of the child [k] gives the
    normalised parent. *)
Lemma unwrap_after_wrap s e id k m m1 :
  spliceChild (wrapTextNode s e id) k m = Some m1 →
  unwrapChild (S k) m1 = Some (normalize m).
Proof.
  intros (t & h & cs & d & a & kids & b & -> & Hk & Hd & ->)%spliceChild_wrap.
  assert (Hlen : length (take k cs) = k).
  { rewrite length_take. apply lookup_lt_Some in Hk. lia. }
  unfold unwrapChild, spliceChild.
  rewrite lookup_app_r by lia. rewrite Hlen.
  replace (S k - k) with 1 by lia. cbn [lookup list_lookup app createHighlightSpan].
  cbn [fmap option_fmap option_map]. f_equal.
  rewrite take_app_ge, drop_app_ge by lia. rewrite Hlen.
  replace (S k - k) with 1 by lia. replace (S (S k) - k) with 2 by lia.
  cbn [take drop app]. cbn [normalize]. f_equal.
  rewrite <- (take_drop_middle cs k (Text d)) at 3 by done.
  rewrite !fmap_app, !fmap_cons, normalize_text_run. cbn [normalize].
  rewrite <- !app_assoc. apply mergeTexts_app_congr.
  rewrite ?fmap_nil. cbn [app].
  rewrite mergeTexts_run. by rewrite Hd.
Qed.

(** ** Markers under a change of the document *)

Lemma walkChildren_app {B} (f : Node → list (path * B)) k l1 l2 :
  walkChildren f k (l1 ++ l2)
  = walkChildren f k l1 ++ walkChildren f (k + length l1) l2.
Proof.
  revert k. induction l1 as [|c l1 IH]; intros k; simpl.
  - by rewrite Nat.add_0_r.
  - rewrite IH, <- app_assoc. do 3 f_equal. lia.
Qed.

Lemma snd_walkChildren {B} (f : Node → list (path * B)) k cs :
  (walkChildren f k cs).*2 = cs ≫= fun c => (f c).*2.
Proof.
  revert k. induction cs as [|c cs IH]; intros k; [done|].
  cbn [walkChildren]. rewrite fmap_app, IH, <- list_fmap_compose. done.
Qed.

Lemma markerIds_Elem t h cs : markerIds (Elem t h cs) = cs ≫= nodeIds.
Proof.
  unfold markerIds. cbn [markers]. rewrite snd_walkChildren.
  apply list_bind_ext; [|done]. intros c. by rewrite fmap_app.
Qed.

Lemma firstMarker_app id l1 l2 :
  firstMarker id (l1 ++ l2)
  = match firstMarker id l1 with Some p => Some p | None => firstMarker id l2 end.
Proof.
  induction l1 as [|[p h] l1 IH]; [done|]. simpl. by case_bool_decide.
Qed.

Lemma firstMarker_cons_path hid k l :
  firstMarker hid (prod_map (cons k) id <$> l) = cons k <$> firstMarker hid l.
Proof.
  induction l as [|[p h] l IH]; [done|]. simpl. by case_bool_decide.
Qed.

Lemma firstMarker_None id l : firstMarker id l = None ↔ id ∉ l.*2.
Proof.
  induction l as [|[p h] l IH]; simpl.
  - split; [intros _ ?%elem_of_nil | ]; done.
  - rewrite not_elem_of_cons, <- IH. case_bool_decide as Hh.
    + split; [done | by intros [? _]].
    + split; [intros ?; split; [|done]; by intros -> | by intros [_ ?]].
Qed.

Lemma firstMarker_walkChildren_skip id f k l1 rest :
  (∀ c, c ∈ l1 → id ∉ (f c).*2) →
  firstMarker id (walkChildren f k (l1 ++ rest))
  = firstMarker id (walkChildren f (k + length l1) rest).
Proof.
  intros Hfresh. rewrite walkChildren_app, firstMarker_app.
  rewrite (proj2 (firstMarker_None id _)); [done|].
  rewrite snd_walkChildren. intros (c & Hin & Hc)%list_elem_of_bind.
  by eapply Hfresh.
Qed.

Lemma not_elem_of_markerIds_Elem id t h cs c :
  id ∉ markerIds (Elem t h cs) → c ∈ cs → id ∉ nodeIds c.
Proof.
  rewrite markerIds_Elem. intros Hnot Hc Hin. apply Hnot.
  apply list_elem_of_bind. by exists c.
Qed.

Lemma alterAt_spliceChild_own g k c p c' :
  alterAt (spliceChild g k) c p = Some c' → ownMarker c' = ownMarker c.
Proof.
  destruct p as [|j p]; simpl.
  - destruct c as [d | t h cs]; [done|]. simpl.
    destruct (cs !! k); [|done]. destruct (g _); [|done]. by intros [= <-].
  - destruct c as [d | t h cs]; [done|].
    destruct (cs !! j); [|done]. destruct (alterAt _ _ _); [|done]. by intros [= <-].
Qed.

(** After a wrap with a fresh id, the selector finds the new span: it is
    the child after the first part of the split text node. *)
Lemma firstMarker_after_wrap s e id k doc pp doc1 :
  id ∉ markerIds doc →
  alterAt (spliceChild (wrapTextNode s e id) k) doc pp = Some doc1 →
  firstMarker id (markers doc1) = Some (pp ++ [S k]).
Proof.
  revert doc doc1.
  induction pp as [|j pp IH]; intros doc doc1 Hfresh; simpl.
  - intros (t & h & cs & d & a & kids & b & -> & Hk & Hd & ->)%spliceChild_wrap.
    cbn [markers].
    rewrite firstMarker_walkChildren_skip.
    + rewrite length_take_le by (apply lookup_lt_Some in Hk; lia).
      cbn [app walkChildren ownMarker markers createHighlightSpan fmap list_fmap].
      simpl. by rewrite bool_decide_eq_true_2.
    + intros c Hc. rewrite fmap_app.
      eapply (not_elem_of_markerIds_Elem id t h cs); [done|].
      by eapply subseteq_take.
  - destruct doc as [d | t h cs]; [done|].
    destruct (cs !! j) as [c|] eqn:Hj; [|done].
    destruct (alterAt _ c pp) as [c'|] eqn:Hc; [|done].
    intros [= <-]. cbn [markers].
    assert (Hcfresh : id ∉ nodeIds c).
    { eapply not_elem_of_markerIds_Elem; [done|]. by eapply list_elem_of_lookup_2. }
    unfold nodeIds in Hcfresh. rewrite not_elem_of_app in Hcfresh.
    destruct Hcfresh as [Hown Hbelow].
    rewrite insert_take_drop by (by eapply lookup_lt_Some).
    rewrite firstMarker_walkChildren_skip.
    + rewrite length_take_le by (apply lookup_lt_Some in Hj; lia).
      cbn [walkChildren]. rewrite firstMarker_app, firstMarker_cons_path, firstMarker_app.
      rewrite (alterAt_spliceChild_own _ _ _ _ _ Hc).
      rewrite (proj2 (firstMarker_None id (ownMarker c))) by done.
      by rewrite (IH _ _ Hbelow Hc).
    + intros c0 Hc0. rewrite fmap_app.
      eapply (not_elem_of_markerIds_Elem id t h cs); [done|].
      by eapply subseteq_take.
Qed.

Lemma alterAt_is_Some f n p m m' :
  getNode n p = Some m → f m = Some m' → is_Some (alterAt f n p).
Proof.
  revert n. induction p as [|k p IH]; intros n; simpl.
  - intros [= ->] ->. by eexists.
  - destruct n as [d | t h cs]; [done|].
    destruct (cs !! k) as [c|]; [|done].
    intros Hm Hf. destruct (IH _ Hm Hf) as [c' ->]. by eexists.
Qed.

Lemma textContent_alterAt f n p n' :
  (∀ m m', f m = Some m' → textContent m' = textContent m) →
  alterAt f n p = Some n' → textContent n' = textContent n.
Proof.
  intros Hf. revert n n'. induction p as [|k p IH]; intros n n'; simpl.
  - apply Hf.
  - destruct n as [d | t h cs]; [done|].
    destruct (cs !! k) as [c|] eqn:Hk; [|done].
    destruct (alterAt f c p) as [c'|] eqn:Hc; [|done].
    intros [= <-]. simpl. f_equal.
    rewrite list_fmap_insert, (IH _ _ Hc).
    apply list_insert_id. by rewrite list_lookup_fmap, Hk.
Qed.

Lemma alterAt_id f n p n' :
  (∀ m, getNode n p = Some m → f m = Some m) → alterAt f n p = Some n' → n' = n.
Proof.
  revert n n'. induction p as [|k p IH]; intros n n' Hf; simpl.
  - rewrite Hf by done. by intros [= ->].
  - destruct n as [d | t h cs]; [done|].
    destruct (cs !! k) as [c|] eqn:Hk; [|done].
    destruct (alterAt f c p) as [c'|] eqn:Hc; [|done].
    intros [= <-]. f_equal. apply IH in Hc as ->.
    + by apply list_insert_id.
    + intros m Hm. apply Hf. simpl. by rewrite Hk.
Qed.

Lemma textContent_spliceChild g k m m' :
  (∀ c new, g c = Some new → concat (textContent <$> new) = textContent c) →
  spliceChild g k m = Some m' → textContent m' = textContent m.
Proof.
  intros Hg. destruct m as [d | t h cs]; [done|]. simpl.
  destruct (cs !! k) as [c|] eqn:Hk; [|done].
  destruct (g c) as [new|] eqn:Hc; [|done].
  intros [= <-]. simpl.
  rewrite <- (take_drop_middle cs k c) at 3 by done.
  rewrite !fmap_app, !concat_app, fmap_cons. cbn [concat].
  by rewrite (Hg _ _ Hc).
Qed.

Lemma textContent_text_run (kids : list jsstr) :
  concat (textContent <$> (Text <$> kids)) = concat kids.
Proof. rewrite <- list_fmap_compose. f_equal. by apply list_fmap_id. Qed.

Lemma surroundChildren_Some cs s e id new :
  surroundChildren cs s e id = Some new →
  ∃ a kids b, new = a ++ [createHighlightSpan id kids] ++ b ∧ a ++ kids ++ b = cs.
Proof.
  unfold surroundChildren.
  destruct (bool_decide (length cs < s) || bool_decide (length cs < e)); [done|].
  destruct (bool_decide (e ≤ s)) eqn:Hes.
  - intros [= <-]. exists (take e cs), [], (drop e cs). split; [done|].
    apply take_drop.
  - apply bool_decide_eq_false in Hes. intros [= <-].
    exists (take s cs), (take (e - s) (drop s cs)), (drop e cs). split; [done|].
    rewrite <- (take_drop s cs) at 4. f_equal.
    rewrite <- (take_drop (e - s) (drop s cs)) at 2. f_equal.
    rewrite drop_drop. f_equal. lia.
Qed.

Lemma wrapChildren_Some s e id m m' :
  wrapChildren s e id m = Some m' →
  ∃ t h a kids b,
    m = Elem t h (a ++ kids ++ b)
    ∧ m' = Elem t h (a ++ [createHighlightSpan id kids] ++ b).
Proof.
  destruct m as [d | t h cs]; [done|]. simpl.
  destruct (surroundChildren cs s e id) as [new|] eqn:Hs; [|done].
  intros [= <-]. apply surroundChildren_Some in Hs as (a & kids & b & -> & <-).
  by exists t, h, a, kids, b.
Qed.

Lemma textContent_wrapChildren s e id m m' :
  wrapChildren s e id m = Some m' → textContent m' = textContent m.
Proof.
  intros (t & h & a & kids & b & -> & ->)%wrapChildren_Some.
  cbn [textContent createHighlightSpan].
  rewrite !fmap_app, !concat_app. cbn [fmap list_fmap concat textContent].
  by rewrite app_nil_r.
Qed.

(** A wrap never changes the text of the document. *)
Lemma applyHighlightToTextNode_textContent doc textNode s e item :
  textContent (applyHighlightToTextNode doc textNode s e item).2 = textContent doc.
Proof.
  unfold applyHighlightToTextNode.
  destruct (getNode doc textNode) as [[d0 | t0 h0 cs0]|]; [| |done].
  - destruct (splitLast textNode) as [[pp k]|]; [|done].
    destruct (alterAt _ doc pp) as [doc1|] eqn:Hw; [|done].
    eapply textContent_alterAt; [|exact Hw].
    intros m m'. apply textContent_spliceChild.
    intros [d | t h cs] new; [|done]. simpl.
    intros (a & kids & b & -> & <-)%surroundText_Some.
    cbn [fmap list_fmap concat textContent createHighlightSpan].
    by rewrite textContent_text_run, app_nil_r.
  - destruct (alterAt _ doc textNode) as [doc1|] eqn:Hw; [|done].
    eapply textContent_alterAt; [|exact Hw].
    intros m m'. apply textContent_wrapChildren.
Qed.

(** Nor does the removal of a span. *)
Lemma removeHighlightSpan_textContent querySelector id doc flag doc' :
  removeHighlightSpan querySelector id doc = Returns (flag, doc') →
  textContent doc' = textContent doc.
Proof.
  unfold removeHighlightSpan.
  destruct (querySelector _ doc) as [span| |]; [|by intros [= _ <-] | done].
  destruct (splitLast span) as [[pp k]|]; [|by intros [= _ <-]].
  destruct (alterAt _ doc pp) as [doc1|] eqn:Hu; [|by intros [= _ <-]].
  intros [= _ <-].
  eapply textContent_alterAt; [|exact Hu].
  intros m m'. unfold unwrapChild.
  destruct (spliceChild _ k m) as [m1|] eqn:Hm1; [|done].
  intros [= <-]. rewrite textContent_normalize.
  eapply textContent_spliceChild; [|exact Hm1].
  intros [d | t h cs] new; [done|]. by intros [= <-].
Qed.

(** ** The marker selector as CSS reads it *)

Lemma cssQuerySelector_css : CssSelectors cssQuerySelector.
Proof.
  intros selector doc. unfold cssQuerySelector.
  by destruct (selectorMeaning selector).
Qed.

Lemma cssString_plain id :
  plainId id = true →
  cssString CssText (id ++ doubleQuote ++ "]")%string = AttrEquals id.
Proof.
  induction id as [|c id IH]; [done|].
  cbn [plainId]. intros [Hc Hid]%andb_true_iff.
  unfold plainChar in Hc. apply negb_true_iff, bool_decide_eq_false in Hc.
  rewrite !not_elem_of_cons in Hc. destruct Hc as (H0 & H10 & H12 & H13 & H34 & H92 & _).
  change (cssString CssText (String c (id ++ doubleQuote ++ "]")%string)
          = AttrEquals (String c id)).
  cbn [cssString].
  rewrite (bool_decide_eq_false_2 (nat_of_ascii c = 34)) by done.
  rewrite (bool_decide_eq_false_2 (nat_of_ascii c ∈ [10; 12; 13])).
  2:{ rewrite !elem_of_cons. intros [?|[?|[?|?%elem_of_nil]]]; done. }
  rewrite (bool_decide_eq_false_2 (nat_of_ascii c = 0)) by done.
  rewrite (bool_decide_eq_false_2 (nat_of_ascii c = 92)) by done.
  by rewrite IH.
Qed.

(** An id without a double quote, a backslash, a line break or a zero
    reads as itself. *)
Lemma selectorMeaning_plain id :
  plainId id = true → selectorMeaning (markerSelector id) = AttrEquals id.
Proof.
  intros Hid. unfold selectorMeaning, markerSelector. simpl. by apply cssString_plain.
Qed.

Lemma css_query_value querySelector id value doc :
  CssSelectors querySelector →
  selectorMeaning (markerSelector id) = AttrEquals value →
  querySelector (markerSelector id) doc = elementWithId value doc.
Proof. intros Hcss Hid. specialize (Hcss (markerSelector id) doc). by rewrite Hid in Hcss. Qed.

Lemma css_query_plain querySelector id doc :
  CssSelectors querySelector → plainId id = true →
  querySelector (markerSelector id) doc = elementWithId id doc.
Proof. intros Hcss Hid. by apply css_query_value, selectorMeaning_plain. Qed.

(** ** Wrapping and then unwrapping *)

Lemma toUnsignedLong_small n :
  (N.of_nat n < 4294967296)%N → toUnsignedLong n = n.
Proof.
  intros Hn. unfold toUnsignedLong. rewrite N.mod_small by done. apply Nat2N.id.
Qed.

(** X21. Wrapping a range of a text node in a span with a fresh id, free of
    the code units that have a meaning of their own in the selector, and then
    removing that span succeeds and leaves the document as it was before
    the wrap except that the text node's parent is normalised (the span's
    children are spliced in its place and adjacent text nodes merged); the
    text content of the parent, and of the whole document, is what it was
    before the wrap; a parent that was normalised before the wrap gets its
    child nodes back as they were. *)
Theorem wrap_unwrap_roundtrip querySelector doc textNode text s e item doc1 :
  CssSelectors querySelector →
  plainId (hl_id item) = true →
  hl_id item ∉ markerIds doc →
  getNode doc textNode = Some (Text text) →
  applyHighlightToTextNode doc textNode s e item = (true, doc1) →
  ∃ parent k doc2,
    splitLast textNode = Some (parent, k)
    ∧ removeHighlightSpan querySelector (hl_id item) doc1 = Returns (true, doc2)
    ∧ alterAt (fun m => Some (normalize m)) doc parent = Some doc2
    ∧ nodeText doc2 parent = nodeText doc parent
    ∧ textContent doc2 = textContent doc
    ∧ (∀ m, getNode doc parent = Some m → normalize m = m → doc2 = doc).
Proof.
  intros Hcss Hplain Hfresh Htext. unfold applyHighlightToTextNode. rewrite Htext.
  destruct (splitLast textNode) as [[pp k]|] eqn:Hsplit; [|done].
  destruct (alterAt _ doc pp) as [doc1'|] eqn:Hwrap; [|done].
  intros [= <-].
  destruct (getNode_alterAt _ _ _ _ Hwrap) as (m & m1 & Hm & Hm1 & _).
  destruct (alterAt_is_Some (fun m => Some (normalize m)) doc pp m _ Hm eq_refl)
    as [doc2 Hdoc2].
  assert (Hunwrap : alterAt (unwrapChild (S k)) doc1' pp = Some doc2).
  { rewrite (alterAt_alterAt _ _ _ _ _ Hwrap), <- Hdoc2.
    apply alterAt_ext. intros m0 Hm0.
    assert (m0 = m) as -> by congruence.
    rewrite Hm1. by apply unwrap_after_wrap in Hm1. }
  exists pp, k, doc2. split_and!; [done | | done | | |].
  - unfold removeHighlightSpan.
    rewrite (css_query_plain _ _ _ Hcss Hplain). unfold elementWithId.
    rewrite (firstMarker_after_wrap _ _ _ _ _ _ _ Hfresh Hwrap).
    by rewrite splitLast_snoc, Hunwrap.
  - destruct (getNode_alterAt _ _ _ _ Hdoc2) as (m0 & m' & Hm0 & [= <-] & Hm').
    unfold nodeText. rewrite Hm0, Hm'. apply textContent_normalize.
  - eapply textContent_alterAt; [|exact Hdoc2].
    intros ? ? [= <-]. apply textContent_normalize.
  - intros m0 Hm0 Hnorm. eapply alterAt_id; [|exact Hdoc2].
    intros m' Hm'. assert (m' = m0) as -> by congruence. by rewrite Hnorm.
Qed.

Lemma wrap_unwrap_roundtrip_witness :
  ∃ parent k doc2,
    splitLast [0; 0] = Some (parent, k)
    ∧ removeHighlightSpan cssQuerySelector (hl_id foxItem)
        (applyHighlightToTextNode foxDoc [0; 0] 25 40 foxItem).2 = Returns (true, doc2)
    ∧ alterAt (fun m => Some (normalize m)) foxDoc parent = Some doc2
    ∧ nodeText doc2 parent = nodeText foxDoc parent
    ∧ textContent doc2 = textContent foxDoc
    ∧ (∀ m, getNode foxDoc parent = Some m → normalize m = m → doc2 = foxDoc).
Proof.
  refine (wrap_unwrap_roundtrip cssQuerySelector foxDoc [0; 0] foxText 25 40 foxItem _
            cssQuerySelector_css _ _ _ _).
  - reflexivity.
  - vm_compute. apply not_elem_of_nil.
  - reflexivity.
  - reflexivity.
Defined.

(** C6 fails on the code for an id with a backslash, as an imported
    anchor may have: the span is made with the id as it is, but in the
    selector the backslash and the [b] after it read as the code point 11,
    so [removeHighlightSpan] finds no element, reports failure and leaves
    the span in the document. *)
Theorem unwrap_misses_escaped_id querySelector :
  CssSelectors querySelector →
  applyHighlightToTextNode foxDoc [0; 0] 25 40 escapedItem = (true, escapedDoc)
  ∧ markerIds escapedDoc = [hl_id escapedItem]
  ∧ removeHighlightSpan querySelector (hl_id escapedItem) escapedDoc
    = Returns (false, escapedDoc).
Proof.
  intros Hcss. split_and!; [reflexivity | reflexivity |].
  unfold removeHighlightSpan.
  assert (Hread : selectorMeaning (markerSelector (hl_id escapedItem))
                  = AttrEquals (String "a" (String "011" EmptyString))) by reflexivity.
  by rewrite (css_query_value _ _ _ escapedDoc Hcss Hread).
Qed.

Lemma unwrap_misses_escaped_id_witness :
  removeHighlightSpan cssQuerySelector (hl_id escapedItem) escapedDoc
  = Returns (false, escapedDoc).
Proof. exact (proj2 (proj2 (unwrap_misses_escaped_id cssQuerySelector cssQuerySelector_css))). Defined.

(** ** Restoration creates at most one wrapper per id *)

Lemma nodeIds_text_run (kids : list jsstr) : (Text <$> kids) ≫= nodeIds = [].
Proof. induction kids as [|x kids IH]; [done|]. by rewrite fmap_cons, bind_cons, IH. Qed.

Lemma nodeIds_span id (kids : list jsstr) :
  nodeIds (createHighlightSpan id (Text <$> kids)) = [id].
Proof.
  unfold nodeIds, createHighlightSpan. by rewrite markerIds_Elem, nodeIds_text_run.
Qed.

Lemma markerIds_after_wrap s e id k doc pp doc1 :
  alterAt (spliceChild (wrapTextNode s e id) k) doc pp = Some doc1 →
  markerIds doc1 ≡ₚ id :: markerIds doc.
Proof.
  revert doc doc1. induction pp as [|j pp IH]; intros doc doc1; simpl.
  - intros (t & h & cs & d & a & kids & b & -> & Hk & Hd & ->)%spliceChild_wrap.
    rewrite !markerIds_Elem.
    rewrite <- (take_drop_middle cs k (Text d)) at 3 by done.
    rewrite !bind_app, !bind_cons, nodeIds_span.
    change (nodeIds (Text a)) with (@nil string).
    change (nodeIds (Text b)) with (@nil string).
    change (nodeIds (Text d)) with (@nil string).
    cbn [app mbind list_bind]. apply Permutation_sym, Permutation_middle.
  - destruct doc as [d | t h cs]; [done|].
    destruct (cs !! j) as [c|] eqn:Hj; [|done].
    destruct (alterAt _ c pp) as [c'|] eqn:Hc; [|done].
    intros [= <-]. rewrite !markerIds_Elem.
    rewrite insert_take_drop by (by eapply lookup_lt_Some).
    rewrite <- (take_drop_middle cs j c) at 3 by done.
    rewrite !bind_app, !bind_cons.
    assert (Hc' : nodeIds c' ≡ₚ id :: nodeIds c).
    { unfold nodeIds. rewrite (alterAt_spliceChild_own _ _ _ _ _ Hc), (IH _ _ Hc).
      apply Permutation_sym, Permutation_middle. }
    rewrite Hc'. apply Permutation_sym, Permutation_middle.
Qed.

Lemma markerCount_perm_cons id h doc doc1 :
  markerIds doc1 ≡ₚ h :: markerIds doc →
  markerCount id doc1 = (if bool_decide (h = id) then 1 else 0) + markerCount id doc.
Proof.
  intros Hp. unfold markerCount. rewrite Hp.
  case_bool_decide.
  - by rewrite filter_cons_True.
  - by rewrite filter_cons_False.
Qed.

Lemma filter_eq_absent (id : string) (l : list string) :
  id ∉ l → filter (fun h => h = id) l = [].
Proof.
  induction l as [|h l IH]; [done|].
  rewrite not_elem_of_cons. intros [Hne Hl].
  rewrite filter_cons_False by (by intros ->). by apply IH.
Qed.

Lemma ownMarker_alterAt f n p n' :
  (∀ m m', f m = Some m' → ownMarker m' = ownMarker m) →
  alterAt f n p = Some n' → ownMarker n' = ownMarker n.
Proof.
  intros Hf. destruct p as [|k p]; simpl; [apply Hf|].
  destruct n as [d | t h cs]; [done|].
  destruct (cs !! k); [|done]. destruct (alterAt f _ p); [|done]. by intros [= <-].
Qed.

(** A change below that adds one marker adds it to the document. *)
Lemma markerIds_alterAt_plus f x n p n' :
  (∀ m m', f m = Some m' → ownMarker m' = ownMarker m) →
  (∀ m m', f m = Some m' → markerIds m' ≡ₚ x :: markerIds m) →
  alterAt f n p = Some n' →
  markerIds n' ≡ₚ x :: markerIds n.
Proof.
  intros Hown Hf. revert n n'. induction p as [|k p IH]; intros n n'; simpl.
  - apply Hf.
  - destruct n as [d | t h cs]; [done|].
    destruct (cs !! k) as [c|] eqn:Hk; [|done].
    destruct (alterAt f c p) as [c'|] eqn:Hc; [|done].
    intros [= <-]. rewrite !markerIds_Elem.
    rewrite insert_take_drop by (by eapply lookup_lt_Some).
    rewrite <- (take_drop_middle cs k c) at 3 by done.
    rewrite !bind_app, !bind_cons.
    assert (Hc' : nodeIds c' ≡ₚ x :: nodeIds c).
    { unfold nodeIds. rewrite (ownMarker_alterAt _ _ _ _ Hown Hc), (IH _ _ Hc).
      apply Permutation_sym, Permutation_middle. }
    rewrite Hc'. apply Permutation_sym, Permutation_middle.
Qed.

Lemma markerIds_wrapChildren s e id m m' :
  wrapChildren s e id m = Some m' →
  ownMarker m' = ownMarker m ∧ markerIds m' ≡ₚ id :: markerIds m.
Proof.
  intros (t & h & a & kids & b & -> & ->)%wrapChildren_Some. split; [done|].
  rewrite !markerIds_Elem, !bind_app, bind_cons.
  unfold nodeIds at 2. unfold createHighlightSpan.
  cbn [ownMarker fmap list_fmap snd]. rewrite markerIds_Elem.
  change ([] ≫= nodeIds) with (@nil string). rewrite app_nil_r. cbn [app].
  apply Permutation_sym, Permutation_middle.
Qed.

Lemma applyHighlightToTextNode_true doc textNode s e item doc1 :
  applyHighlightToTextNode doc textNode s e item = (true, doc1) →
  markerIds doc1 ≡ₚ hl_id item :: markerIds doc.
Proof.
  unfold applyHighlightToTextNode.
  destruct (getNode doc textNode) as [[d0 | t0 h0 cs0]|]; [| |done].
  - destruct (splitLast textNode) as [[pp k]|]; [|done].
    destruct (alterAt _ doc pp) as [doc1'|] eqn:Hw; [|done].
    intros [= <-]. by eapply markerIds_after_wrap.
  - destruct (alterAt _ doc textNode) as [doc1'|] eqn:Hw; [|done].
    intros [= <-]. eapply markerIds_alterAt_plus; [| |exact Hw].
    + intros m m' Hm. by apply markerIds_wrapChildren in Hm as [? _].
    + intros m m' Hm. by apply markerIds_wrapChildren in Hm as [_ ?].
Qed.

Lemma applyHighlightToTextNode_false doc textNode s e item doc1 :
  applyHighlightToTextNode doc textNode s e item = (false, doc1) → doc1 = doc.
Proof.
  unfold applyHighlightToTextNode.
  destruct (match getNode doc textNode with Some _ => _ | None => _ end);
    [done | by intros [= <-]].
Qed.

Lemma applyHighlightToTextNode_markers doc textNode s e item :
  (applyHighlightToTextNode doc textNode s e item).2 = doc
  ∨ markerIds (applyHighlightToTextNode doc textNode s e item).2
    ≡ₚ hl_id item :: markerIds doc.
Proof.
  destruct (applyHighlightToTextNode doc textNode s e item) as [[|] doc1] eqn:E.
  - right. by apply applyHighlightToTextNode_true in E.
  - left. by apply applyHighlightToTextNode_false in E.
Qed.

Lemma tryRestoreHighlight_markers item doc :
  (tryRestoreHighlight item doc).2 = doc
  ∨ markerIds (tryRestoreHighlight item doc).2 ≡ₚ hl_id item :: markerIds doc.
Proof.
  unfold tryRestoreHighlight. destruct (resolve item doc) as [[tier found]|]; [|by left].
  apply applyHighlightToTextNode_markers.
Qed.

Lemma elementWithId_null value doc :
  elementWithId value doc = QNull ↔ value ∉ markerIds doc.
Proof.
  unfold elementWithId, markerIds.
  destruct (firstMarker value (markers doc)) as [p|] eqn:E.
  - split; [done|]. intros Hno. apply firstMarker_None in Hno. congruence.
  - split; [|done]. intros _. by apply firstMarker_None.
Qed.

Lemma restoreOne_skips querySelector st item element :
  querySelector (markerSelector (hl_id item)) (document st) = QElement element →
  document (restoreOne querySelector st item).1 = document st.
Proof. intros Hq. unfold restoreOne. by rewrite Hq. Qed.

Lemma restoreOne_count querySelector st item id :
  CssSelectors querySelector → plainId (hl_id item) = true →
  markerCount id (document (restoreOne querySelector st item).1)
  ≤ 1 `max` markerCount id (document st).
Proof.
  intros Hcss Hplain. unfold restoreOne.
  rewrite (css_query_plain _ _ _ Hcss Hplain).
  destruct (elementWithId (hl_id item) (document st)) eqn:Hq; cbn [document fst]; [lia | | lia].
  destruct (tryRestoreHighlight_markers item (document st)) as [-> | Hp]; [lia|].
  rewrite (markerCount_perm_cons _ _ _ _ Hp). case_bool_decide as Hid; [|lia].
  apply elementWithId_null in Hq. subst id.
  assert (markerCount (hl_id item) (document st) = 0) as ->; [|lia].
  unfold markerCount. by rewrite filter_eq_absent.
Qed.

Lemma restoreHighlights_count querySelector items st id :
  CssSelectors querySelector →
  Forall (fun item => plainId (hl_id item) = true) items →
  markerCount id (document (restoreHighlights querySelector items st))
  ≤ 1 `max` markerCount id (document st).
Proof.
  intros Hcss Hplain. unfold restoreHighlights. revert st.
  induction Hplain as [|item items Hitem _ IH]; intros st; cbn [forEachItem fst]; [lia|].
  pose proof (restoreOne_count querySelector st item id Hcss Hitem) as Hone.
  destruct (restoreOne querySelector st item) as [st' [|]]; cbn [fst] in *; [|lia].
  specialize (IH st'). lia.
Qed.

(** X22. For anchors whose ids are free of the code units that have a
    meaning of their own in the selector: an anchor whose id already marks an
    element of the document is skipped by the restore pass, and after any
    number of restore passes over the anchor list the document holds, for
    every id, at most one wrapper if it held none before and no more
    wrappers than before otherwise. *)
Theorem restore_at_most_one_wrapper querySelector items st n id :
  CssSelectors querySelector →
  Forall (fun item => plainId (hl_id item) = true) items →
  (∀ item, plainId (hl_id item) = true →
           hl_id item ∈ markerIds (document st) →
           document (restoreOne querySelector st item).1 = document st)
  ∧ markerCount id (document (Nat.iter n (restoreHighlights querySelector items) st))
    ≤ 1 `max` markerCount id (document st).
Proof.
  intros Hcss Hplain. split.
  - intros item Hitem Hin. unfold restoreOne.
    rewrite (css_query_plain _ _ _ Hcss Hitem).
    destruct (elementWithId (hl_id item) (document st)) eqn:Hq; [done | | done].
    by apply elementWithId_null in Hq.
  - induction n as [|n IH]; [simpl; lia|].
    change (Nat.iter (S n) (restoreHighlights querySelector items) st)
      with (restoreHighlights querySelector items
              (Nat.iter n (restoreHighlights querySelector items) st)).
    pose proof (restoreHighlights_count querySelector items
                  (Nat.iter n (restoreHighlights querySelector items) st) id Hcss Hplain).
    lia.
Qed.

Lemma restore_at_most_one_wrapper_witness :
  document (restoreOne cssQuerySelector restoredSession foxItem).1
  = document restoredSession.
Proof.
  refine (proj1 (restore_at_most_one_wrapper cssQuerySelector [foxItem] restoredSession 1
                   "hl-1" cssQuerySelector_css _) foxItem _ _).
  - by constructor.
  - reflexivity.
  - vm_compute. apply list_elem_of_here.
Defined.

(** Three passes over a list that names the anchor twice leave one wrapper. *)
Example restore_three_passes :
  markerCount "hl-1"
    (document (Nat.iter 3 (restoreHighlights cssQuerySelector [foxItem; foxItem])
                 {| highlightCache := emptyCache; document := foxDoc |})) = 1.
Proof. vm_compute. reflexivity. Qed.

Lemma css_query_modelled querySelector id doc :
  CssSelectors querySelector →
  selectorMeaning (markerSelector id) ≠ OtherSelector →
  querySelector (markerSelector id) doc = cssQuerySelector (markerSelector id) doc.
Proof.
  intros Hcss Hid. specialize (Hcss (markerSelector id) doc). unfold cssQuerySelector.
  by destruct (selectorMeaning (markerSelector id)).
Qed.

Lemma forEachItem_modelled querySelector items st :
  CssSelectors querySelector →
  Forall (fun item => selectorMeaning (markerSelector (hl_id item)) ≠ OtherSelector) items →
  forEachItem querySelector items st = forEachItem cssQuerySelector items st.
Proof.
  intros Hcss Hitems. revert st.
  induction Hitems as [|item items Hitem _ IH]; intros st; [done|].
  cbn [forEachItem]. unfold restoreOne. rewrite (css_query_modelled _ _ _ Hcss Hitem).
  destruct (cssQuerySelector _ _); cbn; by rewrite ?IH.
Qed.

(** C10 fails on the code for an id with a backslash, as an imported
    anchor may have: the selector made of the id does not find the span
    that carries it, so a second restore pass wraps the quote again (its
    first occurrence this time) and the document holds two wrappers of the
    id. *)
Theorem restore_twice_escaped_id querySelector :
  CssSelectors querySelector →
  markerCount (hl_id escapedItem)
    (document (Nat.iter 2 (restoreHighlights querySelector [escapedItem])
                 {| highlightCache := emptyCache; document := foxDoc |})) = 2.
Proof.
  intros Hcss.
  assert (Hitems : Forall (fun item => selectorMeaning (markerSelector (hl_id item))
                                       ≠ OtherSelector) [escapedItem])
    by (by constructor).
  assert (Hsame : ∀ st, restoreHighlights querySelector [escapedItem] st
                        = restoreHighlights cssQuerySelector [escapedItem] st).
  { intros st. unfold restoreHighlights. by rewrite (forEachItem_modelled _ _ _ Hcss Hitems). }
  change (Nat.iter 2 (restoreHighlights querySelector [escapedItem]) ?x)
    with (restoreHighlights querySelector [escapedItem]
            (restoreHighlights querySelector [escapedItem] x)).
  rewrite !Hsame. vm_compute. reflexivity.
Qed.

Lemma restore_twice_escaped_id_witness :
  markerCount (hl_id escapedItem)
    (document (Nat.iter 2 (restoreHighlights cssQuerySelector [escapedItem])
                 {| highlightCache := emptyCache; document := foxDoc |})) = 2.
Proof. exact (restore_twice_escaped_id cssQuerySelector cssQuerySelector_css). Defined.

(** * Further properties of the content script *)

(** ** Stored paths decode to the node they were made for *)

Lemma getNode_app n p q :
  getNode n (p ++ q) = match getNode n p with Some m => getNode m q | None => None end.
Proof.
  revert n. induction p as [|k p IH]; intros n; [done|]. simpl.
  destruct n as [d | t h cs]; [done|]. destruct (cs !! k); [apply IH | done].
Qed.

Lemma indexIn_lookup k (l : list nat) : k ∈ l → l !! indexIn k l = Some k.
Proof.
  induction l as [|j l IH]; [by intros ?%elem_of_nil|].
  intros Hin. simpl. case_bool_decide as Hj; [by subst|].
  apply elem_of_cons in Hin as [-> | Hin]; [done|]. by apply IH.
Qed.

Lemma pick_own_index k (m : list nat) :
  k ∈ m →
  pick (if bool_decide (1 < length m) then Some (indexIn k m + 1) else None) m = [k].
Proof.
  intros Hin. case_bool_decide as Hlen.
  - rewrite Nat.add_1_r. simpl. by rewrite indexIn_lookup.
  - simpl. destruct m as [|x [|y m]]; [by apply elem_of_nil in Hin | | simpl in Hlen; lia].
    by apply list_elem_of_singleton in Hin as ->.
Qed.

Lemma elem_of_childElems test j cs i name h c :
  cs !! i = Some (Elem name h c) → test name = true → j + i ∈ childElems test j cs.
Proof.
  revert j i. induction cs as [|x cs IH]; intros j i; [done|].
  destruct i as [|i]; simpl.
  - intros [= ->] ->. rewrite Nat.add_0_r. apply list_elem_of_here.
  - intros Hi Htest. replace (j + S i) with (S j + i) by lia.
    destruct x as [d | t h' c']; [by apply IH|].
    destruct (test t); [apply list_elem_of_further|]; by apply IH.
Qed.

Lemma childElems_ext test1 test2 k cs :
  Forall (fun c => match c with
                   | Elem name _ _ => test1 name = test2 name
                   | Text _ => True
                   end) cs →
  childElems test1 k cs = childElems test2 k cs.
Proof.
  intros Hcs. revert k. induction Hcs as [|c cs Hc _ IH]; intros k; [done|].
  destruct c as [d | name h kids]; simpl; [apply IH|]. by rewrite Hc, !IH.
Qed.

Lemma plainNameChar_facts c :
  plainNameChar c = true →
  toLower c = c ∧ toLowerCaseUnit (toUpper c) = c ∧ isNameChar c = true.
Proof.
  destruct c as [[] [] [] [] [] [] [] []]; vm_compute; intros H;
    first [discriminate H | by split_and!].
Qed.

Lemma plainString_facts l :
  allChars plainNameChar l = true →
  mapString toLower l = l ∧ toLowerCase (mapString toUpper l) = l
  ∧ allChars isNameChar l = true.
Proof.
  unfold toLowerCase. induction l as [|c l IH]; [done|]. cbn [allChars mapString].
  intros [Hc Hl]%andb_true_iff.
  destruct (plainNameChar_facts c Hc) as (-> & -> & ->).
  destruct (IH Hl) as (-> & -> & ->). done.
Qed.

Lemma plainName_facts name :
  plainName name = true →
  ∃ l, name = Html l ∧ mapString toLower l = l ∧ toLowerCase (tagName name) = l
       ∧ isNCName l = true.
Proof.
  destruct name as [[|c rest] | q]; [done | | done]. cbn [plainName].
  intros [Hc Hrest]%andb_true_iff.
  assert (Hall : allChars plainNameChar (String c rest) = true).
  { cbn [allChars]. rewrite Hrest, andb_true_r. unfold plainNameChar.
    apply bool_decide_eq_true in Hc. by rewrite (bool_decide_eq_true_2 _ Hc). }
  destruct (plainString_facts _ Hall) as (Hlow & Hcase & Hname).
  exists (String c rest). split_and!; [done | done | done |].
  cbn [isNCName]. rewrite Hname, andb_true_r. unfold isNameStartChar.
  apply bool_decide_eq_true in Hc. rewrite (bool_decide_eq_true_2 (97 ≤ _ ≤ 122) Hc).
  by rewrite !orb_true_r.
Qed.

(** Among plain names, the name test of an element's own step passes the
    elements of the same [tagName] and no others. *)
Lemma nameTest_sameTagName current child :
  plainName current = true → plainName child = true →
  nameTest (toLowerCase (tagName current)) child = sameTagName current child.
Proof.
  intros (l & -> & Hl & Hcase & _)%plainName_facts
         (l' & -> & Hl' & Hcase' & _)%plainName_facts.
  rewrite Hcase. unfold nameTest, sameTagName. rewrite Hl, Hl'.
  apply bool_decide_ext. split; [by intros -> | intros Heq].
  by rewrite <- Hcase, <- Hcase', Heq.
Qed.

Lemma plainDocument_children name h cs :
  plainDocument (Elem name h cs) = true →
  plainName name = true ∧ Forall (fun c => plainDocument c = true) cs.
Proof.
  cbn [plainDocument]. intros [Hname Hcs]%andb_true_iff. split; [done|].
  apply Forall_forall. intros c Hc. rewrite forallb_forall in Hcs.
  apply Hcs. by apply list_elem_of_In.
Qed.

Lemma plainDocument_getNode doc p n :
  plainDocument doc = true → getNode doc p = Some n → plainDocument n = true.
Proof.
  revert doc. induction p as [|k p IH]; intros doc Hdoc; simpl; [by intros [= <-]|].
  destruct doc as [d | name h cs]; [done|].
  destruct (cs !! k) as [c|] eqn:Hk; [|done].
  apply IH. apply plainDocument_children in Hdoc as [_ Hcs].
  rewrite Forall_forall in Hcs. apply Hcs. by eapply list_elem_of_lookup_2.
Qed.

Lemma elem_of_childTexts j cs i d :
  cs !! i = Some (Text d) → j + i ∈ childTexts j cs.
Proof.
  revert j i. induction cs as [|x cs IH]; intros j i; [done|].
  destruct i as [|i]; simpl.
  - intros [= ->]. rewrite Nat.add_0_r. apply list_elem_of_here.
  - intros Hi. replace (j + S i) with (S j + i) by lia.
    destruct x as [d' | t h' c']; [apply list_elem_of_further|]; by apply IH.
Qed.

Lemma evalStep_singleton doc sel i q t h cs :
  getNode doc q = Some (Elem t h cs) →
  evalStep doc sel i [q] = (fun k => q ++ [k]) <$> pick i (sel cs).
Proof. intros Hq. unfold evalStep. simpl. by rewrite Hq, app_nil_r. Qed.

Lemma getElementXPath_decodes doc q n p steps :
  plainDocument n = true →
  getNode doc q = Some n →
  getElementXPath n p = Some steps →
  forallb (fun s => isNCName (st_tag s)) steps = true
  ∧ foldl (fun ctx s => evalStep doc (childElems (nameTest (st_tag s)) 0) (st_index s) ctx)
          [q] steps
    = [q ++ p].
Proof.
  revert q n steps. induction p as [|k p IH]; intros q n steps Hplain Hq; simpl.
  - intros [= <-]. by rewrite app_nil_r.
  - destruct n as [d | t h cs]; [done|].
    destruct (cs !! k) as [[d | tg h' cs']|] eqn:Hk; [done | | done].
    destruct (getElementXPath (Elem tg h' cs') p) as [steps'|] eqn:Hp; [|done].
    intros [= <-]. cbn [foldl forallb st_tag st_index].
    apply plainDocument_children in Hplain as [_ Hcs].
    assert (Hchild : plainDocument (Elem tg h' cs') = true).
    { rewrite Forall_forall in Hcs. apply Hcs. by eapply list_elem_of_lookup_2. }
    pose proof (plainDocument_children _ _ _ Hchild) as [Htg _].
    destruct (IH (q ++ [k]) (Elem tg h' cs') steps' Hchild) as [Hnames Hfold]; [|done|].
    { rewrite getNode_app, Hq. simpl. by rewrite Hk. }
    destruct (plainName_facts _ Htg) as (l & _ & _ & Hcase & Hname).
    split; [by rewrite Hcase, Hname|].
    rewrite (evalStep_singleton _ _ _ _ _ _ _ Hq).
    rewrite (childElems_ext (nameTest (toLowerCase (tagName tg))) (sameTagName tg)).
    2:{ eapply Forall_impl; [exact Hcs|]. intros [d | name hh kids] Hc; [done|].
        apply nameTest_sameTagName; [done|]. by apply plainDocument_children in Hc as [? _]. }
    rewrite pick_own_index.
    2:{ eapply (elem_of_childElems _ 0); [done|]. unfold sameTagName.
        by rewrite bool_decide_eq_true_2. }
    cbn [fmap list_fmap]. by rewrite Hfold, <- app_assoc.
Qed.

Lemma getElementXPath_is_Some n p t h cs :
  getNode n p = Some (Elem t h cs) → is_Some (getElementXPath n p).
Proof.
  revert n. induction p as [|k p IH]; intros n; simpl; [by eexists|].
  destruct n as [d | t0 h0 cs0]; [done|].
  destruct (cs0 !! k) as [[d | tg h' cs']|]; [by destruct p | | done].
  intros Hp. destruct (IH _ Hp) as [steps Hs]. rewrite Hs. by eexists.
Qed.

Lemma splitLast_inv p pp k : splitLast p = Some (pp, k) → p = pp ++ [k].
Proof.
  revert pp. induction p as [|j p IH]; intros pp; [done|].
  simpl. destruct p as [|j' p'].
  - by intros [= <- <-].
  - destruct (splitLast (j' :: p')) as [[pp' k']|]; [|done].
    intros [= <- <-]. simpl. f_equal. by apply IH.
Qed.

Lemma splitLast_nonempty p : p ≠ [] → ∃ pp k, splitLast p = Some (pp, k).
Proof.
  induction p as [|j p IH]; [done|]. intros _.
  destruct p as [|j' p']; [by exists [], j|].
  destruct IH as (pp & k & Hs); [done|].
  exists (j :: pp), k. cbn [splitLast] in *. by rewrite Hs.
Qed.

Lemma getTextNodeXPath_decodes doc p xpath :
  plainDocument doc = true →
  getTextNodeXPath doc p = Some xpath → getTextNodeByXPath doc (Some xpath) = Some p.
Proof.
  intros Hplain. unfold getTextNodeXPath.
  destruct (getNode doc p) as [[d | ? ? ?]|] eqn:Hp; [|done..].
  destruct (splitLast p) as [[pp k]|] eqn:Hsplit; [|done].
  pose proof (splitLast_inv _ _ _ Hsplit) as ->.
  destruct (getNode doc pp) as [[d0 | t h cs]|] eqn:Hpp; [done | | done].
  destruct (getElementXPath doc pp) as [steps|] eqn:Hsteps; [|done].
  intros [= <-].
  rewrite getNode_app, Hpp in Hp. simpl in Hp.
  destruct (cs !! k) as [c|] eqn:Hk; [|done]. injection Hp as ->.
  unfold getTextNodeByXPath, getElementByXPath, evalXPath. cbn [xp_steps xp_text].
  destruct (getElementXPath_decodes doc [] doc pp steps Hplain eq_refl Hsteps)
    as [-> ->].
  simpl app.
  rewrite (evalStep_singleton _ _ _ _ _ _ _ Hpp).
  rewrite Nat.add_1_r. cbn [pick].
  rewrite indexIn_lookup by (by eapply (elem_of_childTexts 0)). done.
Qed.

Lemma getTextNodeXPath_is_Some doc p d :
  getNode doc p = Some (Text d) → p ≠ [] → is_Some (getTextNodeXPath doc p).
Proof.
  intros Hp Hne.
  destruct (splitLast_nonempty p Hne) as (pp & k & Hsplit).
  pose proof (splitLast_inv _ _ _ Hsplit) as ->.
  pose proof Hp as Hp'. rewrite getNode_app in Hp'.
  destruct (getNode doc pp) as [[d0 | t h cs]|] eqn:Hpp; [done | | done].
  destruct (getElementXPath_is_Some _ _ _ _ _ Hpp) as [steps Hsteps].
  unfold getTextNodeXPath. rewrite Hp, Hsplit, Hpp, Hsteps. by eexists.
Qed.

(** X1. In a document all of whose elements are HTML elements with plain
    names (a lower-case ASCII letter, then such letters, digits and
    hyphens), every text node below the body gets a path from
    [getTextNodeXPath], and [getTextNodeByXPath] decodes that path to the
    very same node. *)
Theorem text_path_round_trip doc p d :
  plainDocument doc = true →
  getNode doc p = Some (Text d) →
  p ≠ [] →
  ∃ xpath, getTextNodeXPath doc p = Some xpath
           ∧ getTextNodeByXPath doc (Some xpath) = Some p.
Proof.
  intros Hplain Hp Hne. destruct (getTextNodeXPath_is_Some _ _ _ Hp Hne) as [xpath Hx].
  exists xpath. split; [done|]. by apply getTextNodeXPath_decodes.
Qed.

Lemma text_path_round_trip_witness :
  ∃ xpath, getTextNodeXPath markupDoc [0; 1; 0] = Some xpath
           ∧ getTextNodeByXPath markupDoc (Some xpath) = Some [0; 1; 0].
Proof.
  refine (text_path_round_trip markupDoc [0; 1; 0] (str "cd") _ _ _).
  - reflexivity.
  - reflexivity.
  - discriminate.
Defined.

(** Under inline SVG the path of a text node decodes to nothing: the name
    test of the step [svg] passes no foreign element. *)
Example svg_path_decodes_to_null :
  ∃ xpath, getTextNodeXPath svgDoc [0; 0; 0] = Some xpath
           ∧ getTextNodeByXPath svgDoc (Some xpath) = None.
Proof. eexists. split; reflexivity. Qed.

(** ** A fresh anchor is found again by path and offsets *)

Lemma getSelectionInfo_Selected doc selection info :
  getSelectionInfo doc selection = Selected info →
  ∃ range xpath,
    rangeAt0 selection = Some range
    ∧ trim (selectionString selection) ≠ []
    ∧ isTextNode doc (startContainer range) = true
    ∧ getTextNodeXPath doc (startContainer range) = Some xpath
    ∧ info = {| si_text := trim (selectionString selection);
                si_quote := trim (selectionString selection);
                si_xpath := xpath;
                si_startOffset := startOffset range;
                si_endOffset := endOffset range;
                si_prefix := substring (nodeText doc (startContainer range))
                               (startOffset range - CONTEXT_SIZE) (startOffset range);
                si_suffix := substring (nodeText doc (startContainer range))
                               (endOffset range)
                               ((endOffset range + CONTEXT_SIZE)
                                  `min` length (nodeText doc (startContainer range)));
                si_range := range |}.
Proof.
  unfold getSelectionInfo.
  destruct (rangeAt0 selection) as [range|]; [|done].
  unfold truthy. case_bool_decide as Htext; [|done]. cbn [negb].
  destruct (_ && _); [done|].
  destruct (isTextNode doc (startContainer range)) eqn:Hnode; [|done]. cbn [negb].
  destruct (getTextNodeXPath doc (startContainer range)) as [xpath|] eqn:Hx; [|done].
  intros [= <-]. by exists range, xpath.
Qed.

(** X2. In a document all of whose elements are HTML elements with plain
    names: an anchor made of a selection that lies in one text node, whose
    string is the text between the offsets with no white space to trim, is
    resolved on the unchanged document by the first strategy, at the very
    range that was selected. *)
Theorem encode_then_resolve doc selection range color id createdAt item doc' :
  plainDocument doc = true →
  rangeAt0 selection = Some range →
  selectionString selection
  = substring (nodeText doc (startContainer range)) (startOffset range) (endOffset range) →
  trim (selectionString selection) = selectionString selection →
  doHighlight doc selection color id createdAt = Some (item, doc') →
  resolve item doc
  = Some (XPathOffset, {| f_node := startContainer range;
                          f_start := startOffset range;
                          f_end := endOffset range |}).
Proof.
  intros Hplain Hr Hstr Htrim. unfold doHighlight.
  destruct (getSelectionInfo doc selection) as [| |info] eqn:Hinfo; [done..|].
  apply getSelectionInfo_Selected in Hinfo
    as (range' & xpath & Hr' & Hne & Hnode & Hx & ->).
  assert (range' = range) as -> by congruence.
  unfold applyHighlight. cbn [si_range si_quote si_text si_xpath si_startOffset
                              si_endOffset si_prefix si_suffix].
  destruct (surroundContents doc range id) as [doc1|]; [|done].
  intros [= <- <-].
  unfold truthy. rewrite bool_decide_eq_true_2 by done.
  unfold resolve, resolveWith, exactMatch. cbn [hl_xpath hl_quote hl_startOffset hl_endOffset].
  rewrite (getTextNodeXPath_decodes _ _ _ Hplain Hx).
  unfold isTextNode in Hnode. unfold nodeText in Hstr.
  destruct (getNode doc (startContainer range)) as [[d | ? ? ?]|]; [|done..].
  cbn [textContent] in Hstr. rewrite Htrim, Hstr.
  by rewrite bool_decide_eq_true_2.
Qed.

Lemma encode_then_resolve_witness :
  ∃ item doc',
    doHighlight foxDoc foxSelection "#FFEB3B" "hl-7" "t" = Some (item, doc')
    ∧ resolve item foxDoc
      = Some (XPathOffset, {| f_node := [0; 0]; f_start := 25; f_end := 40 |}).
Proof.
  eexists _, _. split; [reflexivity|].
  refine (encode_then_resolve foxDoc foxSelection
            {| startContainer := [0; 0]; startOffset := 25;
               endContainer := [0; 0]; endOffset := 40 |}
            "#FFEB3B" "hl-7" "t" _ _ _ _ _ _ _); reflexivity.
Defined.

(** ** The stored context *)

Lemma take_clamp {A} (t : list A) s : take s t = take (s `min` length t) t.
Proof.
  destruct (decide (s ≤ length t)).
  - by rewrite Nat.min_l.
  - rewrite Nat.min_r by lia. rewrite !take_ge; [done | lia | lia].
Qed.

Lemma substring_before t n s :
  length (substring t (s - n) s) ≤ n ∧ substring t (s - n) s `suffix_of` take s t.
Proof.
  unfold substring.
  set (a := (s - n) `min` length t). set (b := s `min` length t).
  assert (a ≤ b ∧ b - a ≤ n) as [Hab Hn] by (subst a b; lia).
  rewrite Nat.max_r, Nat.min_l by done. split.
  - rewrite length_take. lia.
  - exists (take a t). rewrite (take_clamp t s). fold b.
    rewrite take_take_drop. f_equal. lia.
Qed.

Lemma substring_after t n e :
  length (substring t e ((e + n) `min` length t)) ≤ n
  ∧ substring t e ((e + n) `min` length t) `prefix_of` drop e t.
Proof.
  unfold substring.
  set (a := e `min` length t). set (b := ((e + n) `min` length t) `min` length t).
  assert (a ≤ b ∧ b - a ≤ n) as [Hab Hn] by (subst a b; lia).
  rewrite Nat.max_r, Nat.min_l by done. split.
  - rewrite length_take. lia.
  - rewrite (drop_clamp t e). fold a.
    exists (drop (b - a) (drop a t)). by rewrite take_drop.
Qed.

(** X3. The prefix and the suffix of an encoded selection have at most
    [CONTEXT_SIZE] code units and are taken from the owning text node only:
    the prefix is the end of the text before the start offset, the suffix
    the beginning of the text after the end offset. *)
Theorem selection_context_clamped doc selection info :
  getSelectionInfo doc selection = Selected info →
  length (si_prefix info) ≤ CONTEXT_SIZE
  ∧ si_prefix info
    `suffix_of` take (si_startOffset info)
                  (nodeText doc (startContainer (si_range info)))
  ∧ length (si_suffix info) ≤ CONTEXT_SIZE
  ∧ si_suffix info
    `prefix_of` drop (si_endOffset info)
                  (nodeText doc (startContainer (si_range info))).
Proof.
  intros (range & xpath & _ & _ & _ & _ & ->)%getSelectionInfo_Selected.
  cbn [si_prefix si_suffix si_startOffset si_endOffset si_range].
  pose proof (substring_before (nodeText doc (startContainer range)) CONTEXT_SIZE
                (startOffset range)) as [? ?].
  pose proof (substring_after (nodeText doc (startContainer range)) CONTEXT_SIZE
                (endOffset range)) as [? ?].
  done.
Qed.

Lemma selection_context_clamped_witness :
  ∃ info, getSelectionInfo foxDoc foxSelection = Selected info
          ∧ length (si_prefix info) ≤ CONTEXT_SIZE
          ∧ length (si_suffix info) ≤ CONTEXT_SIZE.
Proof.
  eexists. split; [reflexivity|].
  pose proof (selection_context_clamped foxDoc foxSelection _ eq_refl) as (H1 & _ & H2 & _).
  exact (conj H1 H2).
Defined.

(** ** The score of an anchor at its own place *)

Lemma prefixScore_le prefix text index :
  prefixScore prefix text index ≤ (if bool_decide (prefix = []) then 0 else 2).
Proof.
  unfold prefixScore, truthy.
  destruct (decide (prefix = [])) as [-> | Hne]; [done|].
  rewrite (bool_decide_eq_false_2 (prefix = [])) by done.
  repeat case_match; lia.
Qed.

Lemma suffixScore_le quote suffix text index :
  suffixScore quote suffix text index ≤ (if bool_decide (suffix = []) then 0 else 2).
Proof.
  unfold suffixScore, truthy.
  destruct (decide (suffix = [])) as [-> | Hne]; [done|].
  rewrite (bool_decide_eq_false_2 (suffix = [])) by done.
  repeat case_match; lia.
Qed.

Lemma length_substring_in_range t a b :
  a ≤ b → b ≤ length t → length (substring t a b) = b - a.
Proof.
  intros. rewrite substring_in_range by done. rewrite length_take, length_drop. lia.
Qed.

(** The score at the place a quote, a prefix and a suffix were cut from. *)
Lemma contextScore_own_place text s e :
  s ≤ e → e ≤ length text →
  let quote := substring text s e in
  let prefix := substring text (s - CONTEXT_SIZE) s in
  let suffix := substring text e ((e + CONTEXT_SIZE) `min` length text) in
  contextScore quote prefix suffix text s
  = 1 + (if bool_decide (prefix = []) then 0 else 2)
      + (if bool_decide (suffix = []) then 0 else 2).
Proof.
  intros Hse He quote prefix suffix.
  unfold contextScore. f_equal; [f_equal|].
  - case_bool_decide as Hp.
    + unfold prefixScore, truthy. by rewrite Hp.
    + apply prefixScore_exact; [lia|]. split; [done|].
      apply (substring_before text CONTEXT_SIZE s).
  - case_bool_decide as Hs.
    + unfold suffixScore, truthy. by rewrite Hs.
    + apply suffixScore_exact.
      assert (Hq : s + length quote = e).
      { subst quote. rewrite length_substring_in_range by done. lia. }
      rewrite Hq. split_and!; [done | done |].
      apply (substring_after text CONTEXT_SIZE e).
Qed.

(** X4. For a selection that [getSelectionInfo] encodes from a range lying
    in its text node, when the stored quote is the node's text between the
    stored offsets (as it is when the selected string has nothing to trim):
    the start offset in that text scores 1, plus 2 when the stored prefix is
    not empty, plus 2 when the stored suffix is not empty, and no place of
    any text scores more against the stored quote, prefix and suffix. *)
Theorem own_place_scores_most doc selection info text :
  getSelectionInfo doc selection = Selected info →
  getNode doc (startContainer (si_range info)) = Some (Text text) →
  si_startOffset info ≤ si_endOffset info →
  si_endOffset info ≤ length text →
  si_quote info = substring text (si_startOffset info) (si_endOffset info) →
  contextScore (si_quote info) (si_prefix info) (si_suffix info) text (si_startOffset info)
  = 1 + (if bool_decide (si_prefix info = []) then 0 else 2)
      + (if bool_decide (si_suffix info = []) then 0 else 2)
  ∧ ∀ text' index,
      contextScore (si_quote info) (si_prefix info) (si_suffix info) text' index
      ≤ contextScore (si_quote info) (si_prefix info) (si_suffix info) text
          (si_startOffset info).
Proof.
  intros Hinfo Hnode Hse He Hquote.
  apply getSelectionInfo_Selected in Hinfo as (range & xpath & _ & _ & _ & _ & ->).
  cbn [si_range si_quote si_prefix si_suffix si_startOffset si_endOffset] in *.
  unfold nodeText. rewrite Hnode. cbn [textContent]. rewrite Hquote.
  pose proof (contextScore_own_place text (startOffset range) (endOffset range) Hse He)
    as Hown. cbn zeta in Hown.
  split; [done|]. intros text' index. rewrite Hown. unfold contextScore.
  pose proof (prefixScore_le
                (substring text (startOffset range - CONTEXT_SIZE) (startOffset range))
                text' index).
  pose proof (suffixScore_le
                (substring text (startOffset range) (endOffset range))
                (substring text (endOffset range)
                   ((endOffset range + CONTEXT_SIZE) `min` length text))
                text' index).
  lia.
Qed.

Lemma own_place_scores_most_witness :
  ∃ info,
    getSelectionInfo foxDoc foxSelection = Selected info
    ∧ contextScore (si_quote info) (si_prefix info) (si_suffix info) foxText 25 = 5.
Proof.
  eexists. split; [reflexivity|].
  refine (proj1 (own_place_scores_most foxDoc foxSelection _ foxText _ _ _ _ _));
    [reflexivity | reflexivity | vm_compute; lia | vm_compute; lia | reflexivity].
Defined.

(** ** Every resolved range reads the quote *)

Lemma elem_of_treeWalker doc at_ p d :
  (p, d) ∈ treeWalker doc at_ → getNode doc p = Some (Text d).
Proof.
  unfold treeWalker.
  destruct (getNode doc at_) as [[d0 | t h cs]|] eqn:Hat; [by intros ?%elem_of_nil | | by intros ?%elem_of_nil].
  intros ([rel d'] & [= -> ->] & Hin)%list_elem_of_fmap.
  apply elem_of_textNodes in Hin. by rewrite getNode_app, Hat.
Qed.

Lemma scanFirst_Some nodes quote found :
  scanFirst nodes quote = Some found →
  ∃ text, (f_node found, text) ∈ nodes
          ∧ occursAt quote text (f_start found)
          ∧ f_end found = f_start found + length quote.
Proof.
  induction nodes as [|[p t] nodes IH]; [done|]. simpl.
  destruct (indexOf t quote 0) as [j|] eqn:E.
  - intros [= <-]. apply indexOf_Some in E as (_ & Hocc & _).
    exists t. split_and!; [apply list_elem_of_here | done | done].
  - intros (text & Hin & ?)%IH. exists text. split; [by apply list_elem_of_further | done].
Qed.

Lemma occursAt_substring quote text i :
  quote ≠ [] → occursAt quote text i → substring text i (i + length quote) = quote.
Proof.
  intros Hq Hocc. destruct (occursAt_bound _ _ _ Hq Hocc) as [Hlen _].
  rewrite substring_in_range by lia.
  replace (i + length quote - i) with (length quote) by lia. by destruct Hocc.
Qed.

Lemma findQuoteWithContext_Some doc quote prefix suffix found :
  findQuoteWithContext doc quote prefix suffix = Some found →
  quote ≠ []
  ∧ ∃ text, (f_node found, text) ∈ treeWalker doc []
            ∧ occursAt quote text (f_start found)
            ∧ f_end found = f_start found + length quote.
Proof.
  unfold findQuoteWithContext, truthy. case_bool_decide as Hq; [|done].
  rewrite contextLoop_fold by done.
  pose proof (look_fold_best quote prefix suffix
                (allOccurrences quote (treeWalker doc []))) as H.
  destruct (foldl _ _ _) as [[found'|] score]; [|done]. simpl.
  intros [= ->]. split; [done|].
  destruct H as (before & [[p t] i] & after & Hocc & -> & _).
  assert (Hin : (p, t, i) ∈ allOccurrences quote (treeWalker doc [])).
  { rewrite Hocc. apply elem_of_app. right. apply list_elem_of_here. }
  apply elem_of_allOccurrences in Hin as [? ?]. by exists t.
Qed.

(** X5. Whatever strategy resolves an anchor, the range it returns lies in
    a text node of the document, and the text of that node between the
    range's offsets is the anchor's quote. *)
Theorem resolve_reads_quote item doc tier found :
  resolve item doc = Some (tier, found) →
  ∃ text, getNode doc (f_node found) = Some (Text text)
          ∧ substring text (f_start found) (f_end found) = hl_quote item.
Proof.
  unfold resolve, resolveWith.
  destruct (exactMatch item doc _) as [found1|] eqn:H1.
  { intros [= <- <-]. unfold exactMatch in H1.
    destruct (getTextNodeByXPath doc (hl_xpath item)) as [p|]; [|done].
    destruct (getNode doc p) as [[text | ? ? ?]|] eqn:Hp; [|done..].
    case_bool_decide as Hq; [|done]. injection H1 as <-. by exists text. }
  destruct (searchParent _ item doc _) as [found2|] eqn:H2.
  { intros [= <- <-]. unfold searchParent in H2.
    destruct (getTextNodeByXPath doc (hl_xpath item)) as [p|]; [|done].
    destruct (searchRoot doc p) as [parent|]; [|done].
    unfold findQuoteInElement, truthy in H2. case_bool_decide as Hq; [|done].
    apply scanFirst_Some in H2 as (text & Hin & Hocc & ->).
    exists text. split; [by eapply elem_of_treeWalker | by apply occursAt_substring]. }
  destruct (findQuoteWithContext _ _ _ _) as [found3|] eqn:H3; [|done].
  intros [= <- <-].
  apply findQuoteWithContext_Some in H3 as (Hq & text & Hin & Hocc & ->).
  exists text. split; [by eapply elem_of_treeWalker | by apply occursAt_substring].
Qed.

Lemma resolve_reads_quote_witness :
  ∃ text, getNode shiftedDoc [0; 0] = Some (Text text)
          ∧ substring text 10 25 = hl_quote foxItem.
Proof.
  refine (resolve_reads_quote foxItem shiftedDoc XPathParent
            {| f_node := [0; 0]; f_start := 10; f_end := 25 |} _).
  reflexivity.
Defined.

(** ** The whole-document search picks the one best occurrence *)

Lemma best_position_unique {A} (score : A → nat) before o after before' o' after' :
  before ++ o :: after = before' ++ o' :: after' →
  Forall (fun x => score x < score o) before →
  Forall (fun x => score x ≤ score o) after →
  Forall (fun x => score x < score o') before' →
  Forall (fun x => score x ≤ score o') after' →
  o = o'.
Proof.
  intros Heq Hb Ha Hb' Ha'.
  destruct (Nat.lt_total (length before) (length before')) as [Hlt | [Hlen | Hgt]].
  - assert (Hin : before' !! length before = Some o).
    { rewrite <- (lookup_app_l _ (o' :: after')) by done.
      rewrite <- Heq. by rewrite list_lookup_middle. }
    assert (Hin' : (o :: after) !! (length before' - length before) = Some o').
    { rewrite <- (lookup_app_r before) by lia.
      rewrite Heq. by rewrite list_lookup_middle. }
    destruct (length before' - length before) as [|n] eqn:Hn; [lia|]. simpl in Hin'.
    rewrite Forall_forall in Hb', Ha.
    pose proof (Hb' o (list_elem_of_lookup_2 _ _ _ Hin)).
    pose proof (Ha o' (list_elem_of_lookup_2 _ _ _ Hin')). lia.
  - apply app_inj_1 in Heq as [_ Heq]; [|done]. by injection Heq.
  - assert (Hin : before !! length before' = Some o').
    { rewrite <- (lookup_app_l _ (o :: after)) by done.
      rewrite Heq. by rewrite list_lookup_middle. }
    assert (Hin' : (o' :: after') !! (length before - length before') = Some o).
    { rewrite <- (lookup_app_r before') by lia.
      rewrite <- Heq. by rewrite list_lookup_middle. }
    destruct (length before - length before') as [|n] eqn:Hn; [lia|]. simpl in Hin'.
    rewrite Forall_forall in Hb, Ha'.
    pose proof (Hb o' (list_elem_of_lookup_2 _ _ _ Hin)).
    pose proof (Ha' o (list_elem_of_lookup_2 _ _ _ Hin')). lia.
Qed.

(** X6. An occurrence of a non-empty quote that scores more than every
    earlier occurrence in the document and at least as much as every later
    one is the one [findQuoteWithContext] returns; in particular a quote
    that occurs once is found whatever its context. *)
Theorem findQuoteWithContext_picks doc quote prefix suffix before o after :
  quote ≠ [] →
  allOccurrences quote (treeWalker doc []) = before ++ o :: after →
  Forall (fun o' => scoreOf quote prefix suffix o' < scoreOf quote prefix suffix o) before →
  Forall (fun o' => scoreOf quote prefix suffix o' ≤ scoreOf quote prefix suffix o) after →
  findQuoteWithContext doc quote prefix suffix = Some (foundAt quote o).
Proof.
  intros Hq Hocc Hb Ha. unfold findQuoteWithContext, truthy.
  rewrite bool_decide_eq_true_2 by done. rewrite contextLoop_fold by done.
  pose proof (look_fold_best quote prefix suffix
                (allOccurrences quote (treeWalker doc []))) as H.
  destruct (foldl _ _ _) as [[found|] score]; simpl.
  - destruct H as (before' & o' & after' & Hocc' & -> & _ & Hb' & Ha').
    rewrite Hocc in Hocc'.
    by rewrite (best_position_unique _ _ _ _ _ _ _ Hocc' Hb Ha Hb' Ha').
  - rewrite Hocc in H. by destruct before.
Qed.

Lemma findQuoteWithContext_picks_witness :
  findQuoteWithContext foxDoc (str "quick brown fox") (str "The ") (str " jumps.")
  = Some {| f_node := [0; 0]; f_start := 25; f_end := 40 |}.
Proof.
  refine (findQuoteWithContext_picks foxDoc (str "quick brown fox") (str "The ")
            (str " jumps.") [([0; 0], foxText, 4)] ([0; 0], foxText, 25) [] _ _ _ _).
  - discriminate.
  - reflexivity.
  - constructor; [vm_compute; lia | constructor].
  - constructor.
Defined.

(** ** What a wrap does to the document *)

Lemma alterAt_Some_iff f n p :
  is_Some (alterAt f n p) ↔ ∃ m, getNode n p = Some m ∧ is_Some (f m).
Proof.
  split.
  - intros [n' H]. destruct (getNode_alterAt _ _ _ _ H) as (m & m' & ? & Hm & _).
    exists m. by rewrite Hm.
  - intros (m & Hm & [m' Hf]). by eapply alterAt_is_Some.
Qed.

Lemma surroundText_is_Some d s e id :
  is_Some (surroundText d s e id) ↔ s ≤ length d ∧ e ≤ length d.
Proof.
  unfold surroundText.
  destruct (bool_decide (length d < s) || bool_decide (length d < e)) eqn:Hb.
  - apply orb_true_iff in Hb as [Hb%bool_decide_eq_true | Hb%bool_decide_eq_true];
      (split; [by intros [? ?] | lia]).
  - apply orb_false_elim in Hb as [Hs%bool_decide_eq_false He%bool_decide_eq_false].
    split; [lia|]. intros _. case_bool_decide; by eexists.
Qed.

Lemma surroundChildren_is_Some cs s e id :
  is_Some (surroundChildren cs s e id) ↔ s ≤ length cs ∧ e ≤ length cs.
Proof.
  unfold surroundChildren.
  destruct (bool_decide (length cs < s) || bool_decide (length cs < e)) eqn:Hb.
  - apply orb_true_iff in Hb as [Hb%bool_decide_eq_true | Hb%bool_decide_eq_true];
      (split; [by intros [? ?] | lia]).
  - apply orb_false_elim in Hb as [Hs%bool_decide_eq_false He%bool_decide_eq_false].
    split; [lia|]. intros _. case_bool_decide; by eexists.
Qed.

(** X7. [applyHighlightToTextNode] reads its two offsets modulo 2^32 and
    does not ask for a text node. On a text node that has a parent it
    succeeds exactly when neither offset lies beyond the node's text, and
    when the start is not after the end, the node that follows the first
    part of the split text is then a span carrying the anchor's id whose
    text is the text of the range. On an element it succeeds exactly when
    neither offset lies beyond the number of children, and when the start is
    not after the end, the children of the range are then inside a span
    carrying the anchor's id that has taken their place. Whenever it fails
    the document is left as it was. *)
Theorem applyHighlightToTextNode_spec doc textNode node s e item :
  getNode doc textNode = Some node →
  let s' := toUnsignedLong s in
  let e' := toUnsignedLong e in
  let result := applyHighlightToTextNode doc textNode s e item in
  (result.1 = false → result.2 = doc)
  ∧ match node with
    | Text d =>
        ∀ pp k, textNode = pp ++ [k] →
          (result.1 = true ↔ s' ≤ length d ∧ e' ≤ length d)
          ∧ (s' ≤ e' → e' ≤ length d →
               ∃ kids,
                 getNode result.2 (pp ++ [S k])
                 = Some (Elem "span" (Some (hl_id item)) kids)
                 ∧ concat (textContent <$> kids) = substring d s' e')
    | Elem t h cs =>
        (result.1 = true ↔ s' ≤ length cs ∧ e' ≤ length cs)
        ∧ (s' ≤ e' → e' ≤ length cs →
             getNode result.2 textNode
             = Some (Elem t h
                       (take s' cs
                        ++ [Elem "span" (Some (hl_id item)) (take (e' - s') (drop s' cs))]
                        ++ drop e' cs)))
    end.
Proof.
  intros Hnode s' e' result. split.
  { subst result. destruct (applyHighlightToTextNode doc textNode s e item) as [[|] doc1] eqn:E;
      [done|]. intros _. by apply applyHighlightToTextNode_false in E. }
  subst result. unfold applyHighlightToTextNode. fold s' e'. rewrite Hnode.
  destruct node as [d | t h cs].
  - intros pp k ->. rewrite splitLast_snoc.
    rewrite getNode_app in Hnode.
    destruct (getNode doc pp) as [[d0 | t h cs]|] eqn:Hm; [done | | done].
    simpl in Hnode. destruct (cs !! k) as [c|] eqn:Hk; [|done]. injection Hnode as ->.
    assert (Hwrap : is_Some (alterAt (spliceChild (wrapTextNode s' e' (hl_id item)) k) doc pp)
                    ↔ s' ≤ length d ∧ e' ≤ length d).
    { rewrite alterAt_Some_iff. rewrite <- (surroundText_is_Some d s' e' (hl_id item)). split.
      - intros (m & Hm' & His). assert (m = Elem t h cs) as -> by congruence.
        simpl in His. rewrite Hk in His. simpl in His.
        by destruct (surroundText d s' e' (hl_id item)); [eexists | destruct His].
      - intros [new Hnew]. exists (Elem t h cs). split; [done|].
        simpl. rewrite Hk. simpl. rewrite Hnew. by eexists. }
    split.
    + destruct (alterAt _ doc pp) as [doc1|] eqn:Hw; cbn [fst].
      * split; [intros _ | done]. apply Hwrap. by eexists.
      * split; [done|]. intros Hb. apply Hwrap in Hb. by destruct Hb.
    + intros Hse He.
      destruct (proj2 Hwrap) as [doc1 Hw]; [lia|]. rewrite Hw. cbn [snd].
      destruct (getNode_alterAt _ _ _ _ Hw) as (m & m1 & Hm' & Hm1 & Hdoc1).
      assert (m = Elem t h cs) as -> by congruence.
      simpl in Hm1. rewrite Hk in Hm1. simpl in Hm1. unfold surroundText in Hm1.
      rewrite (bool_decide_eq_false_2 (length d < s')) in Hm1 by lia.
      rewrite (bool_decide_eq_false_2 (length d < e')) in Hm1 by lia.
      simpl in Hm1. rewrite getNode_app, Hdoc1.
      assert (Hklen : k < length cs) by (by eapply lookup_lt_Some).
      case_bool_decide as Hes; injection Hm1 as <-; simpl;
        rewrite lookup_app_r by (rewrite length_take; lia);
        rewrite length_take, Nat.min_l by lia;
        replace (S k - k) with 1 by lia; simpl;
        eexists; (split; [done|]).
      * assert (s' = e') as Heq by lia. rewrite Heq, substring_in_range by lia.
        by rewrite Nat.sub_diag.
      * simpl. rewrite app_nil_r. by rewrite substring_in_range by lia.
  - assert (Hwrap : is_Some (alterAt (wrapChildren s' e' (hl_id item)) doc textNode)
                    ↔ s' ≤ length cs ∧ e' ≤ length cs).
    { rewrite alterAt_Some_iff. rewrite <- (surroundChildren_is_Some cs s' e' (hl_id item)).
      split.
      - intros (m & Hm' & His). assert (m = Elem t h cs) as -> by congruence.
        simpl in His. by destruct (surroundChildren cs s' e' (hl_id item));
          [eexists | destruct His].
      - intros [new Hnew]. exists (Elem t h cs). split; [done|].
        simpl. rewrite Hnew. by eexists. }
    split.
    + destruct (alterAt _ doc textNode) as [doc1|] eqn:Hw; cbn [fst].
      * split; [intros _ | done]. apply Hwrap. by eexists.
      * split; [done|]. intros Hb. apply Hwrap in Hb. by destruct Hb.
    + intros Hse He.
      destruct (proj2 Hwrap) as [doc1 Hw]; [lia|]. rewrite Hw. cbn [snd].
      destruct (getNode_alterAt _ _ _ _ Hw) as (m & m1 & Hm' & Hm1 & Hdoc1).
      assert (m = Elem t h cs) as -> by congruence.
      simpl in Hm1. unfold surroundChildren in Hm1.
      rewrite (bool_decide_eq_false_2 (length cs < s')) in Hm1 by lia.
      rewrite (bool_decide_eq_false_2 (length cs < e')) in Hm1 by lia.
      simpl in Hm1. rewrite Hdoc1. case_bool_decide as Hes; injection Hm1 as <-; [|done].
      assert (s' = e') as Heq by lia. by rewrite Heq, Nat.sub_diag.
Qed.

Lemma applyHighlightToTextNode_spec_witness :
  ∃ kids,
    getNode (applyHighlightToTextNode foxDoc ([0] ++ [0]) 25 40 foxItem).2 ([0] ++ [1])
    = Some (Elem "span" (Some (hl_id foxItem)) kids)
    ∧ concat (textContent <$> kids)
      = substring foxText (toUnsignedLong 25) (toUnsignedLong 40).
Proof.
  refine (proj2 (proj2 (applyHighlightToTextNode_spec foxDoc ([0] ++ [0]) (Text foxText)
                          25 40 foxItem _) [0] 0 eq_refl) _ _).
  - reflexivity.
  - vm_compute. lia.
  - vm_compute. lia.
Defined.

(** ** Rendering and removing a wrapper *)

Lemma firstMarker_is_Some id ms : id ∈ ms.*2 → is_Some (firstMarker id ms).
Proof.
  intros Hin. destruct (firstMarker id ms) eqn:E; [by eexists|].
  by apply firstMarker_None in E.
Qed.

(** X8. When [tryRestoreHighlight] reports success, the document has one
    more element marked with the anchor's id than before and the same
    markers otherwise, and the text of the document is unchanged; when it
    reports failure the document is exactly as it was. *)
Theorem tryRestoreHighlight_renders item doc :
  match tryRestoreHighlight item doc with
  | (true, doc') =>
      markerIds doc' ≡ₚ hl_id item :: markerIds doc
      ∧ textContent doc' = textContent doc
  | (false, doc') => doc' = doc
  end.
Proof.
  unfold tryRestoreHighlight.
  destruct (resolve item doc) as [[tier found]|]; [|done].
  pose proof (applyHighlightToTextNode_textContent doc (f_node found) (f_start found)
                (f_end found) item) as Htext.
  destruct (applyHighlightToTextNode _ _ _ _ _) as [[|] doc'] eqn:Happ.
  - apply applyHighlightToTextNode_true in Happ as Hperm. by split.
  - by apply applyHighlightToTextNode_false in Happ.
Qed.

Lemma markers_valid n p h :
  (p, h) ∈ markers n → p ≠ [] ∧ ∃ t kids, getNode n p = Some (Elem t (Some h) kids).
Proof.
  revert p. induction n as [d | t0 h0 cs IH] using Node_tree_ind; intros p.
  - by intros ?%elem_of_nil.
  - cbn [markers]. rewrite elem_of_walkChildren.
    intros (j & c & p' & -> & Hj & Hin). split; [done|]. simpl. rewrite Hj.
    apply elem_of_app in Hin as [Hown | Hbelow].
    + destruct c as [d | t [h'|] kids]; simpl in Hown;
        [by apply elem_of_nil in Hown | | by apply elem_of_nil in Hown].
      apply list_elem_of_singleton in Hown as [= -> ->]. by exists t, kids.
    + rewrite Forall_forall in IH.
      by apply (IH c (list_elem_of_lookup_2 _ _ _ Hj)).
Qed.

Lemma firstMarker_Some id ms p : firstMarker id ms = Some p → (p, id) ∈ ms.
Proof.
  induction ms as [|[q h] ms IH]; [done|]. simpl. case_bool_decide as Hh.
  - intros [= ->]. subst. apply list_elem_of_here.
  - intros ?%IH. by apply list_elem_of_further.
Qed.

Lemma nodeIds_mergeTexts l : mergeTexts l ≫= nodeIds = l ≫= nodeIds.
Proof.
  induction l as [|[d | t h k] l IH]; [done | |].
  - cbn [mergeTexts]. rewrite bind_cons. rewrite <- IH.
    change (nodeIds (Text d)) with (@nil string). cbn [app].
    destruct (mergeTexts l) as [|[d' | t' h' k'] r]; [by case_bool_decide | done |].
    by case_bool_decide.
  - cbn [mergeTexts]. by rewrite !bind_cons, IH.
Qed.

Lemma nodeIds_normalize n : nodeIds (normalize n) = nodeIds n.
Proof.
  induction n as [d | t h cs IH] using Node_tree_ind; [done|].
  unfold nodeIds. cbn [normalize ownMarker]. f_equal.
  rewrite !markerIds_Elem, nodeIds_mergeTexts.
  induction IH as [|c cs Hc _ IHcs]; [done|].
  by rewrite fmap_cons, !bind_cons, Hc, IHcs.
Qed.

Lemma markerIds_normalize n : markerIds (normalize n) = markerIds n.
Proof.
  pose proof (nodeIds_normalize n) as H. unfold nodeIds in H.
  destruct n as [d | t h cs]; [done|]. cbn [normalize ownMarker] in H.
  by apply app_inv_head in H.
Qed.

Lemma markerIds_alterAt_minus f x n p n' :
  (∀ m m', f m = Some m' → ownMarker m' = ownMarker m) →
  (∀ m m', getNode n p = Some m → f m = Some m' → markerIds m ≡ₚ x :: markerIds m') →
  alterAt f n p = Some n' →
  markerIds n ≡ₚ x :: markerIds n'.
Proof.
  intros Hown. revert n n'. induction p as [|k p IH]; intros n n' Hf; simpl.
  - intros H. by apply Hf.
  - destruct n as [d | t h cs]; [done|].
    destruct (cs !! k) as [c|] eqn:Hk; [|done].
    destruct (alterAt f c p) as [c'|] eqn:Hc; [|done].
    intros [= <-]. rewrite !markerIds_Elem.
    rewrite insert_take_drop by (by eapply lookup_lt_Some).
    rewrite <- (take_drop_middle cs k c) at 1 by done.
    rewrite !bind_app, !bind_cons.
    assert (Hc' : nodeIds c ≡ₚ x :: nodeIds c').
    { unfold nodeIds. rewrite (ownMarker_alterAt _ _ _ _ Hown Hc).
      rewrite (IH c c'); [apply Permutation_sym, Permutation_middle | | done].
      intros m m' Hm. apply Hf. simpl. by rewrite Hk. }
    rewrite Hc'. apply Permutation_sym, Permutation_middle.
Qed.

Lemma unwrapChild_own k m m' : unwrapChild k m = Some m' → ownMarker m' = ownMarker m.
Proof.
  unfold unwrapChild. destruct m as [d | t h cs]; [done|]. simpl.
  destruct (cs !! k) as [[d | t' h' kids]|]; [done | | done]. by intros [= <-].
Qed.

(** X9. Under a [querySelector] that reads the marker selector as CSS
    does, and for an id that reads there as [value] (an id without double
    quote, backslash, line break and zero reads as itself):
    [removeHighlightSpan] does not raise; it reports success exactly when
    some element of the document carries [value]; it then removes one
    element with that marker and no other marker, and leaves the text of
    the document as it was; when it reports failure the document is exactly
    as it was. For an id that makes the selector invalid it raises. *)
Theorem removeHighlightSpan_spec querySelector id doc :
  CssSelectors querySelector →
  (plainId id = true → selectorMeaning (markerSelector id) = AttrEquals id)
  ∧ (∀ value,
       selectorMeaning (markerSelector id) = AttrEquals value →
       match removeHighlightSpan querySelector id doc with
       | Returns (true, doc') =>
           value ∈ markerIds doc
           ∧ markerIds doc ≡ₚ value :: markerIds doc'
           ∧ textContent doc' = textContent doc
       | Returns (false, doc') => (value ∉ markerIds doc) ∧ doc' = doc
       | Throws => False
       end)
  ∧ (selectorMeaning (markerSelector id) = InvalidSelector →
       removeHighlightSpan querySelector id doc = Throws).
Proof.
  intros Hcss. split_and!; [apply selectorMeaning_plain | |].
  - intros value Hvalue.
    destruct (removeHighlightSpan querySelector id doc) as [[flag doc']|] eqn:Hremove.
    2:{ unfold removeHighlightSpan in Hremove.
        rewrite (css_query_value _ _ _ _ Hcss Hvalue) in Hremove. unfold elementWithId in Hremove.
        destruct (firstMarker value (markers doc)) as [span|]; [|done].
        destruct (splitLast span) as [[pp k]|]; [|done].
        by destruct (alterAt (unwrapChild k) doc pp). }
    pose proof (removeHighlightSpan_textContent _ _ _ _ _ Hremove) as Htext.
    unfold removeHighlightSpan in Hremove.
    rewrite (css_query_value _ _ _ _ Hcss Hvalue) in Hremove. unfold elementWithId in Hremove.
    destruct (firstMarker value (markers doc)) as [span|] eqn:Hq.
    + apply firstMarker_Some in Hq as Hin.
      destruct (markers_valid _ _ _ Hin) as (Hne & t & kids & Hspan).
      destruct (splitLast_nonempty _ Hne) as (pp & k & Hsplit). rewrite Hsplit in Hremove.
      pose proof (splitLast_inv _ _ _ Hsplit) as ->.
      rewrite getNode_app in Hspan.
      destruct (getNode doc pp) as [[d | t0 h0 cs]|] eqn:Hpp; [done | | done].
      simpl in Hspan. destruct (cs !! k) as [c|] eqn:Hk; [|done]. injection Hspan as ->.
      destruct (alterAt_is_Some (unwrapChild k) doc pp (Elem t0 h0 cs)
                  (normalize (Elem t0 h0 (take k cs ++ kids ++ drop (S k) cs))) Hpp)
        as [doc1 Hdoc1].
      { unfold unwrapChild. simpl. by rewrite Hk. }
      rewrite Hdoc1 in Hremove. injection Hremove as <- <-.
      split_and!; [by apply (list_elem_of_fmap_2 snd) in Hin | | done].
      eapply markerIds_alterAt_minus; [apply unwrapChild_own | | exact Hdoc1].
      intros m m' Hm. assert (m = Elem t0 h0 cs) as -> by congruence.
      unfold unwrapChild, spliceChild. rewrite Hk.
      cbn [mbind option_bind fmap option_fmap option_map]. intros [= <-].
      change (Elem t0 h0 (mergeTexts (normalize <$> take k cs ++ kids ++ drop (S k) cs)))
        with (normalize (Elem t0 h0 (take k cs ++ kids ++ drop (S k) cs))).
      rewrite markerIds_normalize, !markerIds_Elem.
      rewrite <- (take_drop_middle cs k (Elem t (Some value) kids)) at 1 by done.
      rewrite !bind_app, bind_cons. unfold nodeIds at 2. cbn [ownMarker fmap list_fmap snd].
      rewrite markerIds_Elem. cbn [app].
      apply Permutation_sym, Permutation_middle.
    + injection Hremove as <- <-. split; [|done]. by apply firstMarker_None in Hq.
  - intros Hinvalid. unfold removeHighlightSpan.
    specialize (Hcss (markerSelector id) doc). rewrite Hinvalid in Hcss. by rewrite Hcss.
Qed.

Lemma removeHighlightSpan_spec_witness :
  match removeHighlightSpan cssQuerySelector "hl-1"
          (tryRestoreHighlight foxItem foxDoc).2 with
  | Returns (true, doc') =>
      "hl-1" ∈ markerIds (tryRestoreHighlight foxItem foxDoc).2
      ∧ markerIds (tryRestoreHighlight foxItem foxDoc).2 ≡ₚ "hl-1" :: markerIds doc'
      ∧ textContent doc' = textContent (tryRestoreHighlight foxItem foxDoc).2
  | Returns (false, doc') =>
      ("hl-1" ∉ markerIds (tryRestoreHighlight foxItem foxDoc).2)
      ∧ doc' = (tryRestoreHighlight foxItem foxDoc).2
  | Throws => False
  end
  ∧ removeHighlightSpan cssQuerySelector (hl_id quotedItem) foxDoc = Throws.
Proof.
  split.
  - exact (proj1 (proj2 (removeHighlightSpan_spec cssQuerySelector "hl-1"
                           (tryRestoreHighlight foxItem foxDoc).2 cssQuerySelector_css))
             "hl-1" eq_refl).
  - exact (proj2 (proj2 (removeHighlightSpan_spec cssQuerySelector (hl_id quotedItem)
                           foxDoc cssQuerySelector_css))
             eq_refl).
Defined.

(** X10. Restoring a list of anchors never changes the text of the
    document, however many of them are wrapped, whatever [querySelector]
    answers, and whether or not the pass comes to its end. *)
Theorem restoreHighlights_keeps_text querySelector items st :
  textContent (document (restoreHighlights querySelector items st))
  = textContent (document st).
Proof.
  unfold restoreHighlights. revert st.
  induction items as [|item items IH]; intros st; [done|].
  cbn [forEachItem].
  assert (Hone : textContent (document (restoreOne querySelector st item).1)
                 = textContent (document st)).
  { unfold restoreOne. destruct (querySelector _ _); cbn [fst document]; [done | | done].
    unfold tryRestoreHighlight.
    destruct (resolve item (document st)) as [[tier found]|]; [|done].
    apply applyHighlightToTextNode_textContent. }
  destruct (restoreOne querySelector st item) as [st' [|]]; cbn [fst] in *; [|done].
  by rewrite IH.
Qed.

Lemma cacheSet_holds cache id item : CacheHolds (cacheSet cache id item) id item.
Proof.
  unfold CacheHolds, cacheSet. case_bool_decide; cbn [prototype ownEntries]; [done|].
  by rewrite lookup_insert_eq.
Qed.

Lemma cacheSet_other cache id item id' item' :
  id' ≠ id → CacheHolds cache id' item' → CacheHolds (cacheSet cache id item) id' item'.
Proof.
  intros Hne. unfold CacheHolds, cacheSet.
  case_bool_decide as Hid'; case_bool_decide as Hid; cbn [prototype ownEntries];
    [congruence | done | done |].
  by rewrite lookup_insert_ne.
Qed.

Lemma restoreOne_cache querySelector st item :
  highlightCache (restoreOne querySelector st item).1
  = cacheSet (highlightCache st) (hl_id item) item.
Proof. unfold restoreOne. by destruct (querySelector _ _). Qed.

Lemma forEachItem_keeps querySelector items st id item :
  id ∉ hl_id <$> items → CacheHolds (highlightCache st) id item →
  CacheHolds (highlightCache (forEachItem querySelector items st).1) id item.
Proof.
  revert st. induction items as [|x items IH]; intros st Hid Hst; [done|].
  rewrite fmap_cons, not_elem_of_cons in Hid. destruct Hid as [Hne Hid].
  cbn [forEachItem].
  pose proof (restoreOne_cache querySelector st x) as Hcache.
  destruct (restoreOne querySelector st x) as [st' [|]]; cbn [fst] in *.
  - apply IH; [done|]. rewrite Hcache. by apply cacheSet_other.
  - rewrite Hcache. by apply cacheSet_other.
Qed.

(** X11. A restore pass over anchors with distinct ids that comes to its
    end leaves each of them in the cache: under its id as an entry, or,
    for the id [__proto__], as the prototype of the cache. The pass comes
    to its end when [querySelector] reads the marker selector as CSS does
    and no id has a double quote, a backslash, a line break or a zero; an
    id that makes the selector invalid ends the pass there, with that
    anchor cached and the anchors after it untouched. *)
Theorem restoreHighlights_caches querySelector items st :
  NoDup (hl_id <$> items) →
  ((forEachItem querySelector items st).2 = true →
     ∀ item, item ∈ items →
             CacheHolds (highlightCache (restoreHighlights querySelector items st))
               (hl_id item) item)
  ∧ (CssSelectors querySelector →
       Forall (fun item => plainId (hl_id item) = true) items →
       (forEachItem querySelector items st).2 = true)
  ∧ (CssSelectors querySelector →
       ∀ before item after,
         items = before ++ item :: after →
         (forEachItem querySelector before st).2 = true →
         selectorMeaning (markerSelector (hl_id item)) = InvalidSelector →
         forEachItem querySelector items st
         = ({| highlightCache :=
                 cacheSet (highlightCache (forEachItem querySelector before st).1)
                   (hl_id item) item;
               document := document (forEachItem querySelector before st).1 |}, false)).
Proof.
  intros Hnd. split_and!.
  - unfold restoreHighlights. revert st Hnd.
    induction items as [|x items IH]; intros st Hnd Hdone item Hin.
    { by apply elem_of_nil in Hin. }
    rewrite fmap_cons in Hnd. apply NoDup_cons in Hnd as [Hx Hnd].
    cbn [forEachItem] in *.
    pose proof (restoreOne_cache querySelector st x) as Hcache.
    destruct (restoreOne querySelector st x) as [st' [|]]; cbn [fst snd] in *; [|done].
    apply elem_of_cons in Hin as [-> | Hin].
    + apply forEachItem_keeps; [done|]. rewrite Hcache. apply cacheSet_holds.
    + by apply IH.
  - intros Hcss Hplain. revert st.
    induction Hplain as [|x items Hx _ IH]; intros st; [done|].
    rewrite fmap_cons in Hnd. apply NoDup_cons in Hnd as [_ Hnd].
    cbn [forEachItem]. unfold restoreOne. rewrite (css_query_plain _ _ _ Hcss Hx).
    destruct (elementWithId _ _) eqn:Hq; [by apply IH | by apply IH |].
    unfold elementWithId in Hq. by destruct (firstMarker _ _).
  - intros Hcss before item after -> Hbefore Hinvalid. clear Hnd. revert st Hbefore.
    induction before as [|x before IH]; intros st Hbefore.
    + cbn [app forEachItem fst]. unfold restoreOne.
      specialize (Hcss (markerSelector (hl_id item)) (document st)).
      rewrite Hinvalid in Hcss. by rewrite Hcss.
    + cbn [app forEachItem] in *.
      destruct (restoreOne querySelector st x) as [st' [|]]; [by apply IH | done].
Qed.

Lemma restoreHighlights_caches_witness :
  CacheHolds
    (highlightCache (restoreHighlights cssQuerySelector [foxItem; emptyQuoteItem]
                       {| highlightCache := emptyCache; document := foxDoc |}))
    "hl-2" emptyQuoteItem
  ∧ forEachItem cssQuerySelector [foxItem; quotedItem; emptyQuoteItem]
      {| highlightCache := emptyCache; document := foxDoc |}
    = ({| highlightCache :=
            cacheSet (cacheSet emptyCache "hl-1" foxItem) (hl_id quotedItem) quotedItem;
          document := (tryRestoreHighlight foxItem foxDoc).2 |}, false).
Proof.
  split.
  - refine (proj1 (restoreHighlights_caches cssQuerySelector [foxItem; emptyQuoteItem] _ _)
              _ emptyQuoteItem _).
    + repeat constructor; [|apply not_elem_of_nil].
      intros Hin. apply list_elem_of_singleton in Hin. discriminate.
    + reflexivity.
    + apply elem_of_cons. right. apply list_elem_of_here.
  - refine (proj2 (proj2 (restoreHighlights_caches cssQuerySelector
                            [foxItem; quotedItem; emptyQuoteItem]
                            {| highlightCache := emptyCache; document := foxDoc |} _))
              cssQuerySelector_css [foxItem] quotedItem [emptyQuoteItem] _ _ _).
    + repeat constructor; rewrite ?not_elem_of_cons; repeat split;
        try apply not_elem_of_nil; discriminate.
    + reflexivity.
    + reflexivity.
    + reflexivity.
Defined.

(** * Further properties of the editors and of the background script *)

(** ** The tag field *)

Lemma splitWhiteSpace_pieces s :
  Forall (Forall (fun c => isWhiteSpace c = false)) (splitWhiteSpace s).
Proof.
  induction s as [|c rest IH]; [by repeat constructor|].
  cbn [splitWhiteSpace]. destruct (isWhiteSpace c) eqn:Hc.
  - destruct rest as [|c' rest']; [by repeat constructor|].
    destruct (isWhiteSpace c'); [done | by constructor].
  - destruct (splitWhiteSpace rest) as [|piece pieces]; [by repeat constructor|].
    apply Forall_cons in IH as [Hp Hps]. by repeat constructor.
Qed.

Lemma addHash_shape t : addHash t = [] ∨ ∃ r, addHash t = "#"%char :: r.
Proof.
  destruct t as [|c t]; [by left|]. right. simpl. case_bool_decide; subst; by eexists.
Qed.

Lemma addHash_pieces t :
  Forall (fun c => isWhiteSpace c = false) t →
  Forall (fun c => isWhiteSpace c = false) (addHash t).
Proof.
  destruct t as [|c t]; [done|]. simpl. case_bool_decide; [done|]. by constructor.
Qed.

Lemma foldl_setAdd_NoDup l set : NoDup set → NoDup (foldl setAdd set l).
Proof.
  revert set. induction l as [|t l IH]; intros set Hset; [done|].
  cbn [foldl]. apply IH. unfold setAdd. case_bool_decide as Hin; [done|].
  apply NoDup_app. split_and!; [done | | apply NoDup_singleton].
  intros x Hx ->%list_elem_of_singleton. done.
Qed.

Lemma elem_of_foldl_setAdd l set x : x ∈ foldl setAdd set l ↔ x ∈ set ∨ x ∈ l.
Proof.
  revert set. induction l as [|t l IH]; intros set.
  - simpl. split; [by left | intros [?|?%elem_of_nil]; done].
  - cbn [foldl]. rewrite IH. unfold setAdd. rewrite elem_of_cons.
    case_bool_decide as Hin.
    + split; [intros [?|?]; auto | intros [?|[->|?]]; auto].
    + rewrite elem_of_app, list_elem_of_singleton. tauto.
Qed.

Lemma foldl_setAdd_fresh l set : NoDup (set ++ l) → foldl setAdd set l = set ++ l.
Proof.
  revert set. induction l as [|t l IH]; intros set Hnd; [by rewrite app_nil_r|].
  cbn [foldl]. unfold setAdd. rewrite bool_decide_eq_false_2.
  - rewrite IH; [by rewrite <- app_assoc | by rewrite <- app_assoc].
  - apply NoDup_app in Hnd as (_ & Hdisj & _). intros Hin.
    apply (Hdisj _ Hin), list_elem_of_here.
Qed.

(** X12. Whatever is typed into the tag field, the parsed tags are pairwise
    distinct, and each is a hash sign followed by at least one more code
    unit and holds no white space; a word typed without the hash sign is
    among them with the sign put in front. *)
Theorem parseTags_well_formed value :
  NoDup (parseTags value)
  ∧ Forall TagOk (parseTags value)
  ∧ (∀ c w, c :: w ∈ splitWhiteSpace (trim value) → c ≠ "#"%char →
            "#"%char :: c :: w ∈ parseTags value).
Proof.
  unfold parseTags. split_and!.
  - apply foldl_setAdd_NoDup, NoDup_nil_2.
  - apply Forall_forall. intros t [?%elem_of_nil | Hin]%elem_of_foldl_setAdd; [done|].
    apply list_elem_of_filter in Hin as [Hlen Hin].
    apply list_elem_of_fmap in Hin as (piece & -> & Hpiece).
    pose proof (splitWhiteSpace_pieces (trim value)) as Hall.
    rewrite Forall_forall in Hall. specialize (Hall _ Hpiece).
    split; [|by apply addHash_pieces].
    destruct (addHash_shape piece) as [E | [r E]]; rewrite E in Hlen |- *.
    + simpl in Hlen. lia.
    + exists r. split; [done|]. intros ->. simpl in Hlen. lia.
  - intros c w Hin Hc. apply elem_of_foldl_setAdd. right.
    apply list_elem_of_filter. split; [simpl; lia|].
    apply list_elem_of_fmap. exists (c :: w). split; [|done].
    simpl. by rewrite bool_decide_eq_false_2.
Qed.

Lemma parseTags_well_formed_witness :
  str "#todo" ∈ parseTags (str " todo  #later todo ").
Proof.
  refine (proj2 (proj2 (parseTags_well_formed (str " todo  #later todo "))) "t"%char
            (str "odo") _ _).
  - vm_compute. apply list_elem_of_here.
  - discriminate.
Defined.

Lemma splitWhiteSpace_nonempty s : splitWhiteSpace s ≠ [].
Proof.
  induction s as [|c rest IH]; [done|]. cbn [splitWhiteSpace].
  destruct (isWhiteSpace c).
  - destruct rest as [|c' rest']; [done|]. by destruct (isWhiteSpace c').
  - by destruct (splitWhiteSpace rest).
Qed.

Lemma splitWhiteSpace_word w s :
  Forall (fun c => isWhiteSpace c = false) w →
  splitWhiteSpace (w ++ s)
  = match splitWhiteSpace s with
    | piece :: pieces => (w ++ piece) :: pieces
    | [] => [w]
    end.
Proof.
  pose proof (splitWhiteSpace_nonempty s) as Hne.
  induction 1 as [|c w Hc _ IH]; [cbn [app]; by destruct (splitWhiteSpace s)|].
  cbn [app splitWhiteSpace]. rewrite Hc, IH.
  by destruct (splitWhiteSpace s).
Qed.

Lemma join_cons sep x y l : join sep (x :: y :: l) = x ++ sep ++ join sep (y :: l).
Proof. done. Qed.

Lemma join_tags_head t tags :
  TagOk t → ∃ r, join (str " ") (t :: tags) = "#"%char :: r.
Proof.
  intros [(r & -> & _) _]. destruct tags as [|y l]; [by eexists|].
  rewrite join_cons. by eexists.
Qed.

Lemma join_tags_last t tags :
  Forall TagOk (t :: tags) →
  ∃ r c, join (str " ") (t :: tags) = r ++ [c] ∧ isWhiteSpace c = false.
Proof.
  revert t. induction tags as [|y l IH]; intros t Hok.
  - apply Forall_cons in Hok as [[(r & -> & Hr) Hws] _]. cbn [join].
    destruct (exists_last Hr) as (r' & c & ->). exists ("#"%char :: r'), c.
    split; [done|]. apply Forall_cons in Hws as [_ Hws].
    by apply Forall_app in Hws as [_ [Hc _]%Forall_cons].
  - apply Forall_cons in Hok as [_ Hok]. destruct (IH y Hok) as (r & c & E & Hc).
    rewrite join_cons, E. exists (t ++ str " " ++ r), c. by rewrite <- !app_assoc.
Qed.

Lemma trimStart_head c s : isWhiteSpace c = false → trimStart (c :: s) = c :: s.
Proof. intros Hc. simpl. by rewrite Hc. Qed.

Lemma trim_join_tags tags :
  Forall TagOk tags → trim (join (str " ") tags) = join (str " ") tags.
Proof.
  destruct tags as [|t tags]; [done|]. intros Hok.
  destruct (join_tags_head t tags) as [r Hhead]; [by apply Forall_cons in Hok as [? _]|].
  destruct (join_tags_last t tags Hok) as (r' & c & Hlast & Hc).
  unfold trim. rewrite Hhead at 1. rewrite trimStart_head by done. rewrite <- Hhead.
  rewrite Hlast at 1. rewrite reverse_app, reverse_singleton. cbn [app].
  rewrite trimStart_head by done.
  change (c :: reverse r') with (reverse [c] ++ reverse r').
  by rewrite <- reverse_app, reverse_involutive.
Qed.

Lemma splitWhiteSpace_join_tags t tags :
  Forall TagOk (t :: tags) →
  splitWhiteSpace (join (str " ") (t :: tags)) = t :: tags.
Proof.
  revert t. induction tags as [|y l IH]; intros t Hok.
  - apply Forall_cons in Hok as [[_ Hws] _]. cbn [join].
    rewrite <- (app_nil_r t) at 1. rewrite splitWhiteSpace_word by done.
    simpl. by rewrite app_nil_r.
  - apply Forall_cons in Hok as [[_ Hws] Hok]. rewrite join_cons.
    rewrite splitWhiteSpace_word by done.
    destruct (join_tags_head y l) as [r Hhead]; [by apply Forall_cons in Hok as [? _]|].
    specialize (IH y Hok). rewrite Hhead in IH |- *.
    change (str " " ++ "#"%char :: r) with (" "%char :: "#"%char :: r).
    cbn [splitWhiteSpace]. change (isWhiteSpace " ") with true.
    change (isWhiteSpace "#") with false. cbn match.
    cbn [splitWhiteSpace] in IH. change (isWhiteSpace "#") with false in IH.
    rewrite IH. by rewrite app_nil_r.
Qed.

(** X13. Tags that are pairwise distinct and well formed, written into the
    field the way the editors fill it (joined by one space) and parsed
    again, come back as they were, in their order; so parsing what was
    parsed changes nothing. *)
Theorem parseTags_join tags :
  NoDup tags → Forall TagOk tags →
  parseTags (join (str " ") tags) = tags.
Proof.
  intros Hnd Hok. unfold parseTags. rewrite trim_join_tags by done.
  destruct tags as [|t tags]; [done|].
  rewrite splitWhiteSpace_join_tags by done.
  assert (Hhash : addHash <$> t :: tags = t :: tags).
  { clear Hnd. induction Hok as [|x l [(r & -> & _) _] _ IH]; [done|].
    rewrite fmap_cons, IH. done. }
  rewrite Hhash, filter_all.
  - by apply foldl_setAdd_fresh.
  - eapply Forall_impl; [exact Hok|]. intros x [(r & -> & Hr) _].
    destruct r; [done | simpl; lia].
Qed.

Lemma parseTags_join_witness :
  parseTags (join (str " ") [str "#todo"; str "#later"]) = [str "#todo"; str "#later"].
Proof.
  apply parseTags_join.
  - apply NoDup_cons. split; [|apply NoDup_singleton].
    intros Hin. apply list_elem_of_singleton in Hin. discriminate.
  - repeat constructor; try (by eexists; split; [reflexivity | discriminate]).
Defined.

(** ** Reading back what the background script stored *)

Lemma getHighlightsForUrl_save newURL (highlights : gmap string PageData)
    url pageTitle pageItems url' :
  normalizeUrl newURL url' = normalizeUrl newURL url →
  getHighlightsForUrl newURL
    (saveHighlightsForUrl newURL highlights url pageTitle pageItems) url'
  = if bool_decide (length pageItems = 0) then {| title := ""; items := [] |}
    else {| title := pageTitle; items := pageItems |}.
Proof.
  intros Hsame. unfold getHighlightsForUrl, saveHighlightsForUrl. rewrite Hsame.
  case_bool_decide; [by rewrite lookup_delete_eq | by rewrite lookup_insert_eq].
Qed.

Lemma saveHighlightsForUrl_other newURL (highlights : gmap string PageData)
    url pageTitle pageItems key :
  key ≠ normalizeUrl newURL url →
  saveHighlightsForUrl newURL highlights url pageTitle pageItems !! key = highlights !! key.
Proof.
  intros Hne. unfold saveHighlightsForUrl.
  case_bool_decide; [by rewrite lookup_delete_ne | by rewrite lookup_insert_ne].
Qed.

Lemma saveHighlightsForUrl_same newURL (highlights : gmap string PageData)
    url pageTitle pageItems :
  saveHighlightsForUrl newURL highlights url pageTitle pageItems !! normalizeUrl newURL url
  = if bool_decide (length pageItems = 0) then None
    else Some {| title := pageTitle; items := pageItems |}.
Proof.
  unfold saveHighlightsForUrl.
  case_bool_decide; [by rewrite lookup_delete_eq | by rewrite lookup_insert_eq].
Qed.

Lemma length_snoc_ne {A} (l : list A) x : length (l ++ [x]) ≠ 0.
Proof. rewrite length_app. simpl. lia. Qed.

(** X14. After [addHighlight], every URL with the same normal form reads
    the page with the new anchor at the end of its list, after the anchors
    it had, under the given title or, when that is empty, the title it had;
    the entries under all other keys are untouched. *)
Theorem addHighlight_read newURL (highlights : gmap string PageData)
    url pageTitle highlightData :
  (∀ url', normalizeUrl newURL url' = normalizeUrl newURL url →
     getHighlightsForUrl newURL
       (addHighlight newURL highlights url pageTitle highlightData) url'
     = {| title := if bool_decide (pageTitle ≠ "") then pageTitle
                   else title (getHighlightsForUrl newURL highlights url);
          items := items (getHighlightsForUrl newURL highlights url) ++ [highlightData] |})
  ∧ (∀ key, key ≠ normalizeUrl newURL url →
       addHighlight newURL highlights url pageTitle highlightData !! key
       = highlights !! key).
Proof.
  split.
  - intros url' Hsame. unfold addHighlight.
    rewrite getHighlightsForUrl_save by done.
    rewrite bool_decide_eq_false_2; [done | apply length_snoc_ne].
  - intros key Hne. by apply saveHighlightsForUrl_other.
Qed.

Lemma addHighlight_read_witness :
  items (getHighlightsForUrl noURL
           (addHighlight noURL foxStore "https://example.com/fox" "" emptyQuoteItem)
           "https://example.com/fox")
  = [foxItem; otherItem; emptyQuoteItem].
Proof.
  rewrite (proj1 (addHighlight_read noURL foxStore "https://example.com/fox" ""
                    emptyQuoteItem) "https://example.com/fox" eq_refl).
  reflexivity.
Defined.

Lemma filter_snoc_fresh highlightId (l : list Item) x :
  hl_id x = highlightId → highlightId ∉ hl_id <$> l →
  filter (fun item => hl_id item ≠ highlightId) (l ++ [x]) = l.
Proof.
  intros Hx Hfresh. rewrite filter_app, filter_cons_False by (intros Hne; by apply Hne).
  rewrite filter_nil, app_nil_r. apply filter_all, Forall_forall.
  intros y Hy Heq. apply Hfresh. rewrite <- Heq. by apply list_elem_of_fmap_2.
Qed.

(** X15. Removing an anchor right after it was added, when no anchor of the
    page had its id, leaves the page with the anchors it had before; and
    when the URL had no entry before, the store is again exactly what it
    was. *)
Theorem add_then_remove newURL (highlights : gmap string PageData)
    url pageTitle highlightData :
  hl_id highlightData ∉ hl_id <$> items (getHighlightsForUrl newURL highlights url) →
  items (getHighlightsForUrl newURL
           (removeHighlight newURL
              (addHighlight newURL highlights url pageTitle highlightData)
              url (hl_id highlightData)) url)
  = items (getHighlightsForUrl newURL highlights url)
  ∧ (highlights !! normalizeUrl newURL url = None →
       removeHighlight newURL
         (addHighlight newURL highlights url pageTitle highlightData)
         url (hl_id highlightData)
       = highlights).
Proof.
  intros Hfresh.
  assert (Hread : getHighlightsForUrl newURL
                    (addHighlight newURL highlights url pageTitle highlightData) url
                  = {| title := if bool_decide (pageTitle ≠ "") then pageTitle
                                else title (getHighlightsForUrl newURL highlights url);
                       items := items (getHighlightsForUrl newURL highlights url)
                                ++ [highlightData] |}).
  { unfold addHighlight. rewrite getHighlightsForUrl_save by done.
    rewrite bool_decide_eq_false_2; [done | apply length_snoc_ne]. }
  split.
  - unfold removeHighlight. rewrite Hread. cbn [items title].
    rewrite filter_snoc_fresh by done. rewrite getHighlightsForUrl_save by done.
    by destruct (items (getHighlightsForUrl newURL highlights url)).
  - intros Habsent. unfold removeHighlight. rewrite Hread. cbn [items title].
    rewrite filter_snoc_fresh by done.
    unfold getHighlightsForUrl. rewrite Habsent. cbn [default items].
    unfold saveHighlightsForUrl at 1. rewrite bool_decide_eq_true_2 by done.
    unfold addHighlight, saveHighlightsForUrl.
    rewrite bool_decide_eq_false_2 by apply length_snoc_ne.
    rewrite delete_insert_eq. by apply delete_id.
Qed.

Lemma add_then_remove_witness :
  removeHighlight noURL
    (addHighlight noURL foxStore "https://example.com/other" "Other" emptyQuoteItem)
    "https://example.com/other" "hl-2"
  = foxStore.
Proof.
  refine (proj2 (add_then_remove noURL foxStore "https://example.com/other" "Other"
                   emptyQuoteItem _) _).
  - vm_compute. apply not_elem_of_nil.
  - reflexivity.
Defined.

Lemma filter_filter_same {A} (P : A → Prop) `{∀ x, Decision (P x)} (l : list A) :
  filter P (filter P l) = filter P l.
Proof.
  apply filter_all, Forall_forall. by intros x [? _]%list_elem_of_filter.
Qed.

(** X16. Removing an anchor a second time changes nothing: the store after
    two removals of the same id from the same URL is the store after
    one. *)
Theorem removeHighlight_idempotent newURL (highlights : gmap string PageData)
    url highlightId :
  removeHighlight newURL (removeHighlight newURL highlights url highlightId)
    url highlightId
  = removeHighlight newURL highlights url highlightId.
Proof.
  unfold removeHighlight at 1.
  assert (Hread : getHighlightsForUrl newURL
                    (removeHighlight newURL highlights url highlightId) url
                  = let l := filter (fun item => hl_id item ≠ highlightId)
                               (items (getHighlightsForUrl newURL highlights url)) in
                    if bool_decide (length l = 0) then {| title := ""; items := [] |}
                    else {| title := title (getHighlightsForUrl newURL highlights url);
                            items := l |}).
  { unfold removeHighlight at 1. by rewrite getHighlightsForUrl_save. }
  rewrite Hread. cbn zeta. unfold removeHighlight.
  set (pageData := getHighlightsForUrl newURL highlights url).
  set (l := filter _ (items pageData)).
  unfold saveHighlightsForUrl. destruct (bool_decide (length l = 0)) eqn:Hl.
  - cbn [items title]. rewrite filter_nil. cbn [length].
    rewrite bool_decide_eq_true_2 by done. by rewrite delete_delete_eq.
  - cbn [items title]. subst l. rewrite filter_filter_same, Hl.
    by rewrite insert_insert_eq.
Qed.

(** ** [updateHighlight] *)

Lemma updateFirst_None highlightId updates l :
  updateFirst highlightId updates l = None ↔ highlightId ∉ hl_id <$> l.
Proof.
  induction l as [|item l IH]; [split; [intros _; apply not_elem_of_nil | done]|].
  simpl. rewrite not_elem_of_cons. case_bool_decide as Hid.
  - split; [done | by intros [? _]].
  - destruct (updateFirst highlightId updates l).
    + split; [done|]. intros [_ Hl]. by apply IH in Hl.
    + split; [|done]. intros _. split; [done | by apply IH].
Qed.

Lemma updateFirst_split highlightId updates before anchor after :
  highlightId ∉ hl_id <$> before → hl_id anchor = highlightId →
  updateFirst highlightId updates (before ++ anchor :: after)
  = Some (before ++ mergeUpdates anchor updates :: after).
Proof.
  intros Hb Ha. induction before as [|x before IH].
  - simpl. by rewrite bool_decide_eq_true_2.
  - rewrite fmap_cons, not_elem_of_cons in Hb. destruct Hb as [Hx Hb].
    cbn [app updateFirst]. rewrite bool_decide_eq_false_2 by done.
    by rewrite IH.
Qed.

Lemma updateFirst_nonempty highlightId updates l l' :
  updateFirst highlightId updates l = Some l' → length l' ≠ 0.
Proof.
  destruct l as [|item l]; [done|]. simpl. case_bool_decide.
  - by intros [= <-].
  - destruct (updateFirst highlightId updates l); [|done]. by intros [= <-].
Qed.

(** X17. [updateHighlight] changes nothing when no anchor of the page has
    the id. Otherwise the first anchor with the id, and only that one, is
    replaced, in its place in the list, by an anchor with the same id,
    quote, prefix, suffix, path, offsets and creation time, and with the
    colour, the note and the tags that were sent, each kept as it was when
    it was not sent; the page keeps its title. In both cases the store has
    the same keys as before, and every page lists anchors with the same
    ids, quotes, paths and offsets, in the same order. *)
Theorem updateHighlight_spec newURL (highlights : gmap string PageData)
    url highlightId updates :
  (highlightId ∉ hl_id <$> items (getHighlightsForUrl newURL highlights url) →
     updateHighlight newURL highlights url highlightId updates = highlights)
  ∧ (∀ before anchor after,
       items (getHighlightsForUrl newURL highlights url) = before ++ anchor :: after →
       highlightId ∉ hl_id <$> before → hl_id anchor = highlightId →
       updateHighlight newURL highlights url highlightId updates
       = <[normalizeUrl newURL url :=
             {| title := title (getHighlightsForUrl newURL highlights url);
                items :=
                  before
                  ++ {| hl_id := hl_id anchor;
                        hl_quote := hl_quote anchor;
                        hl_prefix := hl_prefix anchor;
                        hl_suffix := hl_suffix anchor;
                        hl_color := match u_color updates with
                                    | Some color => color
                                    | None => hl_color anchor
                                    end;
                        hl_xpath := hl_xpath anchor;
                        hl_startOffset := hl_startOffset anchor;
                        hl_endOffset := hl_endOffset anchor;
                        hl_note := match u_note updates with
                                   | Some note => note
                                   | None => hl_note anchor
                                   end;
                        hl_tags := match u_tags updates with
                                   | Some tags => tags
                                   | None => hl_tags anchor
                                   end;
                        hl_createdAt := hl_createdAt anchor |}
                  :: after |}]> highlights)
  ∧ dom (updateHighlight newURL highlights url highlightId updates) = dom highlights
  ∧ (∀ url',
       anchorPart <$> items (getHighlightsForUrl newURL
                               (updateHighlight newURL highlights url highlightId updates)
                               url')
       = anchorPart <$> items (getHighlightsForUrl newURL highlights url')).
Proof.
  split_and!.
  - intros Hno. unfold updateHighlight.
    apply (updateFirst_None _ updates) in Hno. by rewrite Hno.
  - intros before anchor after Hitems Hb Ha. unfold updateHighlight.
    rewrite Hitems, updateFirst_split by done. unfold saveHighlightsForUrl.
    rewrite bool_decide_eq_false_2; [|rewrite length_app; simpl; lia].
    unfold mergeUpdates. by destruct updates as [[?|] [?|] [?|]].
  - unfold updateHighlight.
    destruct (updateFirst _ _ _) as [items'|] eqn:Hupd; [|done].
    unfold saveHighlightsForUrl.
    rewrite bool_decide_eq_false_2 by (by eapply updateFirst_nonempty).
    rewrite dom_insert_L. unfold getHighlightsForUrl in Hupd.
    destruct (highlights !! normalizeUrl newURL url) as [pd|] eqn:Hpd; [|done].
    apply elem_of_dom_2 in Hpd. apply subseteq_union_1_L.
    by apply singleton_subseteq_l.
  - intros url'. unfold updateHighlight.
    destruct (updateFirst _ _ _) as [items'|] eqn:Hupd; [|done].
    destruct (decide (normalizeUrl newURL url' = normalizeUrl newURL url)) as [Hsame | Hne].
    + rewrite getHighlightsForUrl_save by done.
      rewrite bool_decide_eq_false_2 by (by eapply updateFirst_nonempty).
      cbn [items]. rewrite (updateFirst_anchor _ _ _ _ Hupd).
      unfold getHighlightsForUrl. by rewrite Hsame.
    + unfold getHighlightsForUrl. by rewrite saveHighlightsForUrl_other.
Qed.

Lemma updateHighlight_spec_witness :
  updateHighlight noURL foxStore "https://example.com/fox" "hl-9"
    {| u_color := None; u_note := Some "new"; u_tags := None |}
  = <["https://example.com/fox" :=
        {| title := "Fox";
           items := [foxItem;
                     {| hl_id := "hl-9"; hl_quote := str "jumps"; hl_prefix := [];
                        hl_suffix := []; hl_color := "#69F0AE";
                        hl_xpath := textPath [paragraph] 1;
                        hl_startOffset := 41; hl_endOffset := 46;
                        hl_note := "new"; hl_tags := ["#later"];
                        hl_createdAt := "2024-01-02T00:00:00.000Z" |}] |}]>
      foxStore.
Proof.
  refine (proj1 (proj2 (updateHighlight_spec noURL foxStore "https://example.com/fox" "hl-9"
                          {| u_color := None; u_note := Some "new"; u_tags := None |}))
            [foxItem] otherItem [] _ _ _).
  - reflexivity.
  - intros Hin. apply list_elem_of_singleton in Hin. discriminate.
  - reflexivity.
Defined.

(** ** What every operation keeps true of the store *)

Lemma NoEmptyPage_save newURL (highlights : gmap string PageData) url pageTitle pageItems :
  NoEmptyPage highlights →
  NoEmptyPage (saveHighlightsForUrl newURL highlights url pageTitle pageItems).
Proof.
  intros Hinv key page.
  destruct (decide (key = normalizeUrl newURL url)) as [-> | Hne].
  - rewrite saveHighlightsForUrl_same. case_bool_decide as Hlen; [done|].
    intros [= <-]. cbn [items]. by intros ->.
  - rewrite saveHighlightsForUrl_other by done. apply Hinv.
Qed.

Lemma filter_none_of {A} (P : A → Prop) `{∀ x, Decision (P x)} (l : list A) :
  Forall (fun x => ¬ P x) l → filter P l = [].
Proof.
  induction 1 as [|x l Hx _ IH]; [done|]. by rewrite filter_cons_False.
Qed.

(** X18. Starting from a store in which no page has an empty list of
    anchors, adding, removing and updating an anchor give such a store
    again, and so does an import of a file in which no page is empty. In
    such a store a URL reads an empty list exactly when its normal form has
    no entry. *)
Theorem NoEmptyPage_preserved newURL (highlights : gmap string PageData) :
  NoEmptyPage highlights →
  (∀ url pageTitle highlightData,
     NoEmptyPage (addHighlight newURL highlights url pageTitle highlightData))
  ∧ (∀ url highlightId, NoEmptyPage (removeHighlight newURL highlights url highlightId))
  ∧ (∀ url highlightId updates,
       NoEmptyPage (updateHighlight newURL highlights url highlightId updates))
  ∧ (∀ importedHighlights,
       NoEmptyPage importedHighlights →
       NoEmptyPage (importHighlights highlights importedHighlights))
  ∧ (∀ url, items (getHighlightsForUrl newURL highlights url) = []
            ↔ highlights !! normalizeUrl newURL url = None).
Proof.
  intros Hinv. split_and!.
  - intros. by apply NoEmptyPage_save.
  - intros. by apply NoEmptyPage_save.
  - intros url highlightId updates. unfold updateHighlight.
    destruct (updateFirst _ _ _); [by apply NoEmptyPage_save | done].
  - intros importedHighlights Himp url page.
    destruct (importHighlights_cases highlights importedHighlights)
      as [[_ ->] | [_ ->]]; [apply Hinv|].
    rewrite unionMerge_lookup.
    destruct (importedHighlights !! url) as [pd|] eqn:E; [|apply Hinv].
    rewrite mergePage_lookup_eq.
    destruct (highlights !! url) as [existing|] eqn:Hex.
    + intros [= <-]. cbn [items]. intros [Hnil _]%app_eq_nil. by eapply Hinv.
    + intros [= <-]. by eapply Himp.
  - intros url. unfold getHighlightsForUrl.
    destruct (highlights !! normalizeUrl newURL url) as [page|] eqn:E; [|done].
    cbn [default]. split; [|done]. intros Hnil. by eapply Hinv in Hnil.
Qed.

Lemma NoEmptyPage_foxStore : NoEmptyPage foxStore.
Proof.
  intros url page Hpage. unfold foxStore in Hpage.
  by apply lookup_singleton_Some in Hpage as [_ <-].
Qed.

Lemma NoEmptyPage_preserved_witness :
  NoEmptyPage (removeHighlight noURL foxStore "https://example.com/fox" "hl-1").
Proof.
  exact (proj1 (proj2 (NoEmptyPage_preserved noURL foxStore NoEmptyPage_foxStore))
           "https://example.com/fox" "hl-1").
Defined.

Lemma DistinctIds_save newURL (highlights : gmap string PageData) url pageTitle pageItems :
  DistinctIds highlights → NoDup (hl_id <$> pageItems) →
  DistinctIds (saveHighlightsForUrl newURL highlights url pageTitle pageItems).
Proof.
  intros Hinv Hnd key page.
  destruct (decide (key = normalizeUrl newURL url)) as [-> | Hne].
  - rewrite saveHighlightsForUrl_same. case_bool_decide as Hlen; [done|].
    by intros [= <-].
  - rewrite saveHighlightsForUrl_other by done. apply Hinv.
Qed.

Lemma DistinctIds_read newURL (highlights : gmap string PageData) url :
  DistinctIds highlights →
  NoDup (hl_id <$> items (getHighlightsForUrl newURL highlights url)).
Proof.
  intros Hinv. unfold getHighlightsForUrl.
  destruct (highlights !! normalizeUrl newURL url) as [page|] eqn:E.
  - by eapply Hinv.
  - apply NoDup_nil_2.
Qed.

Lemma updateFirst_ids highlightId updates l l' :
  updateFirst highlightId updates l = Some l' → hl_id <$> l' = hl_id <$> l.
Proof.
  intros Hupd%updateFirst_anchor.
  apply (f_equal (fmap (fun a : string * jsstr * option XPath * nat * nat => a.1.1.1.1)))
    in Hupd.
  by rewrite <- !list_fmap_compose in Hupd.
Qed.

Lemma NoDup_ids_filter (P : Item → Prop) `{∀ x, Decision (P x)} (l : list Item) :
  NoDup (hl_id <$> l) → NoDup (hl_id <$> filter P l).
Proof.
  induction l as [|x l IH]; [done|]. rewrite fmap_cons, NoDup_cons. intros [Hx Hl].
  destruct (decide (P x)).
  - rewrite filter_cons_True, fmap_cons by done. apply NoDup_cons. split; [|by apply IH].
    intros Hin. apply Hx. apply list_elem_of_fmap in Hin as (y & -> & Hy).
    apply list_elem_of_filter in Hy as [_ Hy]. by apply list_elem_of_fmap_2.
  - rewrite filter_cons_False by done. by apply IH.
Qed.

(** X19. Starting from a store in which the anchors of every page have
    distinct ids, the store is again such after adding an anchor whose id
    the page does not have, after removing an anchor, after updating one,
    and after importing a file whose pages have distinct ids; and after a
    removal no anchor of the page has the removed id any more, with or
    without distinct ids before. *)
Theorem DistinctIds_preserved newURL (highlights : gmap string PageData) :
  DistinctIds highlights →
  (∀ url pageTitle highlightData,
     hl_id highlightData ∉ hl_id <$> items (getHighlightsForUrl newURL highlights url) →
     DistinctIds (addHighlight newURL highlights url pageTitle highlightData))
  ∧ (∀ url highlightId, DistinctIds (removeHighlight newURL highlights url highlightId))
  ∧ (∀ url highlightId updates,
       DistinctIds (updateHighlight newURL highlights url highlightId updates))
  ∧ (∀ importedHighlights,
       DistinctIds importedHighlights →
       DistinctIds (importHighlights highlights importedHighlights))
  ∧ (∀ (store : gmap string PageData) url highlightId,
       highlightId ∉ hl_id <$> items (getHighlightsForUrl newURL
                                         (removeHighlight newURL store url highlightId)
                                         url)).
Proof.
  intros Hinv. split_and!.
  - intros url pageTitle highlightData Hfresh. apply DistinctIds_save; [done|].
    rewrite fmap_app. apply NoDup_app. split_and!.
    + by apply DistinctIds_read.
    + intros x Hx ->%list_elem_of_singleton. done.
    + apply NoDup_singleton.
  - intros url highlightId. apply DistinctIds_save; [done|].
    by apply NoDup_ids_filter, DistinctIds_read.
  - intros url highlightId updates. unfold updateHighlight.
    destruct (updateFirst _ _ _) as [items'|] eqn:Hupd; [|done].
    apply DistinctIds_save; [done|]. rewrite (updateFirst_ids _ _ _ _ Hupd).
    by apply DistinctIds_read.
  - intros importedHighlights Himp url page.
    destruct (importHighlights_cases highlights importedHighlights)
      as [[_ ->] | [_ ->]]; [apply Hinv|].
    rewrite unionMerge_lookup.
    destruct (importedHighlights !! url) as [pd|] eqn:E; [|apply Hinv].
    rewrite mergePage_lookup_eq.
    destruct (highlights !! url) as [existing|] eqn:Hex.
    + intros [= <-]. cbn [items]. rewrite fmap_app. apply NoDup_app. split_and!.
      * by eapply Hinv.
      * intros x Hx Hin. apply list_elem_of_fmap in Hin as (y & -> & Hy).
        by apply list_elem_of_filter in Hy as [Hfresh _].
      * apply NoDup_ids_filter. by eapply Himp.
    + intros [= <-]. by eapply Himp.
  - intros store url highlightId. unfold removeHighlight.
    rewrite getHighlightsForUrl_save by done.
    case_bool_decide; [apply not_elem_of_nil|]. cbn [items].
    intros Hin. apply list_elem_of_fmap in Hin as (y & -> & Hy).
    by apply list_elem_of_filter in Hy as [Hne _].
Qed.

Lemma DistinctIds_foxStore : DistinctIds foxStore.
Proof.
  intros url page Hpage. unfold foxStore in Hpage.
  apply lookup_singleton_Some in Hpage as [_ <-]. cbn [items].
  apply NoDup_cons. split; [|apply NoDup_singleton].
  intros Hin. apply list_elem_of_singleton in Hin. discriminate.
Qed.

Lemma DistinctIds_preserved_witness :
  DistinctIds (addHighlight noURL foxStore "https://example.com/fox" "" emptyQuoteItem).
Proof.
  refine (proj1 (DistinctIds_preserved noURL foxStore DistinctIds_foxStore)
            "https://example.com/fox" "" emptyQuoteItem _).
  vm_compute. intros Hin.
  apply elem_of_cons in Hin as [Hin | Hin]; [discriminate|].
  apply list_elem_of_singleton in Hin. discriminate.
Defined.

(** ** Importing twice *)

Lemma import_second_filter (existing pd : list Item) :
  filter (fun i => hl_id i ∉ (hl_id <$> existing
                              ++ filter (fun i => hl_id i ∉ (hl_id <$> existing)) pd)) pd
  = [].
Proof.
  apply filter_none_of, Forall_forall. intros x Hx Hfresh. apply Hfresh.
  rewrite fmap_app, elem_of_app.
  destruct (decide (hl_id x ∈ hl_id <$> existing)) as [Hin | Hout]; [by left|].
  right. apply list_elem_of_fmap_2. by apply list_elem_of_filter.
Qed.

Lemma import_title_again (t1 t2 : string) :
  (if bool_decide ((if bool_decide (t1 = "") && bool_decide (t2 ≠ "") then t2 else t1) = "")
      && bool_decide (t2 ≠ "")
   then t2
   else if bool_decide (t1 = "") && bool_decide (t2 ≠ "") then t2 else t1)
  = if bool_decide (t1 = "") && bool_decide (t2 ≠ "") then t2 else t1.
Proof.
  destruct (bool_decide (t1 = "")) eqn:H1, (bool_decide (t2 ≠ "")) eqn:H2; cbn [andb];
    rewrite ?H1, ?andb_false_r; try done.
  by destruct (bool_decide (t2 = "")).
Qed.

Lemma unionMerge_idempotent (existingHighlights importedHighlights : gmap string PageData) :
  unionMerge (unionMerge existingHighlights importedHighlights) importedHighlights
  = unionMerge existingHighlights importedHighlights.
Proof.
  apply map_eq. intros url. rewrite (unionMerge_lookup (unionMerge _ _)).
  destruct (importedHighlights !! url) as [pd|] eqn:E; [|done].
  rewrite mergePage_lookup_eq, unionMerge_lookup, E, mergePage_lookup_eq.
  destruct (existingHighlights !! url) as [existing|]; f_equal.
  - cbn [items title]. rewrite import_second_filter, app_nil_r. f_equal.
    apply import_title_again.
  - destruct pd as [t its]. cbn [items title]. f_equal.
    + by destruct (bool_decide (t = "")), (bool_decide (t ≠ "")).
    + rewrite <- (app_nil_r its) at 3. f_equal.
      apply filter_none_of, Forall_forall. intros x Hx Hfresh. apply Hfresh.
      by apply list_elem_of_fmap_2.
Qed.

Lemma unionMerge_dom (existingHighlights importedHighlights : gmap string PageData) :
  dom (unionMerge existingHighlights importedHighlights)
  = dom existingHighlights ∪ dom importedHighlights.
Proof.
  apply set_eq. intros url.
  rewrite elem_of_union, !elem_of_dom, unionMerge_lookup.
  destruct (importedHighlights !! url) as [pd|] eqn:E.
  - rewrite mergePage_lookup_eq. destruct (existingHighlights !! url); split; eauto.
  - split; [by left | intros [H | [? H]]; [done | discriminate]].
Qed.

(** X20. Importing the same file a second time changes nothing: the store
    after two imports is the store after one, whether or not the import
    raises. When the file has a key that names a member of
    [Object.prototype] and that the store lacks, the import raises and the
    store is left as it was. Otherwise the keys of the store afterwards are
    those it had and those of the file, taken as they are written, and an
    import into an empty store gives the file itself. *)
Theorem importHighlights_idempotent (existingHighlights importedHighlights
    : gmap string PageData) :
  importHighlights (importHighlights existingHighlights importedHighlights)
    importedHighlights
  = importHighlights existingHighlights importedHighlights
  ∧ (HitsPrototype existingHighlights importedHighlights →
       importEntries existingHighlights importedHighlights = None
       ∧ importHighlights existingHighlights importedHighlights = existingHighlights)
  ∧ (¬ HitsPrototype existingHighlights importedHighlights →
       dom (importHighlights existingHighlights importedHighlights)
       = dom existingHighlights ∪ dom importedHighlights
       ∧ (existingHighlights = ∅ →
            importHighlights existingHighlights importedHighlights = importedHighlights)).
Proof.
  split_and!.
  - destruct (importHighlights_cases existingHighlights importedHighlights)
      as [[Hhit Hsame] | [Hno Hmerge]].
    + rewrite Hsame. exact Hsame.
    + rewrite Hmerge.
      destruct (importHighlights_cases
                  (unionMerge existingHighlights importedHighlights) importedHighlights)
        as [[(url & _ & [pd Hpd] & Hnone) _] | [_ ->]].
      * rewrite unionMerge_lookup, Hpd, mergePage_lookup_eq in Hnone.
        by destruct (existingHighlights !! url).
      * apply unionMerge_idempotent.
  - intros Hhit. unfold importHighlights. by rewrite importEntries_raises.
  - intros Hno.
    destruct (importHighlights_cases existingHighlights importedHighlights)
      as [[Hhit _] | [_ ->]]; [done|].
    split; [apply unionMerge_dom|]. intros ->.
    apply map_eq. intros url. rewrite unionMerge_lookup.
    destruct (importedHighlights !! url) as [pd|] eqn:E; [|by rewrite lookup_empty].
    by rewrite mergePage_lookup_eq, lookup_empty.
Qed.

Lemma importHighlights_idempotent_witness :
  importEntries foxStore importedConstructor = None
  ∧ dom (importHighlights foxStore importedOverlap) = dom foxStore ∪ dom importedOverlap.
Proof.
  split.
  - refine (proj1 (proj1 (proj2 (importHighlights_idempotent foxStore importedConstructor))
                     _)).
    exists "constructor". split_and!; [apply elem_of_cons; by left | by eexists | done].
  - exact (proj1 (proj2 (proj2 (importHighlights_idempotent foxStore importedOverlap))
                    no_prototype_key_overlap)).
Defined.
